(** * hyangah/vulns: the vulnerability selector and loader (osvutil), the
      reference-graph analyzer (analysis) and the summaries of its
      diagnostics (quickcheck, cmd/vulns), embedded in Rocq.

    Go strings are byte sequences: they are modelled by [string]
    (a list of 8-bit [ascii]).  Go maps keyed by strings are [gmap string _],
    maps keyed by [types.Object] pointers are [gmap positive _], the
    pointer being the key. *)

From Stdlib Require Import Strings.String Strings.Ascii.
From stdpp Require Import base option list gmap strings fin_maps sorting
  relations.

Set Warnings "-clear-no-such-hyp".

Local Open Scope string_scope.

(** ** Outcomes of Go code that can panic or return an error. *)

Inductive result (A : Type) : Type :=
  | Ok (a : A)
  | Err (e : string)
  | Panic (msg : string).
Arguments Ok {A} a.
Arguments Err {A} e.
Arguments Panic {A} msg.

#[global] Instance result_bind : MBind result := λ A B f r,
  match r with
  | Ok a => f a
  | Err e => Err e
  | Panic m => Panic m
  end.

(** ** The parts of Go's [strings] package the program uses. *)

Module GoStrings.

Fixpoint drop (n : nat) (s : string) : string :=
  match n, s with
  | 0, _ => s
  | S _, "" => ""
  | S k, String _ s' => drop k s'
  end.

(** [strings.HasPrefix(s, p)]. *)
Definition HasPrefix (s p : string) : bool := String.prefix p s.

(** [strings.IndexByte(s, c)]; [None] is Go's -1. *)
Fixpoint IndexByte (s : string) (c : ascii) : option nat :=
  match s with
  | "" => None
  | String a s' => if Ascii.eqb a c then Some 0 else S <$> IndexByte s' c
  end.

(** [s[:i]]. *)
Fixpoint take (n : nat) (s : string) : string :=
  match n, s with
  | 0, _ => ""
  | S _, "" => ""
  | S k, String a s' => String a (take k s')
  end.

(** [strings.Contains(s, sub)]. *)
Fixpoint Contains (s sub : string) : bool :=
  String.prefix sub s ||
  match s with
  | "" => false
  | String _ s' => Contains s' sub
  end.

(** [strings.Cut(s, sep)]: the text before and after the first [sep]. *)
Fixpoint Cut (s sep : string) : string * string * bool :=
  if String.prefix sep s then ("", drop (String.length sep) s, true)
  else match s with
       | "" => ("", "", false)
       | String a s' =>
           let '(before, after, found) := Cut s' sep in
           (String a before, after, found)
       end.

(** [strings.Join(elems, sep)]. *)
Definition Join (elems : list string) (sep : string) : string :=
  String.concat sep elems.

(** [strings.Replace(s, old, new, -1)] for one-byte [old] and [new]. *)
Fixpoint ReplaceByte (s : string) (old new : ascii) : string :=
  match s with
  | "" => ""
  | String a s' =>
      String (if Ascii.eqb a old then new else a) (ReplaceByte s' old new)
  end.

(** The UTF-8 encodings of the runes for which [unicode.IsSpace] holds:
    tab, LF, VT, FF, CR, space, U+0085, U+00A0, U+1680, U+2000..U+200A,
    U+2028, U+2029, U+202F, U+205F, U+3000.  The lead byte of such an
    encoding is never a continuation byte, so an occurrence in a string is
    always at a rune boundary of Go's decoder, forwards and backwards. *)
Definition space_runes : list (list ascii) :=
  List.map (List.map ascii_of_nat)
  [ [9]; [10]; [11]; [12]; [13]; [32];
    [194; 133]; [194; 160];
    [225; 154; 128];
    [226; 128; 128]; [226; 128; 129]; [226; 128; 130]; [226; 128; 131];
    [226; 128; 132]; [226; 128; 133]; [226; 128; 134]; [226; 128; 135];
    [226; 128; 136]; [226; 128; 137]; [226; 128; 138];
    [226; 128; 168]; [226; 128; 169]; [226; 128; 175];
    [226; 129; 159];
    [227; 128; 128] ].

(** The white-space rune the bytes [l] start with, and the one they end
    with. *)
Definition leading_space (l : list ascii) : option (list ascii) :=
  List.find (λ p, bool_decide (p `prefix_of` l)) space_runes.

Definition trailing_space (l : list ascii) : option (list ascii) :=
  List.find (λ p, bool_decide (p `suffix_of` l)) space_runes.

Fixpoint trim_left (fuel : nat) (l : list ascii) : list ascii :=
  match fuel with
  | 0 => l
  | S fuel' =>
      match leading_space l with
      | Some p => trim_left fuel' (List.skipn (length p) l)
      | None => l
      end
  end.

Fixpoint trim_right (fuel : nat) (l : list ascii) : list ascii :=
  match fuel with
  | 0 => l
  | S fuel' =>
      match trailing_space l with
      | Some p => trim_right fuel' (List.firstn (length l - length p) l)
      | None => l
      end
  end.

(** [strings.TrimSpace(s)]: leading, then trailing white space goes. *)
Definition TrimSpace (s : string) : string :=
  let l := list_ascii_of_string s in
  let l := trim_left (length l) l in
  string_of_list_ascii (trim_right (length l) l).

(** Width in bytes of the white-space rune [s] starts with, if any. *)
Definition space_width (s : string) : option nat :=
  length <$> leading_space (list_ascii_of_string s).

(** [strings.Fields(s)]: the maximal runs of non-space bytes.  [skip]
    counts the remaining bytes of a white-space rune being consumed and
    [cur] is the field being read. *)
Fixpoint fields_from (s : string) (skip : nat) (cur : string) : list string :=
  let flush := if String.eqb cur "" then [] else [cur] in
  match s with
  | "" => flush
  | String a s' =>
      match skip with
      | S k => fields_from s' k cur
      | 0 =>
          match space_width s with
          | Some w => (flush ++ fields_from s' (w - 1) "")%list
          | None => fields_from s' 0 (cur ++ String a "")
          end
      end
  end.

Definition Fields (s : string) : list string := fields_from s 0 "".

End GoStrings.

(** ** The fragment of Go's [regexp] syntax that [tagRegexp] is written in,
       with leftmost-first (backtracking) matching and capture groups. *)

Module Regexp.

Inductive re : Type :=
  | Eps                         (* the empty alternative *)
  | Chars (lit : string)        (* a literal *)
  | Digits1                     (* \d+ *)
  | Seq (r1 r2 : re)
  | Alt (r1 r2 : re)            (* r1|r2, r1 preferred *)
  | Cap (n : nat) (r : re).     (* the n-th parenthesis *)

(** [(r)?] prefers to match [r]. *)
Definition Opt (r : re) : re := Alt r Eps.

Definition is_digit (a : ascii) : bool :=
  let n := nat_of_ascii a in Nat.leb 48 n && Nat.leb n 57.

Fixpoint digit_run (s : string) : nat :=
  match s with
  | String a s' => if is_digit a then S (digit_run s') else 0
  | "" => 0
  end.

Definition captures := gmap nat string.

(** Try the continuation after [n], [n-1], ..., 1 digits: [\d+] is greedy. *)
Fixpoint try_digits (n : nat) (s : string)
    (k : string → option captures) : option captures :=
  match n with
  | 0 => None
  | S n' =>
      match k (GoStrings.drop n s) with
      | Some c => Some c
      | None => try_digits n' s k
      end
  end.

Fixpoint exec (r : re) (s : string) (caps : captures)
    (k : string → captures → option captures) : option captures :=
  match r with
  | Eps => k s caps
  | Chars lit =>
      if String.prefix lit s
      then k (GoStrings.drop (String.length lit) s) caps
      else None
  | Digits1 => try_digits (digit_run s) s (λ s', k s' caps)
  | Seq r1 r2 => exec r1 s caps (λ s' caps', exec r2 s' caps' k)
  | Alt r1 r2 =>
      match exec r1 s caps k with
      | Some c => Some c
      | None => exec r2 s caps k
      end
  | Cap n r =>
      exec r s caps (λ s' caps',
        k s' (<[n := GoStrings.take (String.length s - String.length s') s]>
                caps'))
  end.

(** [^r$] applied by [FindStringSubmatch]: [None] is Go's nil slice,
    otherwise group [i] is read with [group m i] (empty if unset). *)
Definition FindStringSubmatch (r : re) (s : string) : option captures :=
  exec (Cap 0 r) s ∅
    (λ s' caps, if String.eqb s' "" then Some caps else None).

Definition group (m : captures) (i : nat) : string := default "" (m !! i).

End Regexp.

(** ** The OSV records of golang.org/x/vuln/osv, with the fields the
       program reads.  The package is not part of the repository. *)

Module Osv.

(** Modelled from the spec: the constant [osv.GoEcosystem] of
    golang.org/x/vuln/osv, the ecosystem tag Go. *)
Definition GoEcosystem : string := "Go".

Record Package := {
  Name : string;
  Ecosystem : string;
}.

Record RangeEvent := {
  Introduced : string;
  Fixed : string;
}.

Record AffectsRange := {
  RangeType : string;
  Events : list RangeEvent;
}.

Definition Affects := list AffectsRange.

Record EcosystemSpecificImport := {
  Path : string;
  GOOS : list string;
  GOARCH : list string;
  Symbols : list string;
}.

Record EcosystemSpecific := {
  Imports : list EcosystemSpecificImport;
}.

Record Affected := {
  Pkg : Package;
  Ranges : Affects;
  DatabaseSpecificURL : string;
  EcoSpecific : EcosystemSpecific;
}.

Record Entry := {
  ID : string;
  Published : string;
  Modified : string;
  Aliases : list string;
  Details : string;
  AffectedList : list Affected;
  References : list (string * string);
}.

End Osv.

(** ** The module and package records of golang.org/x/tools/go/packages. *)

Module Packages.

(** A [*packages.Module]; [Replace] is the replacing module, if any.  The
    type is inductive, so a chain of replacements is finite. *)
#[warnings="-register-all"]
Inductive Module : Type := mkModule {
  Path : string;
  Version : string;
  Replace : option Module;
}.

Record Package := {
  PkgPath : string;
  PkgModule : option Module;
}.

End Packages.

(** ** internal/osvutil *)

Module Osvutil.
Import GoStrings Regexp.

(** [^go(\d+\.\d+)(\.\d+|)((beta|rc|-pre)(\d+))?$] *)
Definition tagRegexp : re :=
  Seq (Chars "go")
 (Seq (Cap 1 (Seq Digits1 (Seq (Chars ".") Digits1)))
 (Seq (Cap 2 (Alt (Seq (Chars ".") Digits1) Eps))
      (Opt (Cap 3 (Seq (Cap 4 (Alt (Chars "beta") (Alt (Chars "rc") (Chars "-pre"))))
                       (Cap 5 Digits1)))))).

Definition GoTagToSemver (tag : string) : result string :=
  if String.eqb tag "" then Ok ""
  else
    match Fields tag with
    | [] => Panic "index out of range [0] with length 0"
    | tag :: _ =>
        if String.eqb tag "go1" then Ok "v1.0.0"
        else if String.eqb tag "go1.0" then Ok ""
        else
          match FindStringSubmatch tagRegexp tag with
          | None => Ok ""
          | Some m =>
              let version := "v" ++ group m 1 in
              let version :=
                if negb (String.eqb (group m 2) "")
                then version ++ group m 2
                else version ++ ".0" in
              let version :=
                if negb (String.eqb (group m 3) "")
                then
                  let version :=
                    if negb (HasPrefix (group m 4) "-")
                    then version ++ "-" else version in
                  version ++ group m 4 ++ "." ++ group m 5
                else version in
              Ok version
          end
    end.


(** The environment of a run: the platform read by [lookupEnv] and the
    semver range test [Affects.AffectsSemver] of osv; further down the
    path check of golang.org/x/mod/module and the database client. *)
Section WithEnv.
Variable goos goarch : string.
Variable AffectsSemver : Osv.Affects → string → bool.

Definition matchesPlatform (os arch : string)
    (e : Osv.EcosystemSpecificImport) : bool :=
  let matchesOS := Nat.eqb (length (Osv.GOOS e)) 0 in
  let matchesArch := Nat.eqb (length (Osv.GOARCH e)) 0 in
  let matchesOS :=
    if existsb (λ o, String.eqb os o) (Osv.GOOS e) then true else matchesOS in
  let matchesArch :=
    if existsb (λ a, String.eqb arch a) (Osv.GOARCH e) then true
    else matchesArch in
  matchesOS && matchesArch.

Definition isStdPackage (pkg : string) : bool :=
  if String.eqb pkg "" then false
  else
    let pkg :=
      match IndexByte pkg "/" with
      | Some i => take i pkg
      | None => pkg
      end in
    negb (Contains pkg ".").

Definition effectiveModule_fix :=
  fix go (m : Packages.Module) : Packages.Module :=
    match Packages.Replace m with
    | None => m
    | Some r => go r
    end.

Definition effectiveModule (mdl : option Packages.Module)
  : option Packages.Module :=
  effectiveModule_fix <$> mdl.

(** [modVersion] as [filterOSVEntries] computes it. *)
Definition modVersion (module : Packages.Module) : string :=
  match Packages.Replace module with
  | Some r => Packages.Version r
  | None => Packages.Version module
  end.

(** One turn of the loop over [v.Affected]: [None] is [continue],
    [Some a'] is the record appended to [filteredAffected]. *)
Definition filterAffected (module : Packages.Module) (a : Osv.Affected)
  : option Osv.Affected :=
  if negb (String.eqb (Osv.Ecosystem (Osv.Pkg a)) Osv.GoEcosystem) then None
  else if String.eqb (Packages.Path module) "stdlib"
          && negb (isStdPackage (Osv.Name (Osv.Pkg a))) then None
  else if negb (String.eqb (Packages.Path module) "stdlib")
          && negb (HasPrefix (Osv.Name (Osv.Pkg a)) (Packages.Path module))
       then None
  else if String.eqb (modVersion module) "" then None
  else if negb (AffectsSemver (Osv.Ranges a) (modVersion module)) then None
  else
    let filteredImports :=
      List.filter (λ p, matchesPlatform goos goarch p)
                  (Osv.Imports (Osv.EcoSpecific a)) in
    if negb (Nat.eqb (length (Osv.Imports (Osv.EcoSpecific a))) 0)
       && Nat.eqb (length filteredImports) 0
    then None
    else Some {| Osv.Pkg := Osv.Pkg a;
                 Osv.Ranges := Osv.Ranges a;
                 Osv.DatabaseSpecificURL := Osv.DatabaseSpecificURL a;
                 Osv.EcoSpecific := {| Osv.Imports := filteredImports |} |}.

(** One turn of the loop over [vulns]. *)
Definition filterEntry (module : Packages.Module) (v : Osv.Entry)
  : option Osv.Entry :=
  let filteredAffected :=
    omap (filterAffected module) (Osv.AffectedList v) in
  if Nat.eqb (length filteredAffected) 0 then None
  else Some {| Osv.ID := Osv.ID v;
               Osv.Published := Osv.Published v;
               Osv.Modified := Osv.Modified v;
               Osv.Aliases := Osv.Aliases v;
               Osv.Details := Osv.Details v;
               Osv.AffectedList := filteredAffected;
               Osv.References := Osv.References v |}.

Definition filterOSVEntries (module : Packages.Module)
    (vulns : list Osv.Entry) : list Osv.Entry :=
  omap (filterEntry module) vulns.

Definition normalizeEntry (v : Osv.Entry) : Osv.Entry :=
  {| Osv.ID := Osv.ID v;
     Osv.Published := Osv.Published v;
     Osv.Modified := Osv.Modified v;
     Osv.Aliases := Osv.Aliases v;
     Osv.Details :=
       TrimSpace (ReplaceByte (Osv.Details v) "010"%char " "%char);
     Osv.AffectedList := Osv.AffectedList v;
     Osv.References := Osv.References v |}.

Definition normalizeOSVEntries (_ : Packages.Module)
    (vulns : list Osv.Entry) : list Osv.Entry :=
  normalizeEntry <$> vulns.

Definition modKey (mdl : Packages.Module) : string :=
  let mdl := match Packages.Replace mdl with
             | Some r => r
             | None => mdl
             end in
  Packages.Path mdl ++ "@" ++ Packages.Version mdl.

Variable CheckPath : string → bool.
Variable GetByModule : string → result (list Osv.Entry).

(** The body of the loop of [FetchOSVEntries] over the modules. *)
Definition fetchModule (mod2OSV : gmap string (list Osv.Entry))
    (mdl : Packages.Module) : result (gmap string (list Osv.Entry)) :=
  let m := effectiveModule_fix mdl in
  let modPath := Packages.Path m in
  if negb (CheckPath modPath) then Ok mod2OSV
  else
    vulns ← GetByModule modPath;
    let vulns := normalizeOSVEntries m (filterOSVEntries m vulns) in
    if Nat.ltb 0 (length vulns)
    then Ok (<[modKey mdl := vulns]> mod2OSV)
    else Ok mod2OSV.

(** The callback [FetchOSVEntries] hands to [walk]: the entries of
    [pkg]'s module that list [pkg] among their imports. *)
Definition packageVulns (stdlibModule : Packages.Module)
    (mod2OSV : gmap string (list Osv.Entry)) (pkg : Packages.Package)
  : result (list Osv.Entry) :=
  let m := match Packages.PkgModule pkg with
           | None => if isStdPackage (Packages.PkgPath pkg)
                     then Some stdlibModule else None
           | Some m => Some m
           end in
  match m with
  | None => Panic "invalid memory address or nil pointer dereference"
  | Some m =>
      Ok (flat_map (λ v,
            flat_map (λ a,
              flat_map (λ p,
                if String.eqb (Osv.Path p) (Packages.PkgPath pkg)
                then [v] else [])
                (Osv.Imports (Osv.EcoSpecific a)))
              (Osv.AffectedList v))
            (default [] (mod2OSV !! modKey m)))
  end.

End WithEnv.

End Osvutil.

(** ** The objects of go/types and the inputs of an analysis pass. *)

Module Types.

(** A [types.Object] pointer. *)
Abbreviation ObjId := positive.

Inductive GoType : Type :=
  | TPointer (elem : GoType)        (* *types.Pointer *)
  | TNamed (obj : ObjId)            (* *types.Named and its type name *)
  | TOther (typeString : string).   (* another type, with its TypeString *)

Inductive ObjKind : Type :=
  | KFunc (recv : option GoType)    (* *types.Func, receiver of its signature *)
  | KVar
  | KConst
  | KTypeName
  | KPkgName (declaredIn imported : string)
      (* *types.PkgName: path of the importing and of the imported package *)
  | KOther.                         (* label, builtin, nil *)

Record Object := {
  Kind : ObjKind;
  Name : string;
  PkgField : option string;   (* Pkg().Path(); None when Pkg() is nil *)
  Pos : nat;                  (* token.Pos *)
  Exported : bool;            (* token.IsExported(Name) *)
}.

(** [obj.Pkg()], as its path.  A package name belongs to the package that
    holds the import declaration. *)
Definition Pkg (o : Object) : option string :=
  match Kind o with
  | KPkgName p _ => Some p
  | _ => PkgField o
  end.

(** [obj.Id()]: [types.Id(pkg, name)]. *)
Definition Id (o : Object) : string :=
  if Exported o then Name o
  else
    let path := match Pkg o with
                | Some p => if String.eqb p "" then "_" else p
                | None => "_"
                end in
    path ++ "." ++ Name o.

End Types.

(** ** analysis *)

Module Analysis.
Import GoStrings Types.

(** [map[string][]string]: the paths of a fact, of the memo table and of
    find-path results.  A nil map and an empty map are both [∅]. *)
Abbreviation PathMap := (gmap string (list string)).

(** A node the inspector enters, with the lookups in [pass.TypesInfo]
    already made: [None] is a missing entry or a nil object. *)
Inductive Node : Type :=
  | ImportSpec (implicit def : option ObjId)
  | Ident (use : option ObjId)
  | SelectorExpr (sel : option ObjId)
  | FuncDecl (def : option ObjId) (hasRecv : bool) (name : string)
  | ValueSpec (stackLen : nat) (defs : list (option ObjId))
  | TypeSpec (stackLen : nat) (def : option ObjId).

(** An [*analysis.Pass]: the objects behind the pointers, the file set, the
    nodes in the order the inspector enters them, and the facts of the
    packages analysed before. *)
Record Pass := {
  Objs : ObjId → Object;
  Fset : nat → string;
  Nodes : list Node;
  ObjectFacts : gmap ObjId PathMap;
  PackageFacts : gmap string PathMap;
}.

Record Diagnostic := {
  DPos : nat;
  DEnd : nat;
  Category : string;
  Message : string;
}.

(** The catalog; its lists hold entries, not nil pointers. *)
Record Catalog := {
  PkgToVulns : gmap string (list Osv.Entry);
  CatErr : option string;
}.

(** The orders in which the Go runtime yields the keys of the maps keyed by
    objects: [imports], [refs], and the bucket of an object in [succs]. *)
Record Schedule := {
  range_imports : list ObjId → list ObjId;
  range_members : list ObjId → list ObjId;
  range_refs : ObjId → list ObjId → list ObjId;
}.

Definition valid_schedule (s : Schedule) : Prop :=
  (∀ l, range_imports s l ≡ₚ l) ∧
  (∀ l, range_members s l ≡ₚ l) ∧
  (∀ o l, range_refs s o l ≡ₚ l).

(** The variables [run] closes over while it walks the syntax.  A bucket is
    a Go map shared by reference: [heap] holds the allocated buckets and
    [bucket], [refs] point into it.  Bucket 0 is [init]. *)
Record Graph := {
  bucket : option nat;
  heap : gmap nat (gset ObjId);
  next : nat;
  refs : gmap ObjId nat;
  methods : gmap ObjId (list ObjId);
  imports : gset ObjId;
}.

Definition initBucket : nat := 0.

Definition emptyGraph : Graph :=
  {| bucket := None; heap := {[ initBucket := ∅ ]}; next := 1;
     refs := ∅; methods := ∅; imports := ∅ |}.

(** [bucket = make(map[types.Object]bool)] *)
Definition makeBucket (g : Graph) : Graph :=
  {| bucket := Some (next g); heap := <[next g := ∅]> (heap g);
     next := S (next g); refs := refs g; methods := methods g;
     imports := imports g |}.

(** [bucket[obj] = true] *)
Definition addToBucket (g : Graph) (obj : ObjId) : result Graph :=
  match bucket g with
  | None => Panic "assignment to entry in nil map"
  | Some b =>
      Ok {| bucket := bucket g;
            heap := <[b := {[obj]} ∪ default ∅ (heap g !! b)]> (heap g);
            next := next g; refs := refs g; methods := methods g;
            imports := imports g |}
  end.

(** [refs[obj] = bucket]; every call follows a [make], so [bucket] is set. *)
Definition setRef (g : Graph) (obj : ObjId) : Graph :=
  match bucket g with
  | None => g
  | Some b =>
      {| bucket := bucket g; heap := heap g; next := next g;
         refs := <[obj := b]> (refs g); methods := methods g;
         imports := imports g |}
  end.

Section WithPass.
Variable pass : Pass.
Variable catalog : Catalog.
Variable sched : Schedule.

Definition isRecorded (k : ObjKind) : bool :=
  match k with
  | KFunc _ | KVar | KConst | KTypeName => true
  | _ => false
  end.

(** The function literal handed to [inspect.WithStack], on entering [n]. *)
Definition visit (g : Graph) (n : Node) : result Graph :=
  match n with
  | ImportSpec implicit def =>
      let obj := match implicit with Some o => Some o | None => def end in
      match obj with
      | Some o =>
          Ok {| bucket := bucket g; heap := heap g; next := next g;
                refs := refs g; methods := methods g;
                imports := {[o]} ∪ imports g |}
      | None => Ok g
      end
  | Ident use =>
      match use with
      | Some obj =>
          if isRecorded (Kind (Objs pass obj)) then addToBucket g obj else Ok g
      | None => Ok g
      end
  | SelectorExpr sel =>
      match sel with
      | Some obj => addToBucket g obj
      | None => Ok g
      end
  | FuncDecl def hasRecv name =>
      match def with
      | None => Panic "interface conversion: interface is nil, not *types.Func"
      | Some obj =>
          match Kind (Objs pass obj) with
          | KFunc recv =>
              let g := makeBucket g in
              g ← (if hasRecv then
                     match recv with
                     | None => Panic "invalid memory address or nil pointer dereference"
                     | Some recv =>
                         let recv := match recv with
                                     | TPointer elem => elem
                                     | _ => recv
                                     end in
                         match recv with
                         | TNamed name =>
                             Ok {| bucket := bucket g; heap := heap g;
                                   next := next g; refs := refs g;
                                   methods :=
                                     <[name := (default [] (methods g !! name)
                                                ++ [obj])%list]> (methods g);
                                   imports := imports g |}
                         | _ => Panic "interface conversion: types.Type is not *types.Named"
                         end
                     end
                   else if String.eqb name "init" then
                     Ok {| bucket := Some initBucket; heap := heap g;
                           next := next g; refs := refs g;
                           methods := methods g; imports := imports g |}
                   else Ok g);
              Ok (setRef g obj)
          | _ => Panic "interface conversion: types.Object is not *types.Func"
          end
      end
  | ValueSpec stackLen defs =>
      if Nat.eqb stackLen 3 then
        let g := makeBucket g in
        Ok (foldl (λ g def, match def with
                            | Some d => setRef g d
                            | None => g
                            end) g defs)
      else Ok g
  | TypeSpec stackLen def =>
      if Nat.eqb stackLen 3 then
        let g := makeBucket g in
        Ok (match def with
            | Some d => setRef g d
            | None => g
            end)
      else Ok g
  end.

Fixpoint visitAll (g : Graph) (ns : list Node) : result Graph :=
  match ns with
  | [] => Ok g
  | n :: ns' => g' ← visit g n; visitAll g' ns'
  end.

(** [sort.Slice(sortedRefs, func(i, j) { Id(i) < Id(j) })] applied to the
    keys in the order the runtime yielded them.  [sort.Slice] promises no
    order between objects of equal [Id]; the insertion sort keeps them in
    the order of the schedule, and as the schedule ranges over all orders,
    so do they. *)
Fixpoint insertById (x : ObjId) (l : list ObjId) : list ObjId :=
  match l with
  | [] => [x]
  | y :: l' =>
      if String.ltb (Id (Objs pass y)) (Id (Objs pass x))
      then y :: insertById x l'
      else x :: y :: l'
  end.

Definition sortById (l : list ObjId) : list ObjId :=
  foldr insertById [] l.

Definition bucketOf (g : Graph) (obj : ObjId) : option (gset ObjId) :=
  b ← refs g !! obj; Some (default ∅ (heap g !! b)).

Definition succs (g : Graph) (obj : ObjId) : list ObjId :=
  let res :=
    match bucketOf g obj with
    | Some refs => sortById (range_refs sched obj (elements refs))
    | None => []
    end in
  match Kind (Objs pass obj) with
  | KTypeName => (res ++ default [] (methods g !! obj))%list
  | _ => res
  end.

Fixpoint dbTypeFormat (t : GoType) : string :=
  match t with
  | TPointer elem => dbTypeFormat elem
  | TNamed obj => Name (Objs pass obj)
  | TOther typeString => typeString
  end.

Definition dbFuncName (name : string) (recv : option GoType) : string :=
  match recv with
  | None => name
  | Some t => dbTypeFormat t ++ "." ++ name
  end.

Definition affectedSymbols (pkg : string) (v : Osv.Entry) : list string :=
  flat_map (λ a,
    flat_map (λ p, if String.eqb (Osv.Path p) pkg then Osv.Symbols p else [])
             (Osv.Imports (Osv.EcoSpecific a)))
    (Osv.AffectedList v).

Definition isDirectlyVulnerable (o : ObjId) : list string :=
  match Kind (Objs pass o) with
  | KFunc recv =>
      match Pkg (Objs pass o) with
      | None => []
      | Some pkg =>
          let vulns := default [] (PkgToVulns catalog !! pkg) in
          if Nat.eqb (length vulns) 0 then []
          else
            let fnName := dbFuncName (Name (Objs pass o)) recv in
            flat_map (λ v,
              let syms := affectedSymbols pkg v in
              if Nat.eqb (length syms) 0 then [Osv.ID v]
              else flat_map (λ s, if String.eqb s fnName then [Osv.ID v] else [])
                            syms)
              vulns
      end
  | _ => []
  end.

(** [objectString0]: the qualified name. *)
Definition objectString0 (o : ObjId) : string :=
  let obj := Objs pass o in
  let qualified :=
    match Pkg obj with
    | Some p => p ++ "."
    | None => ""
    end in
  match Kind obj with
  | KPkgName declaredIn _ => declaredIn
  | KFunc recv => qualified ++ dbFuncName (Name obj) recv
  | _ => qualified ++ Name obj
  end.

(** [objectString], which [format] calls with the pass's file set. *)
Definition format (o : ObjId) : string :=
  objectString0 o ++ " " ++ Fset pass (Pos (Objs pass o)).

(** The path stored for a vulnerability reached through [o]. *)
Definition extend (o : string) (prev : list string) : list string :=
  match prev with
  | p0 :: _ => if String.eqb p0 o then prev else o :: prev
  | [] => [o]
  end.

(** [for vuln, prev := range from { path[vuln] = ... }] *)
Definition adopt (o : string) (from path : PathMap) : PathMap :=
  map_fold (λ vuln prev path, <[vuln := extend o prev]> path) path from.

Definition directPaths (obj : ObjId) (vulns : list string) : PathMap :=
  let o := [format obj] in
  foldl (λ path v,
           let objName := (Cut (format obj) " ").1.1 in
           let k := v ++ ":" ++ objName in
           <[k := o]> path) ∅ vulns.

Section FindPath.
Variable g : Graph.
(** The object facts [pass.ImportObjectFact] can see. *)
Variable facts : gmap ObjId PathMap.

(** The loop over [succs(obj)], given the recursive call. *)
Fixpoint overSuccs (rec : ObjId → gmap ObjId PathMap →
                          option (PathMap * gmap ObjId PathMap))
    (o : string) (l : list ObjId) (path : PathMap) (memo : gmap ObjId PathMap)
  : option (PathMap * gmap ObjId PathMap) :=
  match l with
  | [] => Some (path, memo)
  | succ :: l' =>
      match rec succ memo with
      | None => None
      | Some (path0, memo) =>
          let path := if Nat.ltb 0 (size path0) then adopt o path0 path
                      else path in
          overSuccs rec o l' path memo
      end
  end.

(** [findPath]; [None] only when [fuel] runs out.  In [memo] a grey node and
    a node without a path both hold [∅]. *)
Fixpoint findPath (fuel : nat) (obj : ObjId) (memo : gmap ObjId PathMap)
  : option (PathMap * gmap ObjId PathMap) :=
  match fuel with
  | 0 => None
  | S fuel =>
      match memo !! obj with
      | Some path => Some (path, memo)
      | None =>
          let memo := <[obj := ∅]> memo in
          let vulns := isDirectlyVulnerable obj in
          r ← (if Nat.ltb 0 (length vulns) then
                 Some (directPaths obj vulns, memo)
               else
                 match facts !! obj with
                 | Some fact => Some (adopt (format obj) fact ∅, memo)
                 | None =>
                     overSuccs (findPath fuel) (format obj) (succs g obj) ∅ memo
                 end);
          let '(path, memo) := r in
          let memo := if Nat.ltb 0 (size path) then <[obj := path]> memo
                      else memo in
          Some (path, memo)
      end
  end.

(** What the body of [findPath] computes for a node that is not in the
    memo table yet, before the final [memo[obj] = path]. *)
Definition firstVisit (fuel : nat) (obj : ObjId) (memo : gmap ObjId PathMap)
  : option (PathMap * gmap ObjId PathMap) :=
  if Nat.ltb 0 (length (isDirectlyVulnerable obj)) then
    Some (directPaths obj (isDirectlyVulnerable obj), <[obj := ∅]> memo)
  else
    match facts !! obj with
    | Some fact => Some (adopt (format obj) fact ∅, <[obj := ∅]> memo)
    | None =>
        overSuccs (findPath fuel) (format obj) (succs g obj) ∅
                  (<[obj := ∅]> memo)
    end.

(** A set [S] of objects that refer only to each other: no object of [S]
    is directly vulnerable or carries a fact, and the successors of an
    object of [S] are in [S]. *)
Definition quiet (S : gset ObjId) : Prop :=
  ∀ o, o ∈ S →
    isDirectlyVulnerable o = [] ∧ facts !! o = None
    ∧ ∀ s, s ∈ succs g o → s ∈ S.

End FindPath.

(** Every object with successors and every successor: the members, the
    types with methods, the contents of the buckets and the methods.  One more unit of fuel than there are such
    objects is enough for [findPath] (shown below). *)
Definition graphNodes (g : Graph) : gset ObjId :=
  dom (refs g) ∪ dom (methods g)
    ∪ ⋃ ((map_to_list (heap g)).*2)
    ∪ list_to_set (concat ((map_to_list (methods g)).*2)).

Definition enoughFuel (g : Graph) : nat := S (size (graphNodes g)).

Definition tab : string := String "009" "".

(** [pass.Report] for the path [p] of [vuln] found at [member]. *)
Definition diagnostic (member : ObjId) (vuln : string) (p : list string)
  : Diagnostic :=
  let id := (Cut vuln ":").1.1 in
  {| DPos := Pos (Objs pass member); DEnd := 0; Category := vuln;
     Message := id ++ "|" ++ Join p tab |}.

(** The body of the loop over [imports] for one imported package name:
    the diagnostics reported so far and [packageFactPath]. *)
Definition importStep (st : list Diagnostic * PathMap) (member : ObjId)
  : result (list Diagnostic * PathMap) :=
  match Kind (Objs pass member) with
  | KPkgName _ imported =>
      match PackageFacts pass !! imported with
      | Some fact =>
          Ok (map_fold (λ vuln p (st : list Diagnostic * PathMap),
                let p := format member :: p in
                let diags := (st.1 ++ [diagnostic member vuln p])%list in
                let keep :=
                  match st.2 !! vuln with
                  | Some existing => negb (Nat.ltb (length p) (length existing))
                  | None => false
                  end in
                (diags, if keep then st.2 else <[vuln := p]> st.2))
              st fact)
      | None => Ok st
      end
  | _ => Panic "interface conversion: types.Object is not *types.PkgName"
  end.

(** What the loop over the members carries from one member to the next. *)
Record LoopState := {
  memo : gmap ObjId PathMap;
  facts : gmap ObjId PathMap;           (* the driver's object facts *)
  diags : list Diagnostic;              (* reported, oldest first *)
  exported : list (ObjId * PathMap);    (* ExportObjectFact calls *)
  packageFactPath : PathMap;
}.

(** The body of the loop over the members, after [findPath] returned a
    non-empty [path].  The runtime chooses the order of the reports of one
    member; they are listed here in the order of the keys, and the
    statements below speak of membership only. *)
Definition memberFound (st : LoopState) (member : ObjId) (path : PathMap)
    (memo' : gmap ObjId PathMap) : LoopState :=
  let reports :=
    flat_map (λ vp : string * list string,
                if Nat.eqb (length vp.2) 0 then []
                else [diagnostic member vp.1 vp.2])
             (map_to_list path) in
  let isExported := Exported (Objs pass member) in
  {| memo := memo';
     facts := if isExported then <[member := path]> (facts st) else facts st;
     diags := (diags st ++ reports)%list;
     exported := if isExported then (exported st ++ [(member, path)])%list
                 else exported st;
     packageFactPath :=
       if String.eqb (Name (Objs pass member)) "init" then
         map_fold (λ vuln trace pfp,
                     match pfp !! vuln with
                     | Some _ => pfp
                     | None => <[vuln := trace]> pfp
                     end) (packageFactPath st) path
       else packageFactPath st |}.

Definition memberStep (g : Graph) (st : LoopState) (member : ObjId)
  : result LoopState :=
  match findPath g (facts st) (enoughFuel g) member (memo st) with
  | None => Panic "out of fuel"
  | Some (path, memo') =>
      if Nat.eqb (size path) 0 then
        Ok {| memo := memo'; facts := facts st; diags := diags st;
              exported := exported st;
              packageFactPath := packageFactPath st |}
      else Ok (memberFound st member path memo')
  end.

Fixpoint foldResult {A B} (f : A → B → result A) (a : A) (l : list B)
  : result A :=
  match l with
  | [] => Ok a
  | b :: l' => a' ← f a b; foldResult f a' l'
  end.

Record Output := {
  Diagnostics : list Diagnostic;
  ObjectFactsOut : list (ObjId * PathMap);
  PackageFactOut : option PathMap;
}.

Definition noOutput : Output :=
  {| Diagnostics := []; ObjectFactsOut := []; PackageFactOut := None |}.

Definition membersOf (g : Graph) : list ObjId :=
  range_members sched (elements (dom (refs g))).

Definition importsOf (g : Graph) : list ObjId :=
  range_imports sched (elements (imports g)).

Definition afterImports (g : Graph) : result LoopState :=
  st ← foldResult importStep ([], ∅) (importsOf g);
  Ok {| memo := ∅; facts := ObjectFacts pass; diags := st.1;
        exported := []; packageFactPath := st.2 |}.

(** The state at the end of the loop over the members. *)
Definition finalState (g : Graph) : result LoopState :=
  st ← afterImports g;
  foldResult (memberStep g) st (membersOf g).

(** [run] from the walk over the syntax to its return. *)
Definition analyze : result Output :=
  g ← visitAll emptyGraph (Nodes pass);
  st ← finalState g;
  Ok {| Diagnostics := diags st;
        ObjectFactsOut := exported st;
        PackageFactOut := if Nat.ltb 0 (size (packageFactPath st))
                          then Some (packageFactPath st) else None |}.

(** The state after the turn of the loop for a member whose path map is
    empty. *)
Definition memberSkipped (st : LoopState) (memo' : gmap ObjId PathMap)
  : LoopState :=
  {| memo := memo'; facts := facts st; diags := diags st;
     exported := exported st; packageFactPath := packageFactPath st |}.

(** [findPath(m)] returns [path] in the turn for [m] of the loop over the
    members [l] started in the state [st]. *)
Definition visited (g : Graph) (st : LoopState) (l : list ObjId) (m : ObjId)
    (path : PathMap) : Prop :=
  ∃ pre post st1 memo',
    l = (pre ++ m :: post)%list
    ∧ foldResult (memberStep g) st pre = Ok st1
    ∧ findPath g (facts st1) (enoughFuel g) m (memo st1) = Some (path, memo').

(** The result [path] of the call [findPath(member)] that the loop of
    [run] makes for the member [m]. *)
Definition foundAt (g : Graph) (m : ObjId) (path : PathMap) : Prop :=
  ∃ st0, afterImports g = Ok st0 ∧ visited g st0 (membersOf g) m path.

(** [k] is a key of the package fact of a package imported by one of [l]. *)
Definition importedKey (l : list ObjId) (k : string) : Prop :=
  ∃ i declaredIn imported fact,
    i ∈ l ∧ Kind (Objs pass i) = KPkgName declaredIn imported
    ∧ PackageFacts pass !! imported = Some fact ∧ k ∈ dom fact.

End WithPass.

(** The package-level variables: the flag, the catalog and [once]. *)
Record Globals := {
  vulnsJSONFile : string;
  catalog : Catalog;
  onceDone : bool;
}.

(** What opening [catalogFile] and decoding its JSON gives. *)
Inductive FileRead : Type :=
  | OpenFails (err : string)
  | DecodeFails (err : string)
  | Decodes (pkg2vulns : gmap string (list Osv.Entry)).

Section WithFiles.
Variable readJSON : string → FileRead.

Definition readFile (c : Catalog) (catalogFile : string) : Catalog :=
  match readJSON catalogFile with
  | OpenFails err => {| PkgToVulns := PkgToVulns c; CatErr := Some err |}
  | DecodeFails err => {| PkgToVulns := PkgToVulns c; CatErr := Some err |}
  | Decodes pkg2vulns => {| PkgToVulns := pkg2vulns; CatErr := None |}
  end.

Definition Refresh (gl : Globals) : Globals :=
  let c :=
    if negb (String.eqb (vulnsJSONFile gl) "")
    then readFile (catalog gl) (vulnsJSONFile gl)
    else {| PkgToVulns := PkgToVulns (catalog gl);
            CatErr := Some "catalog not initialized" |} in
  {| vulnsJSONFile := vulnsJSONFile gl; catalog := c; onceDone := onceDone gl |}.

(** [once.Do(catalog.Refresh)] *)
Definition onceDo (gl : Globals) : Globals :=
  if onceDone gl then gl
  else let gl := Refresh gl in
       {| vulnsJSONFile := vulnsJSONFile gl; catalog := catalog gl;
          onceDone := true |}.

Definition run (sched : Schedule) (gl : Globals) (pass : Pass)
  : result Output * Globals :=
  let gl := onceDo gl in
  match CatErr (catalog gl) with
  | Some err => (Err err, gl)
  | None =>
      if Nat.eqb (size (PkgToVulns (catalog gl))) 0 then (Ok noOutput, gl)
      else (analyze pass (catalog gl) sched, gl)
  end.

End WithFiles.

(** ** Vocabulary of the statements below *)

(** A run that does not return an error (it returns a result or panics). *)
Definition returnsNoError {A} (r : result A) : Prop := ∀ e, r ≠ Err e.

(** The key contains a colon. *)
Definition hasColon (k : string) : Prop := ":"%char ∈ list_ascii_of_string k.

(** Every key of [path] satisfies [K]. *)
Definition goodKeys (K : string → Prop) (path : PathMap) : Prop :=
  ∀ k, is_Some (path !! k) → K k.

(** Every key of [path] satisfies [K] and every path is non-empty. *)
Definition goodPaths (K : string → Prop) (path : PathMap) : Prop :=
  ∀ k p, path !! k = Some p → K k ∧ p ≠ [].

Definition keyTable (K : string → Prop) (m : gmap ObjId PathMap) : Prop :=
  ∀ o path, m !! o = Some path → goodKeys K path.

Definition goodTable (K : string → Prop) (m : gmap ObjId PathMap) : Prop :=
  ∀ o path, m !! o = Some path → goodPaths K path.

Definition goodState (K : string → Prop) (st : LoopState) : Prop :=
  keyTable K (facts st) ∧ goodTable K (memo st).

(** The memo table holds no path for an object of [S]. *)
Definition silentOn (S : gset ObjId) (memo : gmap ObjId PathMap) : Prop :=
  ∀ o p, o ∈ S → memo !! o = Some p → p = ∅.

End Analysis.

(** ** The specification's words, for comparison with the code *)

Module Spec.

(** The first segment of a path: the bytes before the first slash. *)
Fixpoint firstSegment (s : string) : string :=
  match s with
  | "" => ""
  | String a s' => if Ascii.eqb a "/" then "" else String a (firstSegment s')
  end.

(** A standard-library path: a non-empty path whose first segment contains
    no dot. *)
Definition stdlibPath (name : string) : Prop :=
  name ≠ "" ∧ "."%char ∉ list_ascii_of_string (firstSegment name).

(** A number: one or more decimal digits. *)
Fixpoint allDigits (s : string) : bool :=
  match s with
  | "" => true
  | String a s' => Regexp.is_digit a && allDigits s'
  end.

Definition number (s : string) : Prop := s ≠ "" ∧ allDigits s = true.

(** [.<patch>], or nothing. *)
Definition optionalPatch (s : string) : Prop :=
  s = "" ∨ ∃ n, number n ∧ s = "." ++ n.

(** [<pre>]: one of [beta<n>], [rc<n>], [-pre<n>], or nothing. *)
Definition optionalPre (s : string) : Prop :=
  s = "" ∨ ∃ kind n, (kind = "beta" ∨ kind = "rc" ∨ kind = "-pre")
                     ∧ number n ∧ s = kind ++ n.

(** A toolchain release tag: [go<major>.<minor>[.<patch>][<pre>]]. *)
Definition goTag (s : string) : Prop :=
  ∃ major minor patch pre,
    number major ∧ number minor ∧ optionalPatch patch ∧ optionalPre pre
    ∧ s = "go" ++ major ++ "." ++ minor ++ patch ++ pre.

(** The strings a regular expression stands for. *)
Fixpoint matches (r : Regexp.re) (s : string) : Prop :=
  match r with
  | Regexp.Eps => s = ""
  | Regexp.Chars lit => s = lit
  | Regexp.Digits1 => number s
  | Regexp.Seq r1 r2 => ∃ s1 s2, s = s1 ++ s2 ∧ matches r1 s1 ∧ matches r2 s2
  | Regexp.Alt r1 r2 => matches r1 s ∨ matches r2 s
  | Regexp.Cap _ r => matches r s
  end.

(** Rules 2 to 4 of the catalog filter, on an Affected record. *)
Definition selected (module : Packages.Module) (a : Osv.Affected) : Prop :=
  Osv.Ecosystem (Osv.Pkg a) = "Go"
  ∧ (Packages.Path module ≠ "stdlib" →
       ∃ rest, Osv.Name (Osv.Pkg a) = Packages.Path module ++ rest)
  ∧ (Packages.Path module = "stdlib" → stdlibPath (Osv.Name (Osv.Pkg a))).

End Spec.

(** ** Concrete inputs: the packages and the catalog of the test of the
       repository, and variations of them. *)

Module Examples.
Import Types Analysis.

(** The entry GO02 of the test: b.com/m before 1.1.0, package
    b.com/m/vuln, symbol Vuln; here it also lists Default, a variable. *)
Definition vulnImport : Osv.EcosystemSpecificImport :=
  {| Osv.Path := "b.com/m/vuln"; Osv.GOOS := []; Osv.GOARCH := [];
     Osv.Symbols := ["Vuln"; "Default"] |}.

Definition goAffected : Osv.Affected :=
  {| Osv.Pkg := {| Osv.Name := "b.com/m"; Osv.Ecosystem := "Go" |};
     Osv.Ranges := [ {| Osv.RangeType := "SEMVER";
                        Osv.Events := [ {| Osv.Introduced := "0";
                                           Osv.Fixed := "1.1.0" |} ] |} ];
     Osv.DatabaseSpecificURL := "https://pkg.go.dev/vuln/GO02";
     Osv.EcoSpecific := {| Osv.Imports := [vulnImport] |} |}.

(** The same record filed under another ecosystem. *)
Definition otherAffected : Osv.Affected :=
  {| Osv.Pkg := {| Osv.Name := "b.com/m"; Osv.Ecosystem := "npm" |};
     Osv.Ranges := Osv.Ranges goAffected;
     Osv.DatabaseSpecificURL := "";
     Osv.EcoSpecific := {| Osv.Imports := [vulnImport] |} |}.

Definition entryGO02 : Osv.Entry :=
  {| Osv.ID := "GO02"; Osv.Published := "2021-04-14T20:04:52Z";
     Osv.Modified := ""; Osv.Aliases := [];
     Osv.Details := "Something" ++ String "010" "";
     Osv.AffectedList := [goAffected; otherAffected];
     Osv.References := [] |}.

(** GO02 as the catalog filter leaves it for b.com/m. *)
Definition entryGO02Selected : Osv.Entry :=
  {| Osv.ID := "GO02"; Osv.Published := "2021-04-14T20:04:52Z";
     Osv.Modified := ""; Osv.Aliases := [];
     Osv.Details := "Something" ++ String "010" "";
     Osv.AffectedList := [goAffected];
     Osv.References := [] |}.

Definition moduleB : Packages.Module :=
  {| Packages.Path := "b.com/m"; Packages.Version := "v1.0.1";
     Packages.Replace := None |}.

(** b.com/m replaced by a local directory: the version is unknown. *)
Definition moduleBLocal : Packages.Module :=
  {| Packages.Path := "b.com/m"; Packages.Version := "v1.0.1";
     Packages.Replace :=
       Some {| Packages.Path := "../m"; Packages.Version := "";
               Packages.Replace := None |} |}.

(** A stand-in for [Affects.AffectsSemver]: every version is in range. *)
Definition alwaysAffected (_ : Osv.Affects) (_ : string) : bool := true.

Definition catalogGO02 : Catalog :=
  {| PkgToVulns := {[ "b.com/m/vuln" := [entryGO02] ]}; CatErr := None |}.

(** Package x imports b.com/m/vuln and declares [func A() { B() }] and
    [func B() { A(); vuln.Vuln() }].  The objects: 1 and 2 are [A] and [B],
    3 and 4 are the function [Vuln] and the variable [Default] of
    b.com/m/vuln, the others are the package name [vuln] in x. *)
Definition function (name pkg : string) (pos : nat) : Object :=
  {| Kind := KFunc None; Name := name; PkgField := Some pkg; Pos := pos;
     Exported := true |}.

Definition objectsX (o : ObjId) : Object :=
  match o with
  | 1%positive => function "A" "x" 10
  | 2%positive => function "B" "x" 20
  | 3%positive => function "Vuln" "b.com/m/vuln" 5
  | 4%positive => {| Kind := KVar; Name := "Default";
                     PkgField := Some "b.com/m/vuln"; Pos := 7;
                     Exported := true |}
  | _ => {| Kind := KPkgName "x" "b.com/m/vuln"; Name := "vuln";
            PkgField := Some "x"; Pos := 2; Exported := false |}
  end.

Definition positionsX (p : nat) : string :=
  match p with
  | 2 => "x.go:2:8"
  | 10 => "x.go:3:6"
  | 20 => "x.go:4:6"
  | 7 => "vuln.go:3:5"
  | _ => "vuln.go:2:6"
  end.

(** The fact that the analysis of b.com/m/vuln exports for [Vuln]. *)
Definition factVuln : PathMap :=
  {[ "GO02:b.com/m/vuln.Vuln" := ["b.com/m/vuln.Vuln vuln.go:2:6"] ]}.

Definition passX : Pass :=
  {| Objs := objectsX; Fset := positionsX;
     Nodes := [ Ident None; ImportSpec (Some 5%positive) None;
                FuncDecl (Some 1%positive) false "A"; Ident None;
                Ident (Some 2%positive);
                FuncDecl (Some 2%positive) false "B"; Ident None;
                Ident (Some 1%positive);
                SelectorExpr None; Ident (Some 5%positive);
                Ident (Some 3%positive) ];
     ObjectFacts := {[ 3%positive := factVuln ]}; PackageFacts := ∅ |}.

(** Package x without the import: [A] and [B] call each other. *)
Definition passCycle : Pass :=
  {| Objs := objectsX; Fset := positionsX;
     Nodes := [ Ident None;
                FuncDecl (Some 1%positive) false "A"; Ident None;
                Ident (Some 2%positive);
                FuncDecl (Some 2%positive) false "B"; Ident None;
                Ident (Some 1%positive) ];
     ObjectFacts := ∅; PackageFacts := ∅ |}.

(** Two orders in which the runtime may yield the members. *)
Definition asStored : Schedule :=
  {| range_imports := λ l, l; range_members := λ l, l;
     range_refs := λ _ l, l |}.

Definition reversed : Schedule :=
  {| range_imports := λ l, l; range_members := @rev ObjId;
     range_refs := λ _ l, l |}.

Definition graphOf (pass : Pass) : Graph :=
  match visitAll pass emptyGraph (Nodes pass) with
  | Ok g => g
  | _ => emptyGraph
  end.

Definition outputOf (pass : Pass) (catalog : Catalog) (sched : Schedule)
  : Output :=
  match analyze pass catalog sched with
  | Ok out => out
  | _ => noOutput
  end.

(** The catalog file of the flag, holding GO02, and an empty one. *)
Definition filesGO02 (_ : string) : FileRead :=
  Decodes {[ "b.com/m/vuln" := [entryGO02] ]}.

Definition filesEmpty (_ : string) : FileRead := Decodes ∅.

Definition freshGlobals : Globals :=
  {| vulnsJSONFile := "vulns.json";
     catalog := {| PkgToVulns := ∅; CatErr := None |};
     onceDone := false |}.

End Examples.

(** ** More of strings: [Split], [Count] and [LastIndex] *)

Module Splitting.
Import GoStrings.

(** The first field and the other fields of [s] cut at every byte [sep]. *)
Fixpoint splitByte (s : string) (sep : ascii) : string * list string :=
  match s with
  | "" => ("", [])
  | String a s' =>
      let '(x, l) := splitByte s' sep in
      if Ascii.eqb a sep then ("", x :: l) else (String a x, l)
  end.

(** [strings.Split(s, sep)] for a one-byte [sep]. *)
Definition Split (s : string) (sep : ascii) : list string :=
  let '(x, l) := splitByte s sep in x :: l.

(** [strings.Count(s, sep)] for a one-byte [sep]. *)
Fixpoint Count (s : string) (sep : ascii) : nat :=
  match s with
  | "" => 0
  | String a s' => (if Ascii.eqb a sep then 1 else 0) + Count s' sep
  end.

(** [strings.LastIndex(s, sep)] for a one-byte [sep]; [None] is Go's -1. *)
Fixpoint LastIndex (s : string) (sep : ascii) : option nat :=
  match s with
  | "" => None
  | String a s' =>
      match LastIndex s' sep with
      | Some i => Some (S i)
      | None => if Ascii.eqb a sep then Some 0 else None
      end
  end.

End Splitting.

(** ** internal/osvutil: the environment *)

Module OsvutilEnv.
Import GoStrings Splitting Osvutil.

(** The environment of the process: the variables that are set. *)
Abbreviation Environ := (gmap string string).

(** [os.Getenv]: the empty string for a variable that is not set. *)
Definition Getenv (env : Environ) (key : string) : string :=
  default "" (env !! key).

Definition lookupEnv (env : Environ) (key defaultValue : string) : string :=
  match env !! key with
  | Some v => v
  | None => defaultValue
  end.

(** [FindGOVULNDB(cfg)]; [cfgEnv] is [cfg.Env]. *)
Definition FindGOVULNDB (cfgEnv : list string) (env : Environ) : list string :=
  match List.find (λ kv, HasPrefix kv "GOVULNDB=") cfgEnv with
  | Some kv => Split (drop (String.length "GOVULNDB=") kv) ","
  | None =>
      let GOVULNDB := Getenv env "GOVULNDB" in
      if negb (String.eqb GOVULNDB "") then Split GOVULNDB ","
      else ["https://vuln.go.dev"]
  end.

(** [goVersion()]; [out] and [err] are what
    [exec.Command("go", "env", "GOVERSION").Output()] returns.  The message
    written to the standard error stream is left out. *)
Definition goVersion (env : Environ) (out : string) (err : option string)
  : string :=
  let v := Getenv env "GOVERSION" in
  if negb (String.eqb v "") then v
  else match err with
       | Some _ => ""
       | None => TrimSpace out
       end.

End OsvutilEnv.

(** ** quickcheck: the summary of [Analyze] *)

Module Quickcheck.
Import GoStrings Splitting Analysis.

(** The key of the summary, [Key{ID, Symbol, PackagePath, ModulePath}]. *)
Record Key := {
  KeyID : string;
  Symbol : string;
  PackagePath : string;
  ModulePath : string;
}.

#[global] Instance Key_eq_dec : EqDecision Key.
Proof. solve_decision. Defined.

#[global] Instance Key_countable : Countable Key :=
  inj_countable'
    (λ k, (KeyID k, Symbol k, PackagePath k, ModulePath k))
    (λ t, {| KeyID := t.1.1.1; Symbol := t.1.1.2;
             PackagePath := t.1.2; ModulePath := t.2 |})
    (λ k, match k with Build_Key _ _ _ _ => eq_refl end).

(** [int64] addition. *)
Definition wrap64 (z : Z) : Z := ((z + 2 ^ 63) `mod` 2 ^ 64 - 2 ^ 63)%Z.

Record Value := {
  Trace : list string;
  Count : Z;                 (* int64 *)
}.

Definition parseObjectNameStr (unquotedName : string) : string * string :=
  match LastIndex unquotedName "/" with
  | None => ("", unquotedName)
  | Some lastSlash =>
      let before := take lastSlash unquotedName in
      let after := drop lastSlash unquotedName in
      let '(beforeDot, afterDot, found) := Cut after "." in
      if negb found then ("", unquotedName)
      else (before ++ beforeDot, afterDot)
  end.

(** The key [Analyze] files the diagnostic [d] under.  The panic message
    of the source goes on with the diagnostic printed by [%+v]. *)
Definition keyOf (pkg2vulns : gmap string (list Osv.Entry)) (d : Diagnostic)
  : result Key :=
  let '(id, objname, found) := Cut (Category d) ":" in
  if negb found then Panic "invalid diagnostics category obeserved: "
  else
    let '(pkgpath, name) := parseObjectNameStr objname in
    modpath ←
      match default [] (pkg2vulns !! pkgpath) with
      | [] => Ok ""
      | v :: _ =>
          match Osv.AffectedList v with
          | [] => Panic "index out of range [0] with length 0"
          | a :: _ => Ok (Osv.Name (Osv.Pkg a))
          end
      end;
    Ok {| KeyID := id; ModulePath := modpath; PackagePath := pkgpath;
          Symbol := name |}.

(** The body of the loop of [Analyze] over the diagnostics. *)
Definition summaryStep (pkg2vulns : gmap string (list Osv.Entry))
    (summary : gmap Key Value) (d : Diagnostic) : result (gmap Key Value) :=
  key ← keyOf pkg2vulns d;
  let value :=
    match summary !! key with
    | None => {| Trace := Split (Message d) "009"; Count := 1 |}
    | Some value =>
        let count := wrap64 (Count value + 1) in
        if Nat.ltb (Splitting.Count (Message d) "009") (length (Trace value))
        then {| Trace := Split (Message d) "009"; Count := count |}
        else {| Trace := Trace value; Count := count |}
    end in
  Ok (<[key := value]> summary).

(** The summary [Analyze] returns for the diagnostics of the results of
    [checker.Analyze]. *)
Definition summarize (pkg2vulns : gmap string (list Osv.Entry))
    (results : list (list Diagnostic)) : result (gmap Key Value) :=
  foldResult (summaryStep pkg2vulns) ∅ (concat results).

#[export] Instance result_eq_dec {A} `{EqDecision A} : EqDecision (result A).
Proof. solve_decision. Defined.

(** The key of a diagnostic, when [keyOf] returns one. *)
Definition keyOr (pkg2vulns : gmap string (list Osv.Entry)) (d : Diagnostic)
  : Key :=
  match keyOf pkg2vulns d with
  | Ok k => k
  | _ => {| KeyID := ""; Symbol := ""; PackagePath := ""; ModulePath := "" |}
  end.

(** The value that the loop stores for the first diagnostic of a key, and
    the one it stores for a later diagnostic. *)
Definition first (d : Diagnostic) : Value :=
  {| Trace := Split (Message d) "009"; Count := 1 |}.

Definition next (value : Value) (d : Diagnostic) : Value :=
  let count := wrap64 (Count value + 1) in
  if Nat.ltb (Splitting.Count (Message d) "009") (length (Trace value))
  then {| Trace := Split (Message d) "009"; Count := count |}
  else {| Trace := Trace value; Count := count |}.

End Quickcheck.

(** ** cmd/vulns: the summary of [main] *)

Module Vulns.
Import GoStrings Splitting Analysis.

(** [Key{Category, Root}] *)
Abbreviation Key := (string * string)%type.

Record Value := {
  Trace : list string;
  Count : Z;                 (* int *)
}.

Definition keyOf (d : Diagnostic) : Key :=
  let entries := Split (Message d) "009" in
  let root := if Nat.ltb 0 (length entries) then List.last entries "" else "" in
  (Category d, root).

Section WithInt.
(** The size of [int] in bits: 32 or 64. *)
Variable intBits : Z.

(** [int] addition. *)
Definition wrapInt (z : Z) : Z :=
  ((z + 2 ^ (intBits - 1)) `mod` 2 ^ intBits - 2 ^ (intBits - 1))%Z.

(** The body of the loop of [main] over the diagnostics. *)
Definition summaryStep (summary : gmap Key Value) (d : Diagnostic)
  : gmap Key Value :=
  let entries := Split (Message d) "009" in
  let key := keyOf d in
  let value :=
    match summary !! key with
    | None => {| Trace := entries; Count := 1 |}
    | Some value =>
        let count := wrapInt (Count value + 1) in
        if Nat.ltb (length entries) (length (Trace value))
        then {| Trace := entries; Count := count |}
        else {| Trace := Trace value; Count := count |}
    end in
  <[key := value]> summary.

Definition summarize (results : list (list Diagnostic)) : gmap Key Value :=
  foldl summaryStep ∅ (concat results).

(** The value that the loop stores for the first diagnostic of a key, and
    the one it stores for a later diagnostic. *)
Definition first (d : Diagnostic) : Value :=
  {| Trace := Split (Message d) "009"; Count := 1 |}.

Definition next (value : Value) (d : Diagnostic) : Value :=
  let count := wrapInt (Count value + 1) in
  if Nat.ltb (length (Split (Message d) "009")) (length (Trace value))
  then {| Trace := Split (Message d) "009"; Count := count |}
  else {| Trace := Trace value; Count := count |}.

End WithInt.
End Vulns.

(** ** Grouping folds *)

(** The shape of the two summary loops: a fold that files each element under
    its key, starting the value of a key with [init] and updating it with
    [upd]. *)
Module Grouping.
Section WithKey.
Context {K : Type} `{Countable K} {V D : Type}.
Variable key : D → K.
Variable init : D → V.
Variable upd : V → D → V.

Definition groupStep (m : gmap K V) (d : D) : gmap K V :=
  <[key d := match m !! key d with
             | None => init d
             | Some v => upd v d
             end]> m.

Definition ofGroup (l : list D) : option V :=
  match l with
  | [] => None
  | d :: l' => Some (foldl upd (init d) l')
  end.

Definition group (k : K) (l : list D) : list D :=
  List.filter (λ d, bool_decide (key d = k)) l.

End WithKey.
End Grouping.

(** ** analysis: what the statements about paths and orders speak of *)

Module Paths.
Import GoStrings Types Analysis.

(** Every path of [path] starts with [o]. *)
Definition headedBy (o : string) (path : PathMap) : Prop :=
  ∀ k p, path !! k = Some p → head p = Some o.

(** The paths of every object in the table start with the object. *)
Definition headedTable (pass : Pass) (m : gmap ObjId PathMap) : Prop :=
  ∀ o path, m !! o = Some path → headedBy (format pass o) path.

End Paths.

Module ImportedPaths.
Import GoStrings Types Analysis.

(** [q] is the path that the package fact of the import [i] gives the
    vulnerability [k]: the import, then the path of the fact. *)
Definition importedPath (pass : Pass) (i : ObjId) (k : string)
    (q : list string) : Prop :=
  ∃ declaredIn imported fact p,
    Kind (Objs pass i) = KPkgName declaredIn imported
    ∧ PackageFacts pass !! imported = Some fact
    ∧ fact !! k = Some p ∧ q = format pass i :: p.

End ImportedPaths.

Module ById.
Import GoStrings Types Analysis.

(** The order of [sort.Slice] in [succs]: by [Id]. *)
Definition byId (pass : Pass) (a b : ObjId) : Prop :=
  String.leb (Id (Objs pass a)) (Id (Objs pass b)) = true.

End ById.

(** ** analysis: [exportedSymbols] *)

Module Symbols.
Import GoStrings Splitting.

Section WithToken.
(** [token.IsExported] of go/token. *)
Variable IsExported : string → bool.

(** The body of the loop of [exportedSymbols] for the symbol [s]. *)
Definition allPartsExported (s : string) : bool :=
  foldl (λ exported part, if negb (IsExported part) then false else exported)
        true (Split s ".").

Definition exportedSymbols (input : list string) : list string :=
  foldl (λ out s, if allPartsExported s then (out ++ [s])%list else out)
        [] input.

End WithToken.
End Symbols.

(** ** internal/osvutil: [walk], [extractModules] and [FetchOSVEntries] *)

Module Fetch.
Import GoStrings Splitting Osvutil OsvutilEnv Analysis.

(** A [*packages.Package] pointer.  The heap holds the packages that
    [packages.Load] built; a pointer without a package in the heap is nil. *)
Abbreviation PkgPtr := positive.

(** The fields of a [packages.Package] that are read: [Imports] maps the
    import paths of the source files to the imported packages. *)
Record Loaded := {
  Pkg : Packages.Package;
  Imports : gmap string PkgPtr;
}.

(** What a callback that returns an error leaves: the state of the
    variables it closes over, with the error if there is one, or a panic. *)
Inductive outcome (A : Type) : Type :=
  | Done (a : A)
  | Failed (a : A) (e : string)
  | Panicked (msg : string).
Arguments Done {A} a.
Arguments Failed {A} a e.
Arguments Panicked {A} msg.

(** A loop that stops at the first iteration that does not end normally. *)
Fixpoint overPkgs {A} (rec : PkgPtr → A → option (outcome A))
    (l : list PkgPtr) (a : A) : option (outcome A) :=
  match l with
  | [] => Some (Done a)
  | pkg :: l' =>
      match rec pkg a with
      | Some (Done a') => overPkgs rec l' a'
      | r => r
      end
  end.

Section WithHeap.
Variable heap : gmap PkgPtr Loaded.
(** The order in which the runtime yields the values of [pkg.Imports]. *)
Variable rangeImports : PkgPtr → list PkgPtr → list PkgPtr.

Definition importsOf (pkg : PkgPtr) (node : Loaded) : list PkgPtr :=
  rangeImports pkg (map_to_list (Imports node)).*2.

(** One more unit of fuel than there are packages is enough for the
    traversals below (shown further down). *)
Definition enoughFuel : nat := S (size heap).

Section Walk.
Context {S : Type}.
(** [fn], with the variables it closes over as its state. *)
Variable fn : PkgPtr → Loaded → S → outcome S.

(** The closure [visit] of [walk]; the state is [seen] and the state of
    [fn].  [None] only when [fuel] runs out. *)
Fixpoint visit (fuel : nat) (pkg : PkgPtr) (st : gset PkgPtr * S)
  : option (outcome (gset PkgPtr * S)) :=
  match fuel with
  | 0 => None
  | Datatypes.S fuel =>
      match heap !! pkg with
      | None => Some (Done st)
      | Some node =>
          if bool_decide (pkg ∈ st.1) then Some (Done st)
          else
            match fn pkg node st.2 with
            | Panicked msg => Some (Panicked msg)
            | Failed s e => Some (Failed (st.1, s) e)
            | Done s =>
                overPkgs (visit fuel) (importsOf pkg node) ({[pkg]} ∪ st.1, s)
            end
      end
  end.

Definition walk (pkgs : list PkgPtr) (s : S) : option (outcome S) :=
  match overPkgs (visit enoughFuel) pkgs (∅, s) with
  | Some (Done st) => Some (Done st.2)
  | Some (Failed st e) => Some (Failed st.2 e)
  | Some (Panicked msg) => Some (Panicked msg)
  | None => None
  end.

(** The calls of [fn] for the packages of [order], one after the other,
    up to the first that does not end normally. *)
Fixpoint calls (order : list PkgPtr) (s : S) : outcome S :=
  match order with
  | [] => Done s
  | pkg :: order' =>
      match heap !! pkg with
      | None => calls order' s
      | Some node =>
          match fn pkg node s with
          | Done s' => calls order' s'
          | r => r
          end
      end
  end.

End Walk.

(** [pkg] imports [imp]. *)
Definition imports (pkg imp : PkgPtr) : Prop :=
  ∃ node name, heap !! pkg = Some node ∧ Imports node !! name = Some imp.

(** The packages that [pkgs] reach through their imports. *)
Definition reachable (pkgs : list PkgPtr) (pkg : PkgPtr) : Prop :=
  is_Some (heap !! pkg) ∧ ∃ root, root ∈ pkgs ∧ rtc imports root pkg.

(** [modMap[...] = pkg.Module] in [extract]. *)
Definition recordModule (node : Loaded)
    (modMap : gmap string Packages.Module) : gmap string Packages.Module :=
  match Packages.PkgModule (Pkg node) with
  | Some m =>
      match Packages.Replace m with
      | Some r => <[modKey r := m]> modMap
      | None => <[modKey m := m]> modMap
      end
  | None => modMap
  end.

Fixpoint overImports {A} (rec : PkgPtr → A → option A) (l : list PkgPtr) (a : A)
  : option A :=
  match l with
  | [] => Some a
  | pkg :: l' => a' ← rec pkg a; overImports rec l' a'
  end.

(** The closure [extract] of [extractModules]; the state is [seen] and
    [modMap]. *)
Fixpoint extract (fuel : nat) (pkg : PkgPtr)
    (st : gset PkgPtr * gmap string Packages.Module)
  : option (gset PkgPtr * gmap string Packages.Module) :=
  match fuel with
  | 0 => None
  | Datatypes.S fuel =>
      match heap !! pkg with
      | None => Some st
      | Some node =>
          if bool_decide (pkg ∈ st.1) then Some st
          else
            let modMap := recordModule node st.2 in
            overImports (extract fuel) (importsOf pkg node)
                        ({[pkg]} ∪ st.1, modMap)
      end
  end.

(** The order in which the runtime yields the values of [modMap]. *)
Variable rangeModules : list Packages.Module → list Packages.Module.

(** [tag] is [goVersion()]. *)
Definition extractModules (tag : string) (pkgs : list PkgPtr)
  : result (list Packages.Module) :=
  version ← GoTagToSemver tag;
  let stdlibModule :=
    {| Packages.Path := "stdlib"; Packages.Version := version;
       Packages.Replace := None |} in
  let modMap : gmap string Packages.Module := {[ "stdlib" := stdlibModule ]} in
  match overImports (extract enoughFuel) pkgs (∅, modMap) with
  | None => Panic "out of fuel"
  | Some st => Ok (rangeModules (map_to_list st.2).*2)
  end.

Section WithClient.
Variable env : Environ.
(** [runtime.GOOS] and [runtime.GOARCH]. *)
Variable runtimeGOOS runtimeGOARCH : string.
Variable AffectsSemver : Osv.Affects → string → bool.
Variable CheckPath : string → bool.
Variable GetByModule : string → result (list Osv.Entry).

Definition goos : string := lookupEnv env "GOOS" runtimeGOOS.
Definition goarch : string := lookupEnv env "GOARCH" runtimeGOARCH.

(** The function literal that [FetchOSVEntries] hands to [walk]; its state
    is [pkg2OSV]. *)
Definition collect (stdlibModule : Packages.Module)
    (mod2OSV : gmap string (list Osv.Entry)) (_ : PkgPtr) (node : Loaded)
    (pkg2OSV : gmap string (list Osv.Entry))
  : outcome (gmap string (list Osv.Entry)) :=
  match packageVulns stdlibModule mod2OSV (Pkg node) with
  | Ok vulns =>
      Done (if Nat.ltb 0 (length vulns)
            then <[Packages.PkgPath (Pkg node) := vulns]> pkg2OSV
            else pkg2OSV)
  | Err e => Failed pkg2OSV e
  | Panic msg => Panicked msg
  end.

(** [FetchOSVEntries(ctx, cli, pkgs)]; [tag] is what the two calls of
    [goVersion()] return. *)
Definition FetchOSVEntries (tag : string) (pkgs : list PkgPtr)
  : result (gmap string (list Osv.Entry)) :=
  modules ← extractModules tag pkgs;
  version ← GoTagToSemver tag;
  let stdlibModule :=
    {| Packages.Path := "stdlib"; Packages.Version := version;
       Packages.Replace := None |} in
  let modules := (modules ++ [stdlibModule])%list in
  mod2OSV ← foldResult
              (fetchModule goos goarch AffectsSemver CheckPath GetByModule)
              ∅ modules;
  match walk (collect stdlibModule mod2OSV) pkgs ∅ with
  | None => Panic "out of fuel"
  | Some (Done pkg2OSV) => Ok pkg2OSV
  | Some (Failed pkg2OSV _) => Ok pkg2OSV
  | Some (Panicked msg) => Panic msg
  end.

End WithClient.
End WithHeap.
End Fetch.

(** ** What a traversal has done *)

Module Traversal.
Import Fetch.
Section WithHeap.
Variable heap : gmap PkgPtr Loaded.
Context {S : Type}.
Variable fn : PkgPtr → Loaded → S → outcome S.

(** What a traversal from [roots] that started with [seen] and [s] has done
    when it leaves [r]: it has called [fn] for the packages of [order]. *)
Definition traversed (roots : list PkgPtr) (seen : gset PkgPtr) (s : S)
    (r : outcome (gset PkgPtr * S)) (order : list PkgPtr) : Prop :=
  NoDup order
  ∧ (∀ p, p ∈ order →
       (p ∉ seen) ∧ is_Some (heap !! p)
       ∧ ∃ root, root ∈ roots ∧ rtc (imports heap) root p)
  ∧ match r with
    | Done st' =>
        st'.1 = list_to_set order ∪ seen ∧ calls heap fn order s = Done st'.2
    | Failed st' e => calls heap fn order s = Failed st'.2 e
    | Panicked msg => calls heap fn order s = Panicked msg
    end.

End WithHeap.

(** The imports of the seen packages are seen, but for the packages of
    [grey], whose imports are being visited. *)
Definition closedBut (heap : gmap PkgPtr Loaded) (seen grey : gset PkgPtr)
  : Prop :=
  ∀ p q, p ∈ seen → p ∉ grey → imports heap p q → is_Some (heap !! q) →
         q ∈ seen.

End Traversal.

(** ** The modules and the entries of a build *)

Module FetchModules.
Import GoStrings Osvutil Fetch.

(** The key under which [extract] files the module of a package. *)
Definition extractKey (m : Packages.Module) : string :=
  match Packages.Replace m with
  | Some r => modKey r
  | None => modKey m
  end.

(** The module [stdlib] of the toolchain of version [version]. *)
Definition stdlib (version : string) : Packages.Module :=
  {| Packages.Path := "stdlib"; Packages.Version := version;
     Packages.Replace := None |}.

(** [m] is the module of a package that [pkgs] reach. *)
Definition moduleOf (heap : gmap PkgPtr Loaded) (pkgs : list PkgPtr)
    (m : Packages.Module) : Prop :=
  ∃ p node, reachable heap pkgs p ∧ heap !! p = Some node
            ∧ Packages.PkgModule (Pkg node) = Some m.

End FetchModules.

Module FetchEntries.
Import GoStrings Osvutil Fetch.

(** An entry as the filter and the normalisation leave it: with Affected
    records, all of ecosystem Go and with imports of the platform only, and
    details without line feed. *)
Definition selectedEntry (goos goarch : string) (v : Osv.Entry) : Prop :=
  Osv.AffectedList v ≠ []
  ∧ (∀ a, a ∈ Osv.AffectedList v →
       Osv.Ecosystem (Osv.Pkg a) = Osv.GoEcosystem
       ∧ ∀ imp, imp ∈ Osv.Imports (Osv.EcoSpecific a) →
                matchesPlatform goos goarch imp = true)
  ∧ "010"%char ∉ list_ascii_of_string (Osv.Details v).

(** An Affected record of [v] lists the package [p] among its imports. *)
Definition listsPackage (p : string) (v : Osv.Entry) : Prop :=
  ∃ a imp, a ∈ Osv.AffectedList v ∧ imp ∈ Osv.Imports (Osv.EcoSpecific a)
           ∧ Osv.Path imp = p.

(** A package without module whose path is not a standard-library path. *)
Definition orphan (node : Loaded) : Prop :=
  Packages.PkgModule (Pkg node) = None
  ∧ isStdPackage (Packages.PkgPath (Pkg node)) = false.

(** The entries of the module index are selected entries, in lists that
    are not empty. *)
Definition selectedIndex (goos goarch : string)
    (mod2OSV : gmap string (list Osv.Entry)) : Prop :=
  ∀ k vs, mod2OSV !! k = Some vs →
          vs ≠ [] ∧ ∀ v, v ∈ vs → selectedEntry goos goarch v.

(** The entries of [pkg2OSV] are selected entries that list the package
    they are filed under, a package that [pkgs] reach. *)
Definition selectedPackages (heap : gmap PkgPtr Loaded) (goos goarch : string)
    (pkgs : list PkgPtr) (pkg2OSV : gmap string (list Osv.Entry)) : Prop :=
  ∀ p vs, pkg2OSV !! p = Some vs →
    vs ≠ []
    ∧ (∃ pkg node, reachable heap pkgs pkg ∧ heap !! pkg = Some node
                   ∧ Packages.PkgPath (Pkg node) = p)
    ∧ ∀ v, v ∈ vs → selectedEntry goos goarch v ∧ listsPackage p v.

End FetchEntries.

(** ** Where the entries of the path maps come from *)

Module Provenance.
Import GoStrings Types Analysis.

(** [objName] in [findPath]: the text of [format(obj)] before its first
    space. *)
Definition symbolOf (pass : Pass) (o : ObjId) : string :=
  (Cut (format pass o) " ").1.1.

(** Every entry of [path], a key with its path, satisfies [P]. *)
Definition goodEntries (P : string → list string → Prop) (path : PathMap)
  : Prop :=
  ∀ k p, path !! k = Some p → P k p.

Definition entryTable (P : string → list string → Prop)
    (m : gmap ObjId PathMap) : Prop :=
  ∀ o path, m !! o = Some path → goodEntries P path.

(** The entry [k], [p] reports a direct hit: [p] ends at an object for
    which [isDirectlyVulnerable] gives the id [id], in the pass of some
    package, and [k] is that id, a colon and the name of the object. *)
Definition listed (catalog : Catalog) (k : string) (p : list string) : Prop :=
  ∃ pass o id,
    id ∈ isDirectlyVulnerable pass catalog o
    ∧ k = id ++ ":" ++ symbolOf pass o
    ∧ last p = Some (format pass o).

(** The facts of a pass are in the hands of the driver, the framework
    golang.org/x/tools/go/analysis, which is no part of the repository.
    What it hands to [pass] are facts that the analyzer exported, with the
    same catalog, in the passes of packages further down the import graph;
    [depth] bounds the length of the import chains below the package. *)
Fixpoint supplied (catalog : Catalog) (depth : nat) (pass : Pass) : Prop :=
  match depth with
  | 0 => ObjectFacts pass = ∅ ∧ PackageFacts pass = ∅
  | S depth =>
      (∀ o fact, ObjectFacts pass !! o = Some fact →
         ∃ pass' sched' out' o',
           supplied catalog depth pass'
           ∧ analyze pass' catalog sched' = Ok out'
           ∧ (o', fact) ∈ ObjectFactsOut out')
      ∧ (∀ imported fact, PackageFacts pass !! imported = Some fact →
           ∃ pass' sched' out',
             supplied catalog depth pass'
             ∧ analyze pass' catalog sched' = Ok out'
             ∧ PackageFactOut out' = Some fact)
  end.

(** The state of the loops of [run] holds entries that satisfy [P] only. *)
Definition entryState (pass : Pass) (P : string → list string → Prop)
    (st : LoopState) : Prop :=
  entryTable P (facts st) ∧ entryTable P (memo st)
  ∧ (∀ d, d ∈ diags st → ∃ m k p, P k p ∧ d = diagnostic pass m k p)
  ∧ (∀ o path, (o, path) ∈ exported st → goodEntries P path)
  ∧ goodEntries P (packageFactPath st).

End Provenance.

(** ** Where the entries of the catalog come from *)

Module Selection.
Import GoStrings Osvutil Fetch.

Section WithClient.
Variable goos goarch : string.
Variable AffectsSemver : Osv.Affects → string → bool.
Variable GetByModule : string → result (list Osv.Entry).

(** [v] is an entry of the list that the loop of [FetchOSVEntries] keeps
    for [mdl]: of what the database returns for the path of its effective
    module, filtered and normalised. *)
Definition keptFor (mdl : Packages.Module) (v : Osv.Entry) : Prop :=
  ∃ vulns,
    GetByModule (Packages.Path (effectiveModule_fix mdl)) = Ok vulns
    ∧ v ∈ normalizeOSVEntries (effectiveModule_fix mdl)
            (filterOSVEntries goos goarch AffectsSemver
                              (effectiveModule_fix mdl) vulns).

(** Every list of the module index is filed under the key of a module of
    [modules] and holds entries kept for that module. *)
Definition knownIndex (modules : list Packages.Module)
    (mod2OSV : gmap string (list Osv.Entry)) : Prop :=
  ∀ k vs, mod2OSV !! k = Some vs →
    ∃ mdl, mdl ∈ modules ∧ k = modKey mdl ∧ ∀ v, v ∈ vs → keptFor mdl v.

End WithClient.

(** [m] in the function literal that [FetchOSVEntries] hands to [walk]:
    the module of the package, or stdlib for a package of the standard
    library. *)
Definition moduleFor (stdlibModule : Packages.Module)
    (pkg : Packages.Package) : option Packages.Module :=
  match Packages.PkgModule pkg with
  | None => if isStdPackage (Packages.PkgPath pkg)
            then Some stdlibModule else None
  | Some m => Some m
  end.

(** Every list of [pkg2OSV] is what the function literal found for a
    package that [pkgs] reach. *)
Definition knownPackages (heap : gmap PkgPtr Loaded)
    (stdlibModule : Packages.Module) (mod2OSV : gmap string (list Osv.Entry))
    (pkgs : list PkgPtr) (pkg2OSV : gmap string (list Osv.Entry)) : Prop :=
  ∀ p vs, pkg2OSV !! p = Some vs →
    ∃ pkg node, reachable heap pkgs pkg ∧ heap !! pkg = Some node
                ∧ Packages.PkgPath (Pkg node) = p
                ∧ packageVulns stdlibModule mod2OSV (Pkg node) = Ok vs
                ∧ vs ≠ [].

End Selection.

(** ** Concrete inputs for the loader: the packages of the test of the
       repository *)

Module MoreExamples.
Import GoStrings Osvutil Types Analysis Fetch Examples.

Definition moduleWork : Packages.Module :=
  {| Packages.Path := "work"; Packages.Version := "";
     Packages.Replace := None |}.

Definition moduleA : Packages.Module :=
  {| Packages.Path := "a.com/m"; Packages.Version := "v0.0.5";
     Packages.Replace := None |}.

Definition loaded (path : string) (m : option Packages.Module)
    (imports : gmap string PkgPtr) : Loaded :=
  {| Pkg := {| Packages.PkgPath := path; Packages.PkgModule := m |};
     Imports := imports |}.

(** work/x imports work/y, which imports a.com/m/vuln and b.com/m/vuln. *)
Definition heapTest : gmap PkgPtr Loaded :=
  {[ 1%positive := loaded "work/x" (Some moduleWork) {[ "work/y" := 2%positive ]};
     2%positive := loaded "work/y" (Some moduleWork)
                     {[ "a.com/m/vuln" := 3%positive;
                        "b.com/m/vuln" := 4%positive ]};
     3%positive := loaded "a.com/m/vuln" (Some moduleA) ∅;
     4%positive := loaded "b.com/m/vuln" (Some moduleB) ∅ ]}.

(** The same packages, with a package that has no module and whose path is
    no standard-library path in the place of b.com/m/vuln. *)
Definition heapOrphan : gmap PkgPtr Loaded :=
  <[ 4%positive := loaded "b.com/m/vuln" None ∅ ]> heapTest.

(** The runtime yields the imports and the modules as they are stored. *)
Definition importsAsStored (_ : PkgPtr) (l : list PkgPtr) : list PkgPtr := l.
Definition modulesAsStored (l : list Packages.Module) : list Packages.Module := l.

(** A stand-in for [module.CheckPath]: the first element of the path must
    hold a dot. *)
Definition checkFirstElement (path : string) : bool := negb (isStdPackage path).

(** A database that holds GO02 for b.com/m, and one that cannot be reached. *)
Definition dbGO02 (path : string) : result (list Osv.Entry) :=
  if String.eqb path "b.com/m" then Ok [entryGO02] else Ok [].

Definition dbDown (_ : string) : result (list Osv.Entry) := Err "no network".

(** [FetchOSVEntries] for the test, with the toolchain go1.20.3. *)
Definition fetchTest (GetByModule : string → result (list Osv.Entry))
    (heap : gmap PkgPtr Loaded) : result (gmap string (list Osv.Entry)) :=
  FetchOSVEntries heap importsAsStored modulesAsStored ∅ "linux" "amd64"
                  alwaysAffected checkFirstElement GetByModule
                  "go1.20.3" [1%positive].

(** The function literal of a walk that lists the paths of the packages. *)
Definition listPaths (_ : PkgPtr) (node : Loaded) (paths : list string)
  : outcome (list string) :=
  Done (paths ++ [Packages.PkgPath (Pkg node)])%list.

(** Package x with the package fact of b.com/m/vuln. *)
Definition passXPackageFact : Pass :=
  {| Objs := objectsX; Fset := positionsX; Nodes := Nodes passX;
     ObjectFacts := ∅;
     PackageFacts := {[ "b.com/m/vuln" := factVuln ]} |}.

(** What [run] reports for x: first for [B], then for [A]. *)
Definition diagnosticsX : list Diagnostic :=
  Diagnostics (outputOf passX catalogGO02 asStored).

(** The fact that the analysis of x exports for [B]. *)
Definition factB : PathMap :=
  {[ "GO02:b.com/m/vuln.Vuln"
     := ["x.B x.go:4:6"; "b.com/m/vuln.Vuln vuln.go:2:6"] ]}.

(** The memo table after [findPath] for [B] in package x. *)
Definition memoAfterB : gmap ObjId PathMap :=
  match findPath passX catalogGO02 asStored (graphOf passX) (ObjectFacts passX)
                 10 2%positive ∅ with
  | Some (_, memo') => memo'
  | None => ∅
  end.

(** A package that refers to [B] of x and imports its fact. *)
Definition passAfterX : Pass :=
  {| Objs := objectsX; Fset := positionsX;
     Nodes := [ Ident (Some 2%positive) ];
     ObjectFacts := {[ 2%positive := factB ]}; PackageFacts := ∅ |}.

(** The map that [FetchOSVEntries] returns for the test. *)
Definition pkg2vulnsTest : gmap string (list Osv.Entry) :=
  match fetchTest dbGO02 heapTest with
  | Ok pkg2vulns => pkg2vulns
  | _ => ∅
  end.

End MoreExamples.

Module WireExamples.
Import Types Analysis Examples.

(** Package b.com/m/vuln of the test: [func Vuln() {}]. *)
Definition passVuln : Pass :=
  {| Objs := objectsX; Fset := positionsX;
     Nodes := [ Ident None; FuncDecl (Some 3%positive) false "Vuln";
                Ident None ];
     ObjectFacts := ∅; PackageFacts := ∅ |}.

(** GO02 under an id that holds a colon, and the catalog with it. *)
Definition entryColon : Osv.Entry :=
  {| Osv.ID := "CVE:2022-1"; Osv.Published := Osv.Published entryGO02;
     Osv.Modified := ""; Osv.Aliases := [];
     Osv.Details := Osv.Details entryGO02;
     Osv.AffectedList := [goAffected];
     Osv.References := [] |}.

Definition catalogColon : Catalog :=
  {| PkgToVulns := {[ "b.com/m/vuln" := [entryColon] ]}; CatErr := None |}.

(** Package x analysed with its dependency in the same pass: no facts. *)
Definition passXAlone : Pass :=
  {| Objs := objectsX; Fset := positionsX; Nodes := Nodes passX;
     ObjectFacts := ∅; PackageFacts := ∅ |}.

End WireExamples.

Module VersionExamples.
Import Osvutil Fetch Examples MoreExamples.

(** b.com/m as the main module of the build: it has no version. *)
Definition moduleBMain : Packages.Module :=
  {| Packages.Path := "b.com/m"; Packages.Version := "";
     Packages.Replace := None |}.

(** The packages of the test, with b.com/m/vuln in the main module. *)
Definition heapMain : gmap PkgPtr Loaded :=
  <[ 4%positive := loaded "b.com/m/vuln" (Some moduleBMain) ∅ ]> heapTest.

Definition pkg2vulnsMain : gmap string (list Osv.Entry) :=
  match fetchTest dbGO02 heapMain with
  | Ok pkg2vulns => pkg2vulns
  | _ => ∅
  end.

(** The map fetched for the test, as the catalog of the analysis. *)
Definition catalogTest : Analysis.Catalog :=
  {| Analysis.PkgToVulns := pkg2vulnsTest; Analysis.CatErr := None |}.

End VersionExamples.

(** * Proofs *)

Local Open Scope string_scope.

(** * The string functions *)

Section StringFacts.
Import GoStrings.

Lemma app_cons (a : ascii) (s r : string) : String a s ++ r = String a (s ++ r).
Proof. reflexivity. Qed.

Lemma app_empty (r : string) : "" ++ r = r.
Proof. reflexivity. Qed.

Lemma prefix_true_iff (p s : string) :
  String.prefix p s = true ↔ ∃ r, s = p ++ r.
Proof.
  revert s. induction p as [|a p IH]; intros s; simpl.
  - destruct s; split; eauto.
  - destruct s as [|b s]; simpl.
    + split; [done | intros [r Hr]; discriminate].
    + destruct (ascii_dec a b) as [->|Hne].
      * rewrite IH. split; intros [r Hr]; exists r; rewrite ?app_cons in *;
          congruence.
      * split; [done | intros [r Hr]; rewrite app_cons in Hr; congruence].
Qed.

Lemma HasPrefix_iff (s p : string) :
  HasPrefix s p = true ↔ ∃ r, s = p ++ r.
Proof. apply prefix_true_iff. Qed.

Lemma replace_byte_absent (s : string) (old new : ascii) :
  old ∉ list_ascii_of_string s → ReplaceByte s old new = s.
Proof.
  induction s as [|a s IH]; simpl; [done|].
  intros Hn. rewrite not_elem_of_cons in Hn. destruct Hn as [Hne Hn].
  rewrite IH by done.
  destruct (Ascii.eqb_spec a old); congruence.
Qed.

Lemma replace_byte_gone (s : string) (old new : ascii) :
  old ≠ new → old ∉ list_ascii_of_string (ReplaceByte s old new).
Proof.
  intros Hne. induction s as [|a s IH]; simpl.
  - apply not_elem_of_nil.
  - apply not_elem_of_cons. split; [|done].
    destruct (Ascii.eqb_spec a old); congruence.
Qed.

Lemma leading_space_prefix (u t : list ascii) :
  u `prefix_of` t → leading_space t = None → leading_space u = None.
Proof.
  unfold leading_space. intros Hut Ht.
  destruct (List.find _ space_runes) as [p|] eqn:Hf in |- *; [|done].
  apply List.find_some in Hf as [Hin Hp].
  apply bool_decide_eq_true in Hp.
  eapply List.find_none in Ht; [|exact Hin].
  apply bool_decide_eq_false in Ht. destruct Ht. by etrans.
Qed.

Lemma space_runes_nonempty (p : list ascii) :
  List.In p space_runes → (0 < length p)%nat.
Proof.
  unfold space_runes. simpl.
  intros H. repeat (destruct H as [<-|H]; [simpl; lia|]). done.
Qed.

Lemma trim_left_fixed fuel (l : list ascii) :
  leading_space l = None → trim_left fuel l = l.
Proof. destruct fuel; simpl; [done|]. by intros ->. Qed.

Lemma trim_right_fixed fuel (l : list ascii) :
  trailing_space l = None → trim_right fuel l = l.
Proof. destruct fuel; simpl; [done|]. by intros ->. Qed.

Lemma trim_left_done fuel (l : list ascii) :
  (length l ≤ fuel)%nat → leading_space (trim_left fuel l) = None.
Proof.
  revert l. induction fuel as [|fuel IH]; intros l Hl; simpl.
  - destruct l; [|simpl in Hl; lia]. done.
  - destruct (leading_space l) as [p|] eqn:Hp; [|done].
    apply IH. unfold leading_space in Hp.
    apply List.find_some in Hp as [Hin Hp].
    apply space_runes_nonempty in Hin. apply bool_decide_eq_true in Hp.
    destruct Hp as [k ->]. rewrite length_skipn, length_app in *. lia.
Qed.

Lemma trim_right_done fuel (l : list ascii) :
  (length l ≤ fuel)%nat → trailing_space (trim_right fuel l) = None.
Proof.
  revert l. induction fuel as [|fuel IH]; intros l Hl; simpl.
  - destruct l; [|simpl in Hl; lia]. done.
  - destruct (trailing_space l) as [p|] eqn:Hp; [|done].
    apply IH. unfold trailing_space in Hp.
    apply List.find_some in Hp as [Hin Hp].
    apply space_runes_nonempty in Hin. apply bool_decide_eq_true in Hp.
    destruct Hp as [k ->]. rewrite length_firstn, length_app in *. lia.
Qed.

Lemma trim_right_prefix fuel (l : list ascii) : trim_right fuel l `prefix_of` l.
Proof.
  revert l. induction fuel as [|fuel IH]; intros l; simpl; [done|].
  destruct (trailing_space l); [|done].
  etrans; [apply IH|]. apply prefix_take.
Qed.

Lemma trim_left_subseteq fuel (l : list ascii) : trim_left fuel l ⊆ l.
Proof.
  revert l. induction fuel as [|fuel IH]; intros l; simpl; [done|].
  destruct (leading_space l); [|done].
  etrans; [apply IH|]. apply subseteq_drop.
Qed.

Lemma trim_right_subseteq fuel (l : list ascii) : trim_right fuel l ⊆ l.
Proof.
  intros x Hx. destruct (trim_right_prefix fuel l) as [k Hk].
  rewrite Hk. apply elem_of_app. by left.
Qed.

Lemma TrimSpace_bytes (s : string) (c : ascii) :
  c ∈ list_ascii_of_string (TrimSpace s) → c ∈ list_ascii_of_string s.
Proof.
  unfold TrimSpace. rewrite list_ascii_of_string_of_list_ascii.
  intros H. apply trim_right_subseteq, trim_left_subseteq in H. done.
Qed.

Lemma TrimSpace_idempotent (s : string) : TrimSpace (TrimSpace s) = TrimSpace s.
Proof.
  unfold TrimSpace. rewrite list_ascii_of_string_of_list_ascii.
  set (t := trim_left _ (list_ascii_of_string s)).
  set (u := trim_right _ t).
  assert (leading_space u = None) as Hu.
  { apply (leading_space_prefix u t); [apply trim_right_prefix|].
    by apply trim_left_done. }
  rewrite (trim_left_fixed _ u Hu).
  rewrite trim_right_fixed; [done|]. by apply trim_right_done.
Qed.

End StringFacts.

(** * The catalog filter *)

Section FilterFacts.
Import GoStrings Osvutil.
Variable goos goarch : string.
Variable AffectsSemver : Osv.Affects → string → bool.

Abbreviation filterAffected := (filterAffected goos goarch AffectsSemver).
Abbreviation filterEntry := (filterEntry goos goarch AffectsSemver).
Abbreviation filterOSVEntries := (filterOSVEntries goos goarch AffectsSemver).

Lemma length_zero_iff {A} (l : list A) : Nat.eqb (length l) 0 = true ↔ l = [].
Proof. destruct l; simpl; split; done. Qed.

(** What a record that passes all the tests of the loop body looks like. *)
Lemma filterAffected_Some module a a' :
  filterAffected module a = Some a' →
  Osv.Ecosystem (Osv.Pkg a) = Osv.GoEcosystem
  ∧ (Packages.Path module = "stdlib" → isStdPackage (Osv.Name (Osv.Pkg a)) = true)
  ∧ (Packages.Path module ≠ "stdlib" →
       HasPrefix (Osv.Name (Osv.Pkg a)) (Packages.Path module) = true)
  ∧ modVersion module ≠ ""
  ∧ AffectsSemver (Osv.Ranges a) (modVersion module) = true
  ∧ Osv.Pkg a' = Osv.Pkg a
  ∧ Osv.Ranges a' = Osv.Ranges a
  ∧ Osv.Imports (Osv.EcoSpecific a')
      = List.filter (matchesPlatform goos goarch) (Osv.Imports (Osv.EcoSpecific a))
  ∧ (Osv.Imports (Osv.EcoSpecific a) ≠ [] → Osv.Imports (Osv.EcoSpecific a') ≠ []).
Proof.
  unfold Osvutil.filterAffected.
  destruct (String.eqb_spec (Osv.Ecosystem (Osv.Pkg a)) Osv.GoEcosystem) as [He|He];
    simpl; [|done].
  destruct (String.eqb_spec (Packages.Path module) "stdlib") as [Hs|Hs]; simpl.
  - destruct (isStdPackage (Osv.Name (Osv.Pkg a))) eqn:Hstd; simpl; [|done].
    destruct (String.eqb_spec (modVersion module) "") as [Hv|Hv]; [done|].
    destruct (AffectsSemver _ _) eqn:Haff; simpl; [|done].
    destruct (negb _ && _) eqn:Hdrop; [done|].
    intros [= <-]; simpl. repeat split; try done.
    intros Hne Hnil. rewrite Hnil in Hdrop. simpl in Hdrop.
    rewrite andb_true_r, negb_false_iff, length_zero_iff in Hdrop. done.
  - destruct (HasPrefix _ _) eqn:Hp; simpl; [|done].
    destruct (String.eqb_spec (modVersion module) "") as [Hv|Hv]; [done|].
    destruct (AffectsSemver _ _) eqn:Haff; simpl; [|done].
    destruct (negb _ && _) eqn:Hdrop; [done|].
    intros [= <-]; simpl. repeat split; try done.
    intros Hne Hnil. rewrite Hnil in Hdrop. simpl in Hdrop.
    rewrite andb_true_r, negb_false_iff, length_zero_iff in Hdrop. done.
Qed.

Lemma filter_filter_same {A} (f : A → bool) (l : list A) :
  List.filter f (List.filter f l) = List.filter f l.
Proof.
  induction l as [|x l IH]; simpl; [done|].
  destruct (f x) eqn:Hx; simpl; [rewrite Hx; by f_equal | done].
Qed.

(** A record that survived survives again, unchanged. *)
Lemma filterAffected_fixed module a a' :
  filterAffected module a = Some a' → filterAffected module a' = Some a'.
Proof.
  intros H. pose proof (filterAffected_Some _ _ _ H)
    as (He & Hstd & Hpre & Hv & Haff & Hpkg & Hr & Hi & Hne).
  unfold Osvutil.filterAffected. rewrite Hpkg, Hr, He, Haff. simpl.
  destruct (String.eqb_spec (Packages.Path module) "stdlib") as [Hs|Hs]; simpl.
  - rewrite (Hstd Hs). simpl.
    destruct (String.eqb_spec (modVersion module) ""); [done|].
    rewrite Hi, filter_filter_same.
    destruct (List.filter _ _) eqn:Hf; simpl.
    + destruct a' as [? ? ? [?]]; simpl in *; by subst.
    + destruct a' as [? ? ? [?]]; simpl in *; by subst.
  - rewrite (Hpre Hs). simpl.
    destruct (String.eqb_spec (modVersion module) ""); [done|].
    rewrite Hi, filter_filter_same.
    destruct (List.filter _ _) eqn:Hf; simpl.
    + destruct a' as [? ? ? [?]]; simpl in *; by subst.
    + destruct a' as [? ? ? [?]]; simpl in *; by subst.
Qed.

Lemma omap_fixed {A} (f : A → option A) (l : list A) :
  (∀ x y, f x = Some y → f y = Some y) → omap f (omap f l) = omap f l.
Proof.
  intros Hf. induction l as [|x l IH]; simpl; [done|].
  destruct (f x) as [y|] eqn:Hx; simpl; [|done].
  rewrite (Hf _ _ Hx). simpl. by f_equal.
Qed.

Lemma filterEntry_Some module v v' :
  filterEntry module v = Some v' →
  Osv.AffectedList v' = omap (filterAffected module) (Osv.AffectedList v)
  ∧ Osv.AffectedList v' ≠ []
  ∧ Osv.ID v' = Osv.ID v ∧ Osv.Details v' = Osv.Details v.
Proof.
  unfold Osvutil.filterEntry.
  destruct (Nat.eqb _ 0) eqn:Hl; [done|].
  intros [= <-]; simpl. repeat split; try done.
  intros Hnil. rewrite Hnil in Hl. done.
Qed.

Lemma filterEntry_normalize module v :
  filterEntry module (normalizeEntry v) = normalizeEntry <$> filterEntry module v.
Proof.
  unfold Osvutil.filterEntry. simpl.
  by destruct (Nat.eqb _ 0).
Qed.

Lemma filterEntry_fixed module v v' :
  filterEntry module v = Some v' → filterEntry module v' = Some v'.
Proof.
  intros H. pose proof (filterEntry_Some _ _ _ H) as (Ha & Hne & _).
  unfold Osvutil.filterEntry.
  rewrite Ha, omap_fixed by apply filterAffected_fixed.
  rewrite <- Ha.
  destruct (Nat.eqb _ 0) eqn:Hl.
  - apply length_zero_iff in Hl. done.
  - by destruct v'.
Qed.

Lemma normalizeEntry_idempotent v :
  normalizeEntry (normalizeEntry v) = normalizeEntry v.
Proof.
  unfold normalizeEntry. simpl. f_equal.
  rewrite (replace_byte_absent (TrimSpace _)); [apply TrimSpace_idempotent|].
  intros Hin. apply TrimSpace_bytes in Hin.
  by apply replace_byte_gone in Hin.
Qed.

Lemma filterOSVEntries_normalize module vulns :
  filterOSVEntries module (normalizeEntry <$> vulns)
  = normalizeEntry <$> filterOSVEntries module vulns.
Proof.
  unfold Osvutil.filterOSVEntries.
  induction vulns as [|v vulns IH]; csimpl; [done|].
  rewrite filterEntry_normalize, IH.
  by destruct (filterEntry module v).
Qed.

Lemma filterOSVEntries_fixed module vulns :
  filterOSVEntries module (filterOSVEntries module vulns)
  = filterOSVEntries module vulns.
Proof. apply omap_fixed, filterEntry_fixed. Qed.

Lemma filterAffected_unknown_version module a :
  modVersion module = "" → filterAffected module a = None.
Proof.
  intros Hv. destruct (filterAffected module a) as [a'|] eqn:H; [|done].
  apply filterAffected_Some in H. naive_solver.
Qed.

Lemma omap_all_None {A B} (f : A → option B) (l : list A) :
  (∀ x, f x = None) → omap f l = [].
Proof. intros Hf. induction l; simpl; [done|]. by rewrite Hf. Qed.

Lemma filterOSVEntries_unknown_version module vulns :
  modVersion module = "" → filterOSVEntries module vulns = [].
Proof.
  intros Hv. apply omap_all_None. intros v. unfold Osvutil.filterEntry.
  rewrite omap_all_None; [done|].
  intros a. by apply filterAffected_unknown_version.
Qed.

End FilterFacts.

(** ** [isStdPackage] and the specification's standard-library paths *)

Section StdPackage.
Import GoStrings Osvutil Spec.

Lemma prefix_byte (c a : ascii) (s : string) :
  String.prefix (String c "") (String a s) = bool_decide (c = a).
Proof.
  change (String.prefix (String c "") (String a s))
    with (if ascii_dec c a then String.prefix "" s else false).
  destruct (ascii_dec c a).
  - rewrite bool_decide_eq_true_2 by done. by destruct s.
  - by rewrite bool_decide_eq_false_2.
Qed.

Lemma Contains_dot (s : string) :
  Contains s "." = true ↔ "."%char ∈ list_ascii_of_string s.
Proof.
  induction s as [|a s IH].
  - split; [done|]. intros H. by apply elem_of_nil in H.
  - change (Contains (String a s) ".")
      with (String.prefix "." (String a s) || Contains s ".").
    change (list_ascii_of_string (String a s))
      with (a :: list_ascii_of_string s).
    rewrite prefix_byte, elem_of_cons, <- IH, orb_true_iff, bool_decide_eq_true.
    done.
Qed.

Lemma first_segment_cut (s : string) :
  match IndexByte s "/" with
  | Some i => take i s
  | None => s
  end = firstSegment s.
Proof.
  induction s as [|a s IH]; simpl; [done|].
  destruct (Ascii.eqb a "/"); simpl; [done|].
  destruct (IndexByte s "/"); simpl in *; by f_equal.
Qed.

Lemma isStdPackage_spec (pkg : string) :
  isStdPackage pkg = true ↔ stdlibPath pkg.
Proof.
  unfold isStdPackage, stdlibPath.
  destruct (String.eqb_spec pkg "") as [->|Hne].
  - split; [done|]. by intros [? _].
  - rewrite first_segment_cut, negb_true_iff. split.
    + intros Hc. split; [done|]. rewrite <- Contains_dot. congruence.
    + intros [_ Hd]. rewrite <- Contains_dot in Hd. by destruct (Contains _ _).
Qed.

End StdPackage.

(** ** Claims about the catalog filter and about direct hits *)

Section FilterClaims.
Import GoStrings Osvutil Spec.

(** C6. Every Affected record of an entry that survives [filterOSVEntries]
    has ecosystem Go and, for a module other than stdlib, a package name
    that starts with the module path, for stdlib a package name that is a
    standard-library path; it is the image of a record of the input that
    passed the tests, and a record that fails one of them leaves no image. *)
Theorem filter_selects_go_records_of_the_module
    (goos goarch : string) (AffectsSemver : Osv.Affects → string → bool)
    (module : Packages.Module) (vulns : list Osv.Entry)
    (v : Osv.Entry) (a : Osv.Affected) :
  v ∈ filterOSVEntries goos goarch AffectsSemver module vulns →
  a ∈ Osv.AffectedList v →
  selected module a
  ∧ (∃ v0 a0, v0 ∈ vulns ∧ a0 ∈ Osv.AffectedList v0
       ∧ filterAffected goos goarch AffectsSemver module a0 = Some a
       ∧ Osv.Pkg a0 = Osv.Pkg a)
  ∧ (∀ a0, ¬ selected module a0 →
       filterAffected goos goarch AffectsSemver module a0 = None).
Proof.
  intros Hv Ha.
  assert (∀ a0 a1, filterAffected goos goarch AffectsSemver module a0 = Some a1
                   → selected module a0 ∧ Osv.Pkg a1 = Osv.Pkg a0) as Hsel.
  { intros a0 a1 H. apply filterAffected_Some in H
      as (He & Hstd & Hpre & _ & _ & Hpkg & _).
    split; [|done]. split; [done|]. split.
    - intros Hs. by apply HasPrefix_iff, Hpre.
    - intros Hs. by apply isStdPackage_spec, Hstd. }
  unfold filterOSVEntries in Hv. apply list_elem_of_omap in Hv as (v0 & Hv0 & Hf).
  apply filterEntry_Some in Hf as (Hl & _).
  rewrite Hl in Ha. apply list_elem_of_omap in Ha as (a0 & Ha0 & Hfa).
  destruct (Hsel _ _ Hfa) as [Hs0 Hpkg].
  split; [|split].
  - destruct Hs0 as (? & ? & ?). unfold selected. by rewrite Hpkg.
  - exists v0, a0. done.
  - intros a1 Hn.
    destruct (filterAffected goos goarch AffectsSemver module a1) eqn:H1; [|done].
    destruct Hn. by apply (Hsel _ _ H1).
Qed.

(** C7. Filtering and normalizing the result of filtering and normalizing,
    with the same module, operating system and architecture, changes
    nothing. *)
Theorem filter_then_normalize_idempotent
    (goos goarch : string) (AffectsSemver : Osv.Affects → string → bool)
    (module : Packages.Module) (vulns : list Osv.Entry) :
  let select := λ l,
    normalizeOSVEntries module
      (filterOSVEntries goos goarch AffectsSemver module l) in
  select (select vulns) = select vulns.
Proof.
  simpl. unfold normalizeOSVEntries.
  rewrite filterOSVEntries_normalize, filterOSVEntries_fixed.
  rewrite <- list_fmap_compose. apply list_fmap_ext.
  intros ? v _. simpl. apply normalizeEntry_idempotent.
Qed.

(** C9. An object that is not a function is never directly vulnerable,
    whatever the catalog lists under its name. *)
Theorem only_functions_are_directly_vulnerable
    (pass : Analysis.Pass) (catalog : Analysis.Catalog) (o : Types.ObjId) :
  (∀ recv, Types.Kind (Analysis.Objs pass o) ≠ Types.KFunc recv) →
  Analysis.isDirectlyVulnerable pass catalog o = [].
Proof.
  intros Hk. unfold Analysis.isDirectlyVulnerable.
  destruct (Types.Kind _) eqn:Hkind; try done. by destruct (Hk recv).
Qed.

End FilterClaims.

(** * The early returns of [run] *)

Section RunFacts.
Import GoStrings Types Analysis.

Lemma bind_no_error {A B} (r : result A) (f : A → result B) :
  returnsNoError r → (∀ a, returnsNoError (f a)) → returnsNoError (r ≫= f).
Proof.
  intros Hr Hf e. destruct r as [a|e'|m]; simpl; [apply Hf|by destruct (Hr e')|done].
Qed.

Lemma foldResult_no_error {A B} (f : A → B → result A) (a : A) (l : list B) :
  (∀ a b, returnsNoError (f a b)) → returnsNoError (foldResult f a l).
Proof.
  intros Hf. revert a. induction l as [|b l IH]; intros a; simpl; [done|].
  apply bind_no_error; auto.
Qed.

Lemma addToBucket_no_error g obj : returnsNoError (addToBucket g obj).
Proof. unfold addToBucket. by destruct (bucket g). Qed.

Lemma visit_no_error pass g n : returnsNoError (visit pass g n).
Proof.
  destruct n as [i d|u|s|d r nm|k ds|k d]; simpl.
  - by destruct i, d.
  - destruct u; [|done]. destruct (isRecorded _); [|done].
    apply addToBucket_no_error.
  - destruct s; [apply addToBucket_no_error|done].
  - destruct d; [|done]. destruct (Kind _); try done.
    apply bind_no_error; [|done].
    destruct r; [|by destruct (String.eqb nm "init")].
    destruct recv as [[[]| |]|]; done.
  - by destruct (Nat.eqb k 3).
  - by destruct (Nat.eqb k 3).
Qed.

Lemma visitAll_no_error pass g ns : returnsNoError (visitAll pass g ns).
Proof.
  revert g. induction ns as [|n ns IH]; intros g; simpl; [done|].
  apply bind_no_error; [apply visit_no_error|auto].
Qed.

Lemma analyze_no_error pass catalog sched :
  returnsNoError (analyze pass catalog sched).
Proof.
  unfold analyze. apply bind_no_error; [apply visitAll_no_error|]. intros g.
  apply bind_no_error; [|done]. unfold finalState.
  apply bind_no_error.
  - unfold afterImports. apply bind_no_error; [|done].
    apply foldResult_no_error. intros st m. unfold importStep.
    destruct (Kind _); try done. by destruct (PackageFacts pass !! _).
  - intros st. apply foldResult_no_error. intros st' m. unfold memberStep.
    destruct (findPath _ _ _ _ _ _ _ _) as [[]|]; [|done].
    by destruct (Nat.eqb _ 0).
Qed.

(** C10. On first use, a catalog file that decodes to a map without
    packages makes [run] return at once, for this and for every later
    package, with no diagnostic and no fact; and [run] returns an error
    exactly when the flag is unset or the file cannot be opened or
    decoded. *)
Theorem empty_catalog_is_a_clean_exit
    (readJSON : string → FileRead) (sched : Schedule)
    (gl : Globals) (pass : Pass) (pkg2vulns : gmap string (list Osv.Entry)) :
  onceDone gl = false →
  vulnsJSONFile gl ≠ "" →
  readJSON (vulnsJSONFile gl) = Decodes pkg2vulns →
  size pkg2vulns = 0 →
  (run readJSON sched gl pass).1 = Ok noOutput
  ∧ (∀ pass', (run readJSON sched (run readJSON sched gl pass).2 pass').1
              = Ok noOutput)
  ∧ (∀ gl' pass',
       onceDone gl' = false →
       (∃ e, (run readJSON sched gl' pass').1 = Err e)
       ↔ (vulnsJSONFile gl' = ""
          ∨ (∃ e, readJSON (vulnsJSONFile gl') = OpenFails e)
          ∨ (∃ e, readJSON (vulnsJSONFile gl') = DecodeFails e))).
Proof.
  intros Honce Hflag Hread Hsize.
  assert (onceDo readJSON gl
          = {| vulnsJSONFile := vulnsJSONFile gl;
               catalog := {| PkgToVulns := pkg2vulns; CatErr := None |};
               onceDone := true |}) as Hdo.
  { unfold onceDo, Refresh, readFile. rewrite Honce, Hread.
    by destruct (String.eqb_spec (vulnsJSONFile gl) ""). }
  split; [|split].
  - unfold run. rewrite Hdo. simpl. by rewrite Hsize.
  - intros pass'. unfold run at 2. rewrite Hdo. simpl. rewrite Hsize. simpl.
    unfold run, onceDo. simpl. by rewrite Hsize.
  - intros gl' pass' Honce'. unfold run, onceDo, Refresh, readFile.
    rewrite Honce'.
    destruct (String.eqb_spec (vulnsJSONFile gl') "") as [He|He]; simpl.
    + split; [auto|]. intros _. eauto.
    + destruct (readJSON (vulnsJSONFile gl')) as [e|e|m] eqn:Hr; simpl.
      * split; [eauto|]. intros _. eauto.
      * split; [eauto|]. intros _. eauto.
      * split.
        -- intros [e He']. destruct (Nat.eqb _ 0); [done|].
           by apply analyze_no_error in He'.
        -- intros [?|[[e ?]|[e ?]]]; done.
Qed.

End RunFacts.

(** * [findPath] *)

Section FindPathFacts.
Import GoStrings Types Analysis.
Variable pass : Pass.
Variable catalog : Catalog.
Variable sched : Schedule.
Variable g : Graph.

Abbreviation findPath := (findPath pass catalog sched g).
Abbreviation succs := (succs pass sched g).
Abbreviation format := (format pass).
Abbreviation isDirectlyVulnerable := (isDirectlyVulnerable pass catalog).
Abbreviation firstVisit := (firstVisit pass catalog sched g).

Lemma size_zero_iff (path : PathMap) : Nat.ltb 0 (size path) = false ↔ path = ∅.
Proof.
  rewrite Nat.ltb_ge. rewrite <- map_size_empty_iff. lia.
Qed.

Lemma size_pos_iff (path : PathMap) : Nat.ltb 0 (size path) = true ↔ path ≠ ∅.
Proof.
  rewrite <- size_zero_iff. destruct (Nat.ltb 0 (size path)); split; done.
Qed.

(** ** The loops over path maps, as lookups *)

Lemma adopt_lookup (o : string) (from path : PathMap) (k : string) :
  adopt o from path !! k
  = match from !! k with
    | Some prev => Some (extend o prev)
    | None => path !! k
    end.
Proof.
  unfold adopt.
  apply (map_fold_weak_ind
    (λ r m, r !! k = match m !! k with
                     | Some prev => Some (extend o prev)
                     | None => path !! k
                     end)); [done|].
  intros i x m r Hi IH.
  destruct (decide (i = k)) as [->|Hne].
  - by rewrite !lookup_insert_eq.
  - by rewrite !lookup_insert_ne.
Qed.

Lemma extend_nonempty (o : string) (prev : list string) : extend o prev ≠ [].
Proof. unfold extend. destruct prev as [|p0 ?]; [done|]. by destruct (String.eqb p0 o). Qed.

Lemma directPaths_lookup (obj : ObjId) (vulns : list string) (k : string) (p : list string) :
  directPaths pass obj vulns !! k = Some p →
  p = [format obj]
  ∧ ∃ v, v ∈ vulns ∧ k = v ++ ":" ++ (Cut (format obj) " ").1.1.
Proof.
  unfold directPaths.
  assert (∀ (init : PathMap),
    foldl (λ path v, <[v ++ ":" ++ (Cut (format obj) " ").1.1 := [format obj]]> path)
          init vulns !! k = Some p →
    init !! k = Some p
    ∨ (p = [format obj]
       ∧ ∃ v, v ∈ vulns ∧ k = v ++ ":" ++ (Cut (format obj) " ").1.1)) as H.
  { induction vulns as [|v vulns IH]; intros init; simpl; [auto|].
    intros Hl. apply IH in Hl as [Hl|(-> & v' & Hv' & ->)].
    - destruct (decide (v ++ ":" ++ (Cut (format obj) " ").1.1 = k)) as [<-|Hne].
      + rewrite lookup_insert_eq in Hl. injection Hl as <-. right.
        split; [done|]. exists v. split; [left|done].
      + rewrite lookup_insert_ne in Hl by done. auto.
    - right. split; [done|]. exists v'. split; [by right|done]. }
  intros Hl. apply H in Hl as [Hl|Hl]; [|done]. by rewrite lookup_empty in Hl.
Qed.

(** ** Unfolding [findPath] *)

Section WithFacts.
Variable facts : gmap ObjId PathMap.

Lemma findPath_hit fuel obj memo path :
  memo !! obj = Some path → findPath facts (S fuel) obj memo = Some (path, memo).
Proof. intros H. simpl. by rewrite H. Qed.

Lemma findPath_miss fuel obj memo :
  memo !! obj = None →
  findPath facts (S fuel) obj memo
  = match firstVisit facts fuel obj memo with
    | Some (path, memo') =>
        Some (path, if Nat.ltb 0 (size path) then <[obj := path]> memo' else memo')
    | None => None
    end.
Proof.
  intros H. simpl. rewrite H. unfold Analysis.firstVisit.
  destruct (Nat.ltb 0 (length _)); simpl; [done|].
  destruct (facts !! obj); simpl; [done|].
  by destruct (overSuccs _ _ _ _ _) as [[]|].
Qed.

(** An invariant of the loop over the successors. *)
Lemma overSuccs_invariant
    (rec : ObjId → gmap ObjId PathMap → option (PathMap * gmap ObjId PathMap))
    (P : PathMap → gmap ObjId PathMap → Prop)
    (o : string) (l : list ObjId) path memo path' memo' :
  P path memo →
  (∀ succ path memo path0 memo0,
     succ ∈ l → P path memo → rec succ memo = Some (path0, memo0) →
     P (if Nat.ltb 0 (size path0) then adopt o path0 path else path) memo0) →
  overSuccs rec o l path memo = Some (path', memo') →
  P path' memo'.
Proof.
  revert path memo. induction l as [|succ l IH]; intros path memo HP Hstep; simpl.
  - by intros [= <- <-].
  - destruct (rec succ memo) as [[path0 memo0]|] eqn:Hrec; [|done].
    apply IH.
    + eapply Hstep; [left|done..].
    + intros. eapply Hstep; [by right|done..].
Qed.

(** ** The memo table only grows *)

Lemma findPath_dom fuel obj memo path memo' :
  findPath facts fuel obj memo = Some (path, memo') →
  dom memo ⊆ dom memo' ∧ obj ∈ dom memo'.
Proof.
  revert obj memo path memo'.
  induction fuel as [|fuel IH]; intros obj memo path memo'; [done|].
  destruct (memo !! obj) as [p|] eqn:Hm.
  - rewrite (findPath_hit _ _ _ _ Hm). intros [= <- <-].
    split; [done|]. apply elem_of_dom. eauto.
  - rewrite (findPath_miss _ _ _ Hm).
    destruct (firstVisit facts fuel obj memo) as [[path1 memo1]|] eqn:Hf; [|done].
    intros [= <- <-].
    assert (dom (<[obj := ∅]> memo) ⊆ dom memo1) as Hsub.
    { unfold Analysis.firstVisit in Hf.
      destruct (Nat.ltb 0 (length _)); [by injection Hf as <- <-|].
      destruct (facts !! obj); [by injection Hf as <- <-|].
      revert Hf.
      apply (overSuccs_invariant _ (λ _ m, dom (<[obj := ∅]> memo) ⊆ dom m));
        [done|].
      intros succ p0 m0 p1 m1 _ Hsub Hrec. apply IH in Hrec as [? _].
      set_solver. }
    rewrite dom_insert in Hsub.
    destruct (Nat.ltb 0 (size path1)); [rewrite dom_insert|]; set_solver.
Qed.

(** ** Termination *)

Lemma succs_outside (obj : ObjId) : obj ∉ graphNodes g → succs obj = [].
Proof.
  intros Hn. unfold graphNodes in Hn.
  assert (refs g !! obj = None) as Hr.
  { apply not_elem_of_dom. set_solver. }
  assert (methods g !! obj = None) as Hm.
  { apply not_elem_of_dom. set_solver. }
  unfold Analysis.succs, bucketOf. rewrite Hr, Hm. simpl.
  by destruct (Kind _).
Qed.

Lemma overSuccs_total fuel (o : string) (l : list ObjId) path memo :
  (∀ obj memo, size (graphNodes g ∖ dom memo) < fuel →
               is_Some (findPath facts fuel obj memo)) →
  size (graphNodes g ∖ dom memo) < fuel →
  is_Some (overSuccs (findPath facts fuel) o l path memo).
Proof.
  intros IH. revert path memo.
  induction l as [|succ l IHl]; intros path memo Hlt; simpl; [eauto|].
  destruct (IH succ memo Hlt) as [[path0 memo0] Hrec]. rewrite Hrec.
  apply IHl. apply findPath_dom in Hrec as [Hsub _].
  eapply Nat.le_lt_trans; [|exact Hlt]. apply subseteq_size. set_solver.
Qed.

(** With more fuel than there are nodes outside the memo table, [findPath]
    returns. *)
Lemma findPath_total fuel obj memo :
  size (graphNodes g ∖ dom memo) < fuel →
  is_Some (findPath facts fuel obj memo).
Proof.
  revert obj memo.
  induction fuel as [|fuel IH]; intros obj memo Hlt; [lia|].
  destruct (memo !! obj) as [p|] eqn:Hm.
  - rewrite (findPath_hit _ _ _ _ Hm). eauto.
  - rewrite (findPath_miss _ _ _ Hm).
    assert (is_Some (firstVisit facts fuel obj memo)) as [[path1 memo1] ->]; [|eauto].
    unfold Analysis.firstVisit.
    destruct (Nat.ltb 0 (length _)); [eauto|].
    destruct (facts !! obj); [eauto|].
    destruct (decide (obj ∈ graphNodes g)) as [Hin|Hout].
    + apply overSuccs_total; [exact IH|].
      assert (graphNodes g ∖ dom (<[obj := (∅ : PathMap)]> memo)
              ⊂ graphNodes g ∖ dom memo) as Hstrict.
      { rewrite dom_insert. apply not_elem_of_dom in Hm. set_solver. }
      apply subset_size in Hstrict. lia.
    + rewrite succs_outside by done. simpl. eauto.
Qed.

Lemma enoughFuel_covers (memo : gmap ObjId PathMap) :
  size (graphNodes g ∖ dom memo) < enoughFuel g.
Proof. unfold enoughFuel. apply Nat.lt_succ_r, subseteq_size. set_solver. Qed.

Lemma findPath_enough_fuel obj memo :
  is_Some (findPath facts (enoughFuel g) obj memo).
Proof. apply findPath_total, enoughFuel_covers. Qed.

End WithFacts.
End FindPathFacts.

(** ** Fuel beyond what is needed *)

Section MoreFuel.
Import GoStrings Types Analysis.
Variable pass : Pass.
Variable catalog : Catalog.
Variable sched : Schedule.
Variable g : Graph.
Variable facts : gmap ObjId PathMap.

Abbreviation findPath := (findPath pass catalog sched g facts).
Abbreviation firstVisit := (firstVisit pass catalog sched g facts).

Lemma overSuccs_more
    (rec1 rec2 : ObjId → gmap ObjId PathMap → option (PathMap * gmap ObjId PathMap))
    (o : string) (l : list ObjId) path memo r :
  (∀ s m x, rec1 s m = Some x → rec2 s m = Some x) →
  overSuccs rec1 o l path memo = Some r →
  overSuccs rec2 o l path memo = Some r.
Proof.
  intros Hrec. revert path memo.
  induction l as [|succ l IH]; intros path memo; simpl; [done|].
  destruct (rec1 succ memo) as [[path0 memo0]|] eqn:H1; [|done].
  rewrite (Hrec _ _ _ H1). apply IH.
Qed.

(** The result of [findPath] does not change when it is given more fuel. *)
Lemma findPath_more_fuel fuel fuel' obj memo r :
  (fuel ≤ fuel')%nat →
  findPath fuel obj memo = Some r → findPath fuel' obj memo = Some r.
Proof.
  revert fuel' obj memo r.
  induction fuel as [|fuel IH]; intros fuel' obj memo r Hle; [done|].
  destruct fuel' as [|fuel']; [lia|].
  destruct (memo !! obj) as [p|] eqn:Hm.
  - by rewrite !(findPath_hit pass catalog sched g facts _ obj memo p Hm).
  - rewrite !(findPath_miss pass catalog sched g facts _ obj memo Hm).
    destruct (firstVisit fuel obj memo) as [[path1 memo1]|] eqn:Hf; [|done].
    assert (firstVisit fuel' obj memo = Some (path1, memo1)) as ->; [|done].
    unfold Analysis.firstVisit in *.
    destruct (Nat.ltb 0 (length _)); [done|].
    destruct (facts !! obj); [done|].
    eapply overSuccs_more; [|exact Hf].
    intros s m x. apply IH. lia.
Qed.

End MoreFuel.

Section FindPathInvariants.
Import GoStrings Types Analysis.
Variable pass : Pass.
Variable catalog : Catalog.
Variable sched : Schedule.
Variable g : Graph.

Abbreviation findPath := (findPath pass catalog sched g).
Abbreviation succs := (succs pass sched g).
Abbreviation format := (format pass).
Abbreviation isDirectlyVulnerable := (isDirectlyVulnerable pass catalog).

(** ** Keys and paths of the results *)

Section Keys.
(** A property of keys that holds of the key of every direct hit. *)
Variable K : string → Prop.
Abbreviation goodKeys := (goodKeys K).
Abbreviation goodPaths := (goodPaths K).
Abbreviation keyTable := (keyTable K).
Abbreviation goodTable := (goodTable K).
Hypothesis K_direct : ∀ obj v,
  v ∈ isDirectlyVulnerable obj → K (v ++ ":" ++ (Cut (format obj) " ").1.1).

Lemma goodPaths_keys path : goodPaths path → goodKeys path.
Proof. intros H k [p Hp]. by eapply H. Qed.

Lemma goodPaths_empty : goodPaths ∅.
Proof. intros k p H. by rewrite lookup_empty in H. Qed.

Lemma goodTable_empty : goodTable ∅.
Proof. intros k p H. by rewrite lookup_empty in H. Qed.

Lemma goodTable_insert o path m :
  goodPaths path → goodTable m → goodTable (<[o := path]> m).
Proof.
  intros Hp Hm o' path'. destruct (decide (o = o')) as [->|Hne].
  - rewrite lookup_insert_eq. by intros [= <-].
  - rewrite lookup_insert_ne by done. apply Hm.
Qed.

Lemma keyTable_insert o path m :
  goodKeys path → keyTable m → keyTable (<[o := path]> m).
Proof.
  intros Hp Hm o' path'. destruct (decide (o = o')) as [->|Hne].
  - rewrite lookup_insert_eq. by intros [= <-].
  - rewrite lookup_insert_ne by done. apply Hm.
Qed.

Lemma goodPaths_adopt o from path :
  goodKeys from → goodPaths path → goodPaths (adopt o from path).
Proof.
  intros Hf Hp k p. rewrite adopt_lookup.
  destruct (from !! k) as [prev|] eqn:Hk.
  - intros [= <-]. split; [apply Hf; by rewrite Hk|apply extend_nonempty].
  - apply Hp.
Qed.

Lemma findPath_good facts fuel obj memo path memo' :
  keyTable facts → goodTable memo →
  findPath facts fuel obj memo = Some (path, memo') →
  goodPaths path ∧ goodTable memo'.
Proof.
  intros Hfacts. revert obj memo path memo'.
  induction fuel as [|fuel IH]; intros obj memo path memo' Hmemo; [done|].
  destruct (memo !! obj) as [p|] eqn:Hm.
  - rewrite (findPath_hit pass catalog sched g facts fuel obj memo p Hm).
    intros [= <- <-]. split; [by eapply Hmemo|done].
  - rewrite (findPath_miss pass catalog sched g facts fuel obj memo Hm).
    destruct (firstVisit pass catalog sched g facts fuel obj memo)
      as [[path1 memo1]|] eqn:Hf; [|done].
    intros [= <- <-].
    assert (goodPaths path1 ∧ goodTable memo1) as [Hp1 Hm1].
    { unfold Analysis.firstVisit in Hf.
      pose proof (goodTable_insert obj ∅ memo goodPaths_empty Hmemo) as Hgrey.
      destruct (Nat.ltb 0 (length _)).
      { injection Hf as <- <-. split; [|done].
        intros k p Hk. apply directPaths_lookup in Hk as (-> & v & Hv & ->).
        split; [by apply K_direct|done]. }
      destruct (facts !! obj) as [fact|] eqn:Hfact.
      { injection Hf as <- <-. split; [|done].
        apply goodPaths_adopt; [by eapply Hfacts|apply goodPaths_empty]. }
      apply (overSuccs_invariant (findPath facts fuel)
               (λ p m, goodPaths p ∧ goodTable m)) in Hf; [done| |].
      - split; [apply goodPaths_empty|done].
      - intros succ p0 m0 p1 m1 _ [Hp0 Hm0] Hrec.
        apply IH in Hrec as [Hp1 Hm1]; [|done]. split; [|done].
        destruct (Nat.ltb 0 (size p1)); [|done].
        by apply goodPaths_adopt; [apply goodPaths_keys|]. }
    split; [done|].
    destruct (Nat.ltb 0 (size path1)); [|done]. by apply goodTable_insert.
Qed.

End Keys.

(** ** A set of objects that refer only to each other *)

Section Quiet.
Variable facts : gmap ObjId PathMap.
Variable S : gset ObjId.
Abbreviation quiet := (quiet pass catalog sched g facts S).
Abbreviation silentOn := (silentOn S).

Lemma findPath_quiet fuel obj memo path memo' :
  quiet → silentOn memo → obj ∈ S →
  findPath facts fuel obj memo = Some (path, memo') →
  path = ∅ ∧ silentOn memo'.
Proof.
  intros Hq. revert obj memo path memo'.
  induction fuel as [|fuel IH]; intros obj memo path memo' Hmemo Hin; [done|].
  destruct (memo !! obj) as [p|] eqn:Hm.
  - rewrite (findPath_hit pass catalog sched g facts fuel obj memo p Hm). intros [= <- <-].
    split; [by eapply Hmemo|done].
  - rewrite (findPath_miss pass catalog sched g facts fuel obj memo Hm).
    destruct (firstVisit pass catalog sched g facts fuel obj memo) as [[path1 memo1]|] eqn:Hf;
      [|done].
    intros [= <- <-].
    destruct (Hq obj Hin) as (Hv & Hfact & Hsuccs).
    assert (path1 = ∅ ∧ silentOn memo1) as [-> Hm1].
    { unfold Analysis.firstVisit in Hf. rewrite Hv, Hfact in Hf. simpl in Hf.
      apply (overSuccs_invariant (findPath facts fuel)
               (λ p m, p = ∅ ∧ silentOn m)) in Hf; [done| |].
      - split; [done|].
        intros o p Ho. destruct (decide (obj = o)) as [->|Hne].
        + rewrite lookup_insert_eq. by intros [= <-].
        + rewrite lookup_insert_ne by done. by apply Hmemo.
      - intros succ p0 m0 p1 m1 Hsucc (-> & Hm0) Hrec.
        apply IH in Hrec as [-> Hm1]; [|done|by apply Hsuccs].
        by rewrite map_size_empty. }
    done.
Qed.

End Quiet.

End FindPathInvariants.

(** * The loop over the members *)

(** ** Keys and [strings.Cut] *)

Section CutFacts.
Import GoStrings Analysis.

Lemma hasColon_app_colon (v s : string) : hasColon (v ++ ":" ++ s).
Proof.
  unfold hasColon. induction v as [|a v IH].
  - rewrite app_empty. change (":" ++ s) with (String ":" s). simpl. left.
  - rewrite app_cons. simpl. by right.
Qed.

Lemma Cut_colon_cons (a : ascii) (s : string) :
  Cut (String a s) ":"
  = if bool_decide (":"%char = a) then ("", s, true)
    else let '(before, after, found) := Cut s ":" in
         (String a before, after, found).
Proof.
  change (Cut (String a s) ":")
    with (if String.prefix ":" (String a s) then ("", s, true)
          else let '(before, after, found) := Cut s ":" in
               (String a before, after, found)).
  by rewrite prefix_byte.
Qed.

(** A key that contains a colon is cut into the text before the first
    colon and the text after it. *)
Lemma Cut_colon (k : string) :
  hasColon k →
  ∃ id symbol, Cut k ":" = (id, symbol, true)
               ∧ k = id ++ ":" ++ symbol ∧ ¬ hasColon id.
Proof.
  unfold hasColon. induction k as [|a k IH].
  - by intros ?%elem_of_nil.
  - intros Hin. simpl in Hin. rewrite Cut_colon_cons. case_bool_decide as Ha.
    + subst a. exists "", k. split; [done|]. split; [done|].
      simpl. apply not_elem_of_nil.
    + apply elem_of_cons in Hin as [Hin|Hin]; [done|].
      destruct (IH Hin) as (id & symbol & Hc & Hk & Hn).
      exists (String a id), symbol. rewrite Hc. split; [done|].
      split; [by rewrite app_cons, <- Hk|].
      simpl. rewrite elem_of_cons. intros [?|?]; done.
Qed.

Lemma Cut_app_colon (v s : string) :
  ¬ hasColon v → Cut (v ++ ":" ++ s) ":" = (v, s, true).
Proof.
  unfold hasColon. induction v as [|a v IH]; intros Hn.
  - rewrite app_empty. change (":" ++ s) with (String ":" s).
    rewrite Cut_colon_cons. by rewrite bool_decide_eq_true_2.
  - simpl in Hn. rewrite not_elem_of_cons in Hn. destruct Hn as [Ha Hn].
    rewrite app_cons, Cut_colon_cons.
    rewrite bool_decide_eq_false_2 by done. by rewrite IH.
Qed.

End CutFacts.

Section LoopFacts.
Import GoStrings Types Analysis.
Variable pass : Pass.
Variable catalog : Catalog.
Variable sched : Schedule.
Variable g : Graph.

Abbreviation findPath := (findPath pass catalog sched g).
Abbreviation memberStep := (memberStep pass catalog sched g).
Abbreviation memberFound := (memberFound pass).
Abbreviation diagnostic := (diagnostic pass).
Abbreviation visited := (visited pass catalog sched g).
Abbreviation foundAt := (foundAt pass catalog sched g).

Lemma foldResult_app {A B} (f : A → B → result A) (a : A) (l1 l2 : list B) :
  foldResult f a (l1 ++ l2) = foldResult f a l1 ≫= λ a', foldResult f a' l2.
Proof.
  revert a. induction l1 as [|b l1 IH]; intros a; simpl; [done|].
  destruct (f a b); simpl; [apply IH|done..].
Qed.

Lemma memberStep_Ok st m st' :
  memberStep st m = Ok st' →
  ∃ path memo',
    findPath (facts st) (enoughFuel g) m (memo st) = Some (path, memo')
    ∧ ((path = ∅ ∧ st' = memberSkipped st memo')
       ∨ (path ≠ ∅ ∧ st' = memberFound st m path memo')).
Proof.
  unfold Analysis.memberStep.
  destruct (findPath _ _ _ _) as [[path memo']|]; [|done].
  exists path, memo'. split; [done|].
  destruct (Nat.eqb (size path) 0) eqn:Hs; injection H as <-.
  - left. split; [|done]. apply map_size_empty_iff. by apply Nat.eqb_eq.
  - right. split; [|done]. rewrite <- map_size_empty_iff. by apply Nat.eqb_neq.
Qed.

Lemma memberFound_reports st m path memo' k p :
  path !! k = Some p → p ≠ [] →
  diagnostic m k p ∈ diags (memberFound st m path memo').
Proof.
  intros Hk Hp. simpl. apply elem_of_app; right.
  apply list_elem_of_In, in_flat_map. exists (k, p). split.
  - by apply list_elem_of_In, elem_of_map_to_list.
  - simpl. destruct p; [done|]. simpl. by left.
Qed.

Lemma memberStep_diags st m st' :
  memberStep st m = Ok st' → diags st `prefix_of` diags st'.
Proof.
  intros (path & memo' & _ & [[_ ->]|[_ ->]])%memberStep_Ok; simpl; [done|].
  by apply prefix_app_r.
Qed.

Lemma loop_diags st l st' :
  foldResult memberStep st l = Ok st' → diags st `prefix_of` diags st'.
Proof.
  revert st. induction l as [|m l IH]; intros st; simpl.
  - by intros [= <-].
  - destruct (memberStep st m) as [st1| |] eqn:H1; simpl; [|done..].
    intros H. etrans; [by eapply memberStep_diags|by apply IH].
Qed.

(** ** The tables of the loop keep good keys and paths *)

Section Keys.
Variable K : string → Prop.
Abbreviation goodState := (goodState K).
Hypothesis K_direct : ∀ obj v,
  v ∈ isDirectlyVulnerable pass catalog obj →
  K (v ++ ":" ++ (Cut (format pass obj) " ").1.1).

Lemma memberStep_good st m st' :
  goodState st → memberStep st m = Ok st' → goodState st'.
Proof.
  intros [Hf Hm] (path & memo' & Hfind & Hcase)%memberStep_Ok.
  eapply findPath_good in Hfind as [Hp Hm']; [|done..].
  destruct Hcase as [[_ ->]|[_ ->]]; split; simpl; try done.
  destruct (Exported _); [|done].
  by apply keyTable_insert; [apply goodPaths_keys|].
Qed.

Lemma loop_good st l st' :
  goodState st → foldResult memberStep st l = Ok st' → goodState st'.
Proof.
  revert st. induction l as [|m l IH]; intros st Hst; simpl.
  - by intros [= <-].
  - destruct (memberStep st m) as [st1| |] eqn:H1; simpl; [|done..].
    apply IH. by eapply memberStep_good.
Qed.

Lemma afterImports_facts st0 :
  afterImports pass sched g = Ok st0 →
  facts st0 = ObjectFacts pass ∧ memo st0 = ∅ ∧ exported st0 = [].
Proof.
  unfold afterImports. destruct (foldResult _ _ _); simpl; [|done..].
  by intros [= <-].
Qed.

Lemma foundAt_good m path :
  keyTable K (ObjectFacts pass) → foundAt m path → goodPaths K path.
Proof.
  intros Hfacts (st0 & H0 & pre & post & st & memo' & _ & Hpre & Hfind).
  apply afterImports_facts in H0 as (Hf0 & Hm0 & _).
  assert (goodState st) as [Hf Hm].
  { eapply loop_good; [|done]. split; [by rewrite Hf0|].
    rewrite Hm0. apply goodTable_empty. }
  by eapply findPath_good in Hfind as [Hp _].
Qed.

End Keys.

Lemma foundAt_reported m path k p st :
  finalState pass catalog sched g = Ok st →
  foundAt m path → path !! k = Some p → p ≠ [] →
  diagnostic m k p ∈ diags st.
Proof.
  unfold finalState.
  intros Hfinal (st0 & H0 & pre & post & st1 & memo' & Hsplit & Hpre & Hfind) Hk Hp.
  rewrite H0 in Hfinal. simpl in Hfinal.
  unfold Analysis.membersOf in Hsplit.
  unfold Analysis.membersOf in Hfinal. rewrite Hsplit in Hfinal.
  rewrite foldResult_app, Hpre in Hfinal. simpl in Hfinal.
  destruct (memberStep st1 m) as [st2| |] eqn:H2; simpl in Hfinal; [|done..].
  apply loop_diags in Hfinal as [extra ->]. apply elem_of_app; left.
  apply memberStep_Ok in H2 as (path' & memo'' & Hfind' & Hcase).
  rewrite Hfind in Hfind'. injection Hfind' as <- <-.
  destruct Hcase as [[-> _]|[_ ->]].
  - by rewrite lookup_empty in Hk.
  - by apply memberFound_reports.
Qed.

Lemma member_is_found m st :
  valid_schedule sched →
  finalState pass catalog sched g = Ok st →
  m ∈ dom (refs g) → ∃ path, foundAt m path.
Proof.
  intros (_ & Hmem & _) Hfinal Hm. unfold finalState in Hfinal.
  destruct (afterImports pass sched g) as [st0| |] eqn:H0; simpl in Hfinal;
    [|done..].
  assert (m ∈ membersOf sched g) as Hin.
  { unfold membersOf. rewrite Hmem. by apply elem_of_elements. }
  apply list_elem_of_split in Hin as (pre & post & Hsplit).
  rewrite Hsplit, foldResult_app in Hfinal.
  destruct (foldResult memberStep st0 pre) as [st1| |] eqn:Hpre;
    simpl in Hfinal; [|done..].
  destruct (memberStep st1 m) as [st2| |] eqn:H2; simpl in Hfinal; [|done..].
  apply memberStep_Ok in H2 as (path & memo' & Hfind & _).
  exists path, st0. split; [done|]. exists pre, post, st1, memo'. done.
Qed.

End LoopFacts.

(** ** What the loop exports *)

Opaque Analysis.enoughFuel.

Section LoopContents.
Import GoStrings Types Analysis.
Variable pass : Pass.
Variable catalog : Catalog.
Variable sched : Schedule.
Variable g : Graph.

Abbreviation findPath := (findPath pass catalog sched g).
Abbreviation memberStep := (memberStep pass catalog sched g).
Abbreviation memberFound := (memberFound pass).
Abbreviation foundAt := (foundAt pass catalog sched g).
Abbreviation visited := (visited pass catalog sched g).
Abbreviation importedKey := (importedKey pass).

Lemma visited_nil st m path : ¬ visited st [] m path.
Proof. intros (pre & post & ? & ? & H & _). by destruct pre. Qed.

Lemma visited_cons st m0 l st1 m path :
  memberStep st m0 = Ok st1 →
  visited st (m0 :: l) m path ↔
    (m = m0 ∧ ∃ memo', findPath (facts st) (enoughFuel g) m0 (memo st)
                        = Some (path, memo'))
    ∨ visited st1 l m path.
Proof.
  intros H1. split.
  - intros (pre & post & st2 & memo' & Hl & Hpre & Hfind).
    destruct pre as [|m1 pre]; simpl in *.
    + injection Hl as <- <-. injection Hpre as <-. left. eauto.
    + injection Hl as <- ->. rewrite H1 in Hpre. simpl in Hpre.
      right. exists pre, post, st2, memo'. done.
  - intros [[-> [memo' Hfind]]|(pre & post & st2 & memo' & -> & Hpre & Hfind)].
    + exists [], l, st, memo'. done.
    + exists (m0 :: pre), post, st2, memo'. simpl. rewrite H1. done.
Qed.

(** The object facts exported by the loop. *)
Lemma loop_exported st l st' m path :
  foldResult memberStep st l = Ok st' →
  (m, path) ∈ exported st' ↔
    (m, path) ∈ exported st
    ∨ (visited st l m path ∧ path ≠ ∅ ∧ Exported (Objs pass m) = true).
Proof.
  revert st. induction l as [|m0 l IH]; intros st; simpl.
  - intros [= <-]. split; [auto|]. intros [?|[[]%visited_nil _]]. done.
  - destruct (memberStep st m0) as [st1| |] eqn:H1; simpl; [|done..].
    intros H. rewrite (IH _ H), (visited_cons _ _ _ _ _ _ H1).
    apply memberStep_Ok in H1 as (path0 & memo0 & Hfind & Hcase).
    destruct Hcase as [[-> ->]|[Hne ->]]; simpl.
    + split; [naive_solver|].
      intros [?|[[[-> [memo' Hf]]|?] ?]]; [auto| |auto].
      rewrite Hfind in Hf. naive_solver.
    + destruct (Exported (Objs pass m0)) eqn:He.
      * rewrite elem_of_app, list_elem_of_singleton. split.
        -- intros [[?|[= -> ->]]|?]; [auto| |naive_solver].
           right. split; [|done]. left. eauto.
        -- intros [?|[[[-> [memo' Hf]]|?] [? ?]]]; [auto| |auto].
           rewrite Hfind in Hf. injection Hf as <- <-. auto.
      * split; [naive_solver|].
        intros [?|[[[-> [memo' Hf]]|?] [? ?]]]; [auto| |auto]. congruence.
Qed.

(** The keys that the fold over the path of an [init] member adds. *)
Lemma init_fold_dom (pfp path : PathMap) (k : string) :
  k ∈ dom (map_fold (λ vuln trace (pfp : PathMap),
                       match pfp !! vuln with
                       | Some _ => pfp
                       | None => <[vuln := trace]> pfp
                       end) pfp path)
  ↔ k ∈ dom pfp ∨ k ∈ dom path.
Proof.
  apply (map_fold_weak_ind
    (λ (r : PathMap) (m : PathMap), k ∈ dom r ↔ k ∈ dom pfp ∨ k ∈ dom m)).
  - set_solver.
  - intros i x m r Hi IH. rewrite dom_insert.
    destruct (r !! i) as [y|] eqn:Hr.
    + assert (i ∈ dom r) by (apply elem_of_dom; eauto). set_solver.
    + rewrite dom_insert. set_solver.
Qed.

(** The keys of [packageFactPath] after the loop over the members. *)
Lemma loop_package_keys st l st' k :
  foldResult memberStep st l = Ok st' →
  k ∈ dom (packageFactPath st') ↔
    k ∈ dom (packageFactPath st)
    ∨ ∃ m path, visited st l m path
                ∧ Name (Objs pass m) = "init" ∧ k ∈ dom path.
Proof.
  revert st. induction l as [|m0 l IH]; intros st; simpl.
  - intros [= <-]. split; [auto|]. intros [?|(m & path & []%visited_nil & _)]. done.
  - destruct (memberStep st m0) as [st1| |] eqn:H1; simpl; [|done..].
    intros H. rewrite (IH _ H).
    assert (k ∈ dom (packageFactPath st1) ↔
            k ∈ dom (packageFactPath st)
            ∨ ∃ path memo', findPath (facts st) (enoughFuel g) m0 (memo st)
                              = Some (path, memo')
                            ∧ Name (Objs pass m0) = "init" ∧ k ∈ dom path) as ->.
    { pose proof H1 as (path0 & memo0 & Hfind & Hcase)%memberStep_Ok.
      destruct Hcase as [[-> ->]|[Hne ->]]; simpl.
      - split; [auto|]. intros [?|(p & m' & Hf & _ & Hk)]; [done|].
        rewrite Hfind in Hf. injection Hf as <- <-. set_solver.
      - destruct (String.eqb_spec (Name (Objs pass m0)) "init") as [Hi|Hi].
        + rewrite init_fold_dom. split; [|naive_solver].
          intros [?|?]; [auto|]. right. eauto.
        + split; [auto|]. intros [?|(p & m' & _ & ? & _)]; done. }
    split.
    + intros [[?|(path & memo' & Hf & Hi & Hk)]|(m & path & Hv & Hi & Hk)];
        [auto| |].
      * right. exists m0, path. split; [|done].
        apply (visited_cons _ _ _ _ _ _ H1). left. eauto.
      * right. exists m, path. split; [|done].
        apply (visited_cons _ _ _ _ _ _ H1). by right.
    + intros [?|(m & path & Hv & Hi & Hk)]; [auto|].
      apply (visited_cons _ _ _ _ _ _ H1) in Hv as [[-> [memo' Hf]]|Hv].
      * left. right. eauto.
      * right. eauto.
Qed.

Lemma importStep_keys st i st' k :
  importStep pass st i = Ok st' →
  k ∈ dom st'.2 ↔ k ∈ dom st.2 ∨ importedKey [i] k.
Proof.
  unfold importStep, Analysis.importedKey.
  destruct (Kind (Objs pass i)) as [| | | |d imp|] eqn:Hk; try done.
  destruct (PackageFacts pass !! imp) as [fact|] eqn:Hf.
  - intros [= <-].
    assert (k ∈ dom (map_fold
              (λ vuln p (st : list Diagnostic * PathMap),
                 let p := format pass i :: p in
                 let diags := (st.1 ++ [diagnostic pass i vuln p])%list in
                 let keep :=
                   match st.2 !! vuln with
                   | Some existing => negb (Nat.ltb (length p) (length existing))
                   | None => false
                   end in
                 (diags, if keep then st.2 else <[vuln := p]> st.2))
              st fact).2 ↔ k ∈ dom st.2 ∨ k ∈ dom fact) as ->.
    { apply (map_fold_weak_ind
        (λ (r : list Diagnostic * PathMap) (m : PathMap),
           k ∈ dom r.2 ↔ k ∈ dom st.2 ∨ k ∈ dom m)).
      - set_solver.
      - intros j x m r Hj IH. simpl.
        destruct (r.2 !! j) as [y|] eqn:Hr.
        + assert (j ∈ dom r.2) by (apply elem_of_dom; eauto).
          destruct (negb _); rewrite ?dom_insert; set_solver.
        + rewrite !dom_insert. set_solver. }
    split.
    + intros [?|?]; [auto|]. right. exists i, d, imp, fact.
      split; [by left|done].
    + intros [?|(i' & d' & imp' & fact' & ->%list_elem_of_singleton & Hk' & Hf' & ?)];
        [auto|].
      right. congruence.
  - intros [= <-]. split; [auto|].
    intros [?|(i' & d' & imp' & fact & ->%list_elem_of_singleton & Hk' & Hf' & _)];
      [done|].
    congruence.
Qed.

Lemma imports_loop_keys st l st' k :
  foldResult (importStep pass) st l = Ok st' →
  k ∈ dom st'.2 ↔ k ∈ dom st.2 ∨ importedKey l k.
Proof.
  revert st. induction l as [|i l IH]; intros st; simpl.
  - intros [= <-]. split; [auto|].
    intros [?|(i & ? & ? & ? & []%elem_of_nil & _)]. done.
  - destruct (importStep pass st i) as [st1| |] eqn:H1; simpl; [|done..].
    intros H. rewrite (IH _ H), (importStep_keys _ _ _ _ H1).
    unfold Analysis.importedKey. split.
    + intros [[?|(i' & d & imp & f & ->%list_elem_of_singleton & ?)]
             |(i' & d & imp & f & Hin & ?)]; [auto| |].
      * right. exists i, d, imp, f. split; [left|done].
      * right. exists i', d, imp, f. split; [by right|done].
    + intros [?|(i' & d & imp & f & [->|Hin]%elem_of_cons & ?)]; [auto| |].
      * left. right. exists i, d, imp, f. split; [by left|done].
      * right. exists i', d, imp, f. done.
Qed.

End LoopContents.

Section QuietLoop.
Import GoStrings Types Analysis.
Variable pass : Pass.
Variable catalog : Catalog.
Variable sched : Schedule.

Lemma analyze_Ok out :
  analyze pass catalog sched = Ok out →
  ∃ g st, visitAll pass emptyGraph (Nodes pass) = Ok g
          ∧ finalState pass catalog sched g = Ok st
          ∧ Diagnostics out = diags st
          ∧ ObjectFactsOut out = exported st
          ∧ PackageFactOut out
            = if Nat.ltb 0 (size (packageFactPath st))
              then Some (packageFactPath st) else None.
Proof.
  unfold analyze.
  destruct (visitAll _ _ _) as [g| |] eqn:Hg; simpl; try discriminate.
  destruct (finalState _ _ _ g) as [st| |] eqn:Hst; simpl; try discriminate.
  intros [= <-]. exists g, st. done.
Qed.

Lemma direct_key_has_colon obj v :
  v ∈ isDirectlyVulnerable pass catalog obj →
  hasColon (v ++ ":" ++ (Cut (format pass obj) " ").1.1).
Proof. intros _. apply hasColon_app_colon. Qed.

(** ** A set of objects that refer only to each other, in the loop *)

Section Quiet.
Variable g : Graph.
Variable S : gset ObjId.

Lemma memberStep_quiet st m :
  quiet pass catalog sched g (facts st) S → silentOn S (memo st) → m ∈ S →
  ∃ memo', memberStep pass catalog sched g st m = Ok (memberSkipped st memo')
           ∧ silentOn S memo'.
Proof.
  intros Hq Hs Hm. unfold memberStep.
  destruct (findPath_enough_fuel pass catalog sched g (facts st) m (memo st))
    as [[path memo'] Hfind].
  rewrite Hfind.
  eapply findPath_quiet in Hfind as [-> Hs']; [|done..].
  exists memo'. by rewrite map_size_empty.
Qed.

Lemma loop_quiet st l :
  quiet pass catalog sched g (facts st) S → silentOn S (memo st) →
  (∀ m, m ∈ l → m ∈ S) →
  ∃ st', foldResult (memberStep pass catalog sched g) st l = Ok st'
         ∧ diags st' = diags st ∧ exported st' = exported st
         ∧ packageFactPath st' = packageFactPath st.
Proof.
  revert st. induction l as [|m l IH]; intros st Hq Hs Hl; simpl; [eauto|].
  destruct (memberStep_quiet st m Hq Hs) as (memo' & -> & Hs').
  { apply Hl. by left. }
  simpl. destruct (IH (memberSkipped st memo')) as (st' & -> & ? & ? & ?);
    [done|done| |eauto].
  intros m' Hm'. apply Hl. by right.
Qed.

Lemma imports_loop_without_facts st l :
  (∀ i, i ∈ l → ∃ declaredIn imported,
       Kind (Objs pass i) = KPkgName declaredIn imported
       ∧ PackageFacts pass !! imported = None) →
  foldResult (importStep pass) st l = Ok st.
Proof.
  induction l as [|i l IH]; intros Hl; [done|].
  destruct (Hl i) as (d & imp & Hk & Hf); [by left|].
  assert (importStep pass st i = Ok st) as Hstep.
  { unfold importStep. by rewrite Hk, Hf. }
  change (foldResult (importStep pass) st (i :: l))
    with (importStep pass st i ≫= λ st', foldResult (importStep pass) st' l).
  rewrite Hstep. simpl. apply IH.
  intros i' Hi'. apply Hl. by right.
Qed.

End Quiet.
End QuietLoop.

(** ** Where the keys of the diagnostics come from *)

Section Origins.
Import GoStrings Types Analysis.
Variable pass : Pass.
Variable catalog : Catalog.
Variable sched : Schedule.

Lemma isDirectlyVulnerable_without_entries o p :
  Pkg (Objs pass o) = Some p → PkgToVulns catalog !! p = None →
  isDirectlyVulnerable pass catalog o = [].
Proof.
  intros Hp Hk. unfold isDirectlyVulnerable.
  rewrite Hp, Hk. simpl. by destruct (Kind _).
Qed.

(** Every diagnostic of the loop over the members reports an entry of the
    path map of a member. *)
Lemma loop_diags_origin g st l st' d :
  foldResult (memberStep pass catalog sched g) st l = Ok st' →
  d ∈ diags st' →
  d ∈ diags st
  ∨ ∃ m path k p, visited pass catalog sched g st l m path
                  ∧ path !! k = Some p ∧ d = diagnostic pass m k p.
Proof.
  revert st. induction l as [|m0 l IH]; intros st; simpl.
  - intros [= <-]. auto.
  - destruct (memberStep pass catalog sched g st m0) as [st1| |] eqn:H1;
      simpl; [|done..].
    intros H Hd. destruct (IH _ H Hd) as [Hd1|(m & path & k & p & Hv & Hk & ->)].
    + pose proof H1 as (path0 & memo0 & Hfind & Hcase)%memberStep_Ok.
      destruct Hcase as [[-> ->]|[Hne ->]]; simpl in Hd1; [auto|].
      apply elem_of_app in Hd1 as [?|Hd1]; [auto|]. right.
      apply list_elem_of_In, in_flat_map in Hd1 as ([k p] & Hkp & Hd1).
      apply list_elem_of_In, elem_of_map_to_list in Hkp. simpl in Hd1.
      destruct (Nat.eqb (length p) 0); [done|].
      destruct Hd1 as [<-|[]].
      exists m0, path0, k, p. split; [|done].
      apply (visited_cons _ _ _ _ _ _ _ _ _ _ H1). left. eauto.
    + right. exists m, path, k, p. split; [|done].
      apply (visited_cons _ _ _ _ _ _ _ _ _ _ H1). by right.
Qed.

(** Every diagnostic of the loop over the imports carries a key of the
    package fact of an import. *)
Lemma importStep_diags_origin st i st' d :
  importStep pass st i = Ok st' →
  d ∈ st'.1 → d ∈ st.1 ∨ importedKey pass [i] (Category d).
Proof.
  unfold importStep, importedKey.
  destruct (Kind (Objs pass i)) as [| | | |dcl imp|] eqn:Hk; try done.
  destruct (PackageFacts pass !! imp) as [fact|] eqn:Hf; [|intros [= <-]; auto].
  intros [= <-].
  assert (d ∈ (map_fold
              (λ vuln p (st : list Diagnostic * PathMap),
                 let p := format pass i :: p in
                 let diags := (st.1 ++ [diagnostic pass i vuln p])%list in
                 let keep :=
                   match st.2 !! vuln with
                   | Some existing => negb (Nat.ltb (length p) (length existing))
                   | None => false
                   end in
                 (diags, if keep then st.2 else <[vuln := p]> st.2))
              st fact).1 → d ∈ st.1 ∨ Category d ∈ dom fact) as Hfold.
  { apply (map_fold_weak_ind
      (λ (r : list Diagnostic * PathMap) (m : PathMap),
         d ∈ r.1 → d ∈ st.1 ∨ Category d ∈ dom m)).
    - auto.
    - intros j x m r Hj IH. simpl. rewrite dom_insert.
      intros [Hd|Hd%list_elem_of_singleton]%elem_of_app.
      + destruct (IH Hd); [auto|]. right. set_solver.
      + subst d. right. simpl. set_solver. }
  intros Hd. destruct (Hfold Hd) as [?|Hc]; [auto|].
  right. exists i, dcl, imp, fact. split; [by left|done].
Qed.

Lemma imports_diags_origin st l st' d :
  foldResult (importStep pass) st l = Ok st' →
  d ∈ st'.1 → d ∈ st.1 ∨ importedKey pass l (Category d).
Proof.
  revert st. induction l as [|i l IH]; intros st; simpl.
  - intros [= <-]. auto.
  - destruct (importStep pass st i) as [st1| |] eqn:H1; simpl; [|done..].
    intros H Hd.
    destruct (IH _ H Hd) as [Hd1|(i' & dcl & imp & f & Hin & ?)].
    + destruct (importStep_diags_origin _ _ _ _ H1 Hd1)
        as [?|(i' & dcl & imp & f & Hi%list_elem_of_singleton & ?)]; [auto|].
      subst i'. right. exists i, dcl, imp, f. split; [left|done].
    + right. exists i', dcl, imp, f. split; [by right|done].
Qed.

End Origins.


(** ** Claims about the analysis *)

Section AnalysisClaims.
Import GoStrings Types Analysis.

Lemma importedKey_perm pass (l1 l2 : list ObjId) (k : string) :
  l1 ≡ₚ l2 → importedKey pass l1 k → importedKey pass l2 k.
Proof.
  intros Hp (i & d & imp & fact & Hi & H). exists i, d, imp, fact.
  split; [by rewrite <- Hp|done].
Qed.

(** C8. An object fact is exported for the member [m] with the path map
    [path] exactly when [path] is the non-empty result of [findPath] for
    [m] and [m] is exported; one package fact is exported exactly when the
    accumulated package map is not empty, and it carries that map; the keys
    of that map are those of the package facts of the imports and those of
    the path maps of the members named init. *)
Theorem facts_are_exported_for_exported_members_and_the_package
    (pass : Pass) (catalog : Catalog) (sched : Schedule) (out : Output) :
  valid_schedule sched →
  analyze pass catalog sched = Ok out →
  ∃ g st, visitAll pass emptyGraph (Nodes pass) = Ok g
    ∧ finalState pass catalog sched g = Ok st
    ∧ (∀ m path,
         (m, path) ∈ ObjectFactsOut out
         ↔ foundAt pass catalog sched g m path ∧ path ≠ ∅
           ∧ Exported (Objs pass m) = true)
    ∧ (packageFactPath st ≠ ∅ → PackageFactOut out = Some (packageFactPath st))
    ∧ (packageFactPath st = ∅ → PackageFactOut out = None)
    ∧ (∀ k, k ∈ dom (packageFactPath st)
         ↔ importedKey pass (elements (imports g)) k
           ∨ ∃ m path, foundAt pass catalog sched g m path
                       ∧ Name (Objs pass m) = "init" ∧ k ∈ dom path).
Proof.
  intros (Himp & _ & _) (g & st & Hg & Hst & _ & He & Hp)%analyze_Ok.
  exists g, st. split; [done|]. split; [done|].
  unfold finalState in Hst.
  destruct (afterImports pass sched g) as [st0| |] eqn:H0; simpl in Hst;
    try discriminate.
  assert (∀ m path, foundAt pass catalog sched g m path
                    ↔ visited pass catalog sched g st0 (membersOf sched g) m path)
    as Hfound.
  { intros m path. unfold foundAt. rewrite H0. split.
    - by intros (? & [= <-] & ?).
    - eauto. }
  split; [|split; [|split]].
  - intros m path. rewrite He, (loop_exported _ _ _ _ _ _ _ _ _ Hst), Hfound.
    apply afterImports_facts in H0 as (_ & _ & ->).
    rewrite elem_of_nil. naive_solver.
  - intros Hne. rewrite Hp. apply size_pos_iff in Hne. by rewrite Hne.
  - intros Hnil. rewrite Hp. apply size_zero_iff in Hnil. by rewrite Hnil.
  - intros k. rewrite (loop_package_keys _ _ _ _ _ _ _ _ Hst).
    assert (k ∈ dom (packageFactPath st0)
            ↔ importedKey pass (elements (imports g)) k) as ->.
    { unfold afterImports in H0.
      destruct (foldResult (importStep pass) ([], ∅) (importsOf sched g))
        as [r| |] eqn:Hr; simpl in H0; try discriminate.
      injection H0 as <-. simpl.
      rewrite (imports_loop_keys _ _ _ _ _ Hr). simpl. rewrite dom_empty.
      split.
      - intros [[]%elem_of_empty|Hk]. revert Hk.
        apply importedKey_perm, Himp.
      - intros Hk. right. revert Hk.
        apply importedKey_perm. symmetry. apply Himp. }
    by setoid_rewrite Hfound.
Qed.

(** C4. [findPath] returns on every graph, from every node and memo
    table, with the fuel [run] gives it or more, and always the same
    result; a node met again while it is grey yields the empty map; among
    objects that refer only to each other, none directly vulnerable and
    none carrying a fact, [findPath] returns the empty map for each; and a
    package all of whose members are such objects, and whose imports carry
    no package fact, gets no diagnostic and no fact. *)
Theorem findPath_terminates_and_cycles_are_silent
    (pass : Pass) (catalog : Catalog) (sched : Schedule) :
  (∀ g facts fuel obj memo,
     (enoughFuel g ≤ fuel)%nat →
     is_Some (findPath pass catalog sched g facts fuel obj memo)
     ∧ findPath pass catalog sched g facts fuel obj memo
       = findPath pass catalog sched g facts (enoughFuel g) obj memo)
  ∧ (∀ g facts fuel obj memo,
       memo !! obj = Some ∅ →
       findPath pass catalog sched g facts (Datatypes.S fuel) obj memo
       = Some (∅, memo))
  ∧ (∀ g facts S memo obj,
       quiet pass catalog sched g facts S → silentOn S memo → obj ∈ S →
       ∃ memo', findPath pass catalog sched g facts (enoughFuel g) obj memo
                = Some (∅, memo')
                ∧ silentOn S memo')
  ∧ (∀ g S,
       valid_schedule sched →
       visitAll pass emptyGraph (Nodes pass) = Ok g →
       quiet pass catalog sched g (ObjectFacts pass) S →
       dom (refs g) ⊆ S →
       (∀ i, i ∈ imports g → ∃ declaredIn imported,
            Kind (Objs pass i) = KPkgName declaredIn imported
            ∧ PackageFacts pass !! imported = None) →
       analyze pass catalog sched = Ok noOutput).
Proof.
  split; [|split; [|split]].
  - intros g facts fuel obj memo Hfuel.
    destruct (findPath_enough_fuel pass catalog sched g facts obj memo)
      as [r Hr].
    rewrite Hr.
    rewrite (findPath_more_fuel pass catalog sched g facts _ fuel obj memo r
               Hfuel Hr).
    eauto.
  - intros g facts fuel obj memo Hm. by apply findPath_hit.
  - intros g facts S memo obj Hq Hs Hobj.
    destruct (findPath_enough_fuel pass catalog sched g facts obj memo)
      as [[path memo'] Hfind].
    pose proof Hfind as [-> Hs']%(findPath_quiet pass catalog sched g facts S);
      [eauto|done..].
  - intros g S (Hri & Hrm & Hrr) Hg Hq Hmembers Himports.
    unfold analyze. rewrite Hg. simpl. unfold finalState, afterImports.
    rewrite imports_loop_without_facts.
    2:{ intros i Hi. apply Himports. unfold importsOf in Hi.
        rewrite Hri in Hi. by apply elem_of_elements in Hi. }
    simpl.
    destruct (loop_quiet pass catalog sched g S
                {| memo := ∅; facts := ObjectFacts pass; diags := [];
                   exported := []; packageFactPath := ∅ |}
                (membersOf sched g))
      as (st' & -> & Hd & He & Hp); simpl.
    + done.
    + intros o p _. by rewrite lookup_empty.
    + intros m Hm. apply Hmembers. unfold membersOf in Hm.
      rewrite Hrm in Hm. by apply elem_of_elements in Hm.
    + rewrite Hd, He, Hp. simpl. by rewrite map_size_empty.
Qed.

(** After its early returns [run] is [analyze] on the loaded catalog. *)
Lemma run_analyzes (readJSON : string → FileRead) (sched : Schedule)
    (gl : Globals) (pass : Pass) :
  CatErr (catalog (onceDo readJSON gl)) = None →
  PkgToVulns (catalog (onceDo readJSON gl)) ≠ ∅ →
  (run readJSON sched gl pass).1
  = analyze pass (catalog (onceDo readJSON gl)) sched.
Proof.
  intros He Hne. unfold run. rewrite He.
  destruct (Nat.eqb _ 0) eqn:Hs; [|done].
  apply Nat.eqb_eq, map_size_empty_iff in Hs. done.
Qed.

End AnalysisClaims.

(** * The tag expression and the grammar of tags *)

Section RegexpFacts.
Import GoStrings Regexp Osvutil Spec.

Lemma app_assoc' (a b c : string) : (a ++ b) ++ c = a ++ b ++ c.
Proof.
  induction a as [|x a IH]; [done|]. by rewrite !app_cons, IH.
Qed.

Lemma app_empty_r (a : string) : a ++ "" = a.
Proof. induction a as [|x a IH]; [done|]. by rewrite app_cons, IH. Qed.

Lemma take_drop (n : nat) (s : string) : take n s ++ drop n s = s.
Proof.
  revert s. induction n as [|n IH]; intros s; [done|].
  destruct s as [|a s]; [done|]. simpl. by rewrite app_cons, IH.
Qed.

Lemma drop_app_length (p r : string) : drop (String.length p) (p ++ r) = r.
Proof. induction p as [|a p IH]; [done|]. rewrite app_cons. simpl. done. Qed.

Lemma take_digit_run (n : nat) (s : string) :
  (n ≤ digit_run s)%nat → allDigits (take n s) = true.
Proof.
  revert s. induction n as [|n IH]; intros s Hn; [done|].
  destruct s as [|a s]; [done|]. simpl in *.
  destruct (is_digit a); [|lia]. simpl. apply IH. lia.
Qed.

Lemma take_nonempty (n : nat) (s : string) :
  (1 ≤ n ≤ digit_run s)%nat → take n s ≠ "".
Proof.
  destruct n as [|n]; [lia|]. destruct s as [|a s]; simpl; [lia|done].
Qed.

Lemma try_digits_Some (n : nat) (s : string) (k : string → option captures) c :
  try_digits n s k = Some c →
  ∃ j, (1 ≤ j ≤ n)%nat ∧ k (drop j s) = Some c.
Proof.
  induction n as [|n IH]; [done|].
  change (try_digits (S n) s k)
    with (match k (drop (S n) s) with
          | Some c => Some c
          | None => try_digits n s k
          end).
  destruct (k (drop (S n) s)) as [c'|] eqn:Hk.
  - intros [= <-]. exists (S n). split; [lia|exact Hk].
  - intros (j & Hj & Hc)%IH. exists j. split; [lia|done].
Qed.

(** What the matcher accepts is in the language of the expression. *)
Lemma exec_sound (r : re) (s : string) (caps : captures)
    (k : string → captures → option captures) (c : captures) :
  exec r s caps k = Some c →
  ∃ s1 s2 caps', s = s1 ++ s2 ∧ matches r s1 ∧ k s2 caps' = Some c.
Proof.
  revert s caps k. induction r as [|lit| |r1 IH1 r2 IH2|r1 IH1 r2 IH2|n r IH];
    intros s caps k; simpl.
  - intros H. exists "", s, caps. done.
  - destruct (String.prefix lit s) eqn:Hp; [|done].
    apply prefix_true_iff in Hp as [rest ->]. rewrite drop_app_length.
    intros H. exists lit, rest, caps. done.
  - intros (j & Hj & Hk)%try_digits_Some.
    exists (take j s), (drop j s), caps. split; [by rewrite take_drop|].
    split; [|done]. split; [by apply take_nonempty|].
    apply take_digit_run. lia.
  - intros (s1 & s' & caps1 & -> & H1 & (s2 & s3 & caps2 & -> & H2 & Hk)%IH2)%IH1.
    exists (s1 ++ s2), s3, caps2. split; [by rewrite app_assoc'|].
    split; [|done]. exists s1, s2. done.
  - destruct (exec r1 s caps k) as [c1|] eqn:H1.
    + intros [= <-]. apply IH1 in H1 as (s1 & s2 & caps' & ? & ? & ?).
      exists s1, s2, caps'. auto.
    + intros (s1 & s2 & caps' & ? & ? & ?)%IH2. exists s1, s2, caps'. auto.
  - intros (s1 & s2 & caps' & ? & ? & ?)%IH. eauto 10.
Qed.

Lemma FindStringSubmatch_sound (r : re) (s : string) (m : captures) :
  FindStringSubmatch r s = Some m → matches r s.
Proof.
  unfold FindStringSubmatch.
  intros (s1 & s2 & caps' & -> & H & Hk)%exec_sound. simpl in H.
  destruct (String.eqb_spec s2 "") as [->|]; [|done].
  by rewrite app_empty_r.
Qed.

(** The strings [tagRegexp] stands for are the tags of the grammar. *)
Lemma tagRegexp_goTag (s : string) : matches tagRegexp s → goTag s.
Proof.
  unfold tagRegexp, Opt. simpl.
  intros (go & s1 & -> & -> & (mm & s2 & -> & Hmm & (patch & pre & -> & Hpatch & Hpre))).
  destruct Hmm as (major & dm & -> & Hmajor & (dot & minor & -> & -> & Hminor)).
  exists major, minor, patch, pre.
  split; [done|]. split; [done|]. split; [|split].
  - destruct Hpatch as [(dot & n & -> & -> & Hn)| ->]; [right; eauto|by left].
  - destruct Hpre as [(kind & n & -> & Hkind & Hn)| ->]; [|by left].
    right. exists kind, n. split; [|done]. naive_solver.
  - by rewrite !app_assoc'.
Qed.

Lemma allDigits_chars (s : string) (a : ascii) :
  allDigits s = true → a ∈ list_ascii_of_string s → is_digit a = true.
Proof.
  induction s as [|b s IH]; simpl.
  - by intros _ ?%elem_of_nil.
  - intros [Hb Hs]%andb_true_iff [->|Hin]%elem_of_cons; auto.
Qed.

Lemma chars_app (a b : string) :
  list_ascii_of_string (a ++ b)
  = (list_ascii_of_string a ++ list_ascii_of_string b)%list.
Proof. induction a as [|x a IH]; [done|]. rewrite app_cons. simpl. by f_equal. Qed.

(** A tag of the grammar is made of letters, digits, dots and dashes. *)
Lemma goTag_no_space (s : string) :
  goTag s → " "%char ∉ list_ascii_of_string s.
Proof.
  intros (major & minor & patch & pre & [_ Hmajor] & [_ Hminor] & Hpatch & Hpre & ->).
  assert (∀ n, allDigits n = true → " "%char ∉ list_ascii_of_string n) as Hd.
  { intros n Hn Hin. by apply (allDigits_chars _ _ Hn) in Hin. }
  rewrite !chars_app, !elem_of_app.
  intros [Hin|[Hin|[Hin|[Hin|[Hin|Hin]]]]].
  - simpl in Hin. set_solver.
  - by apply (Hd major).
  - simpl in Hin. set_solver.
  - by apply (Hd minor).
  - destruct Hpatch as [->|(n & [_ Hn] & ->)].
    + by apply elem_of_nil in Hin.
    + rewrite chars_app, elem_of_app in Hin. destruct Hin as [Hin|Hin].
      * simpl in Hin. set_solver.
      * by apply (Hd n).
  - destruct Hpre as [->|(kind & n & Hkind & [_ Hn] & ->)].
    + by apply elem_of_nil in Hin.
    + rewrite chars_app, elem_of_app in Hin. destruct Hin as [Hin|Hin].
      * destruct Hkind as [->|[->| ->]]; simpl in Hin; set_solver.
      * by apply (Hd n).
Qed.

Lemma goTag_starts_with_go (s : string) :
  goTag s → String.prefix "go" s = true.
Proof.
  intros (major & minor & patch & pre & _ & _ & _ & _ & ->).
  apply prefix_true_iff. eauto.
Qed.

(** C5, as amended.  [GoTagToSemver] maps go1 to v1.0.0, go1.0 to the
    empty string, go1.21rc2 to v1.21.0-rc.2, go1.20.3 to v1.20.3 and
    not-a-tag to the empty string; it maps the empty string to the empty
    string, and every string whose first white-space separated field is
    not go1 and is not a tag of the grammar to the empty string. *)
Theorem GoTagToSemver_laws :
  GoTagToSemver "go1" = Ok "v1.0.0"
  ∧ GoTagToSemver "go1.0" = Ok ""
  ∧ GoTagToSemver "go1.21rc2" = Ok "v1.21.0-rc.2"
  ∧ GoTagToSemver "go1.20.3" = Ok "v1.20.3"
  ∧ GoTagToSemver "not-a-tag" = Ok ""
  ∧ GoTagToSemver "" = Ok ""
  ∧ ∀ tag field rest,
      Fields tag = field :: rest → field ≠ "go1" → ¬ goTag field →
      GoTagToSemver tag = Ok "".
Proof.
  repeat (split; [by vm_compute|]).
  intros tag field rest Hf Hgo1 Hg. unfold GoTagToSemver.
  destruct (String.eqb tag ""); [done|]. rewrite Hf.
  destruct (String.eqb_spec field "go1"); [done|].
  destruct (String.eqb field "go1.0"); [done|].
  destruct (FindStringSubmatch tagRegexp field) as [m|] eqn:Hm; [|done].
  destruct Hg. by eapply tagRegexp_goTag, FindStringSubmatch_sound.
Qed.

End RegexpFacts.

(** * The claims on concrete inputs *)

Transparent Analysis.enoughFuel.

Section Witnesses.
Import GoStrings Osvutil Types Analysis Spec Examples.

Lemma asStored_valid : valid_schedule asStored.
Proof. by repeat split. Qed.

Lemma reversed_valid : valid_schedule reversed.
Proof.
  split; [done|]. split; [|done]. intros l. simpl. symmetry. apply Permutation_rev.
Qed.

(** C1. The set of diagnostics and the facts depend on the order in which
    the runtime yields the members of the package: with the same package,
    catalog and facts, [run] reports a path from [A] under one order and
    none under the other. *)
Theorem run_depends_on_the_order_of_the_members :
  valid_schedule asStored ∧ valid_schedule reversed
  ∧ ∃ out1 out2 d,
      (run filesGO02 asStored freshGlobals passX).1 = Ok out1
      ∧ (run filesGO02 reversed freshGlobals passX).1 = Ok out2
      ∧ DPos d = Pos (objectsX 1)
      ∧ d ∈ Diagnostics out2 ∧ (d ∉ Diagnostics out1)
      ∧ (∀ d', d' ∈ Diagnostics out1 → DPos d' ≠ Pos (objectsX 1))
      ∧ length (ObjectFactsOut out1) = 1 ∧ length (ObjectFactsOut out2) = 2.
Proof.
  split; [apply asStored_valid|]. split; [apply reversed_valid|].
  eexists _, _,
    {| DPos := 10; DEnd := 0; Category := "GO02:b.com/m/vuln.Vuln";
       Message := "GO02|x.A x.go:3:6" ++ tab ++ "x.B x.go:4:6" ++ tab
                  ++ "b.com/m/vuln.Vuln vuln.go:2:6" |}.
  split; [vm_compute; reflexivity|]. split; [vm_compute; reflexivity|].
  split; [reflexivity|]. split; [|split; [|split; [|split]]].
  - vm_compute. left.
  - vm_compute. intros [=]%list_elem_of_singleton.
  - vm_compute. intros d' ->%list_elem_of_singleton. simpl. discriminate.
  - reflexivity.
  - reflexivity.
Qed.

(** Witness of C9: the variable [Default], which GO02 lists among its
    symbols, is no direct hit. *)
Lemma only_functions_witness :
  (∀ recv, Kind (Objs passX 4%positive) ≠ KFunc recv)
  ∧ Name (Objs passX 4%positive) ∈ affectedSymbols "b.com/m/vuln" entryGO02
  ∧ isDirectlyVulnerable passX catalogGO02 4%positive = [].
Proof.
  split; [done|]. split; [vm_compute; set_solver|].
  apply (only_functions_are_directly_vulnerable passX catalogGO02 4%positive).
  done.
Defined.

(** Witness of C6: of the two records of GO02 the one of ecosystem Go
    survives for b.com/m. *)
Lemma filter_selects_witness :
  entryGO02Selected
    ∈ filterOSVEntries "linux" "amd64" alwaysAffected moduleB [entryGO02]
  ∧ goAffected ∈ Osv.AffectedList entryGO02Selected
  ∧ selected moduleB goAffected.
Proof.
  assert (entryGO02Selected
            ∈ filterOSVEntries "linux" "amd64" alwaysAffected moduleB [entryGO02])
    as Hv.
  { assert (filterOSVEntries "linux" "amd64" alwaysAffected moduleB [entryGO02]
            = [entryGO02Selected]) as -> by (vm_compute; reflexivity).
    left. }
  assert (goAffected ∈ Osv.AffectedList entryGO02Selected) as Ha by left.
  split; [done|]. split; [done|].
  apply (filter_selects_go_records_of_the_module "linux" "amd64" alwaysAffected
           moduleB [entryGO02] entryGO02Selected goAffected Hv Ha).
Defined.

(** Witness of C10: an empty catalog file. *)
Lemma empty_catalog_witness :
  onceDone freshGlobals = false
  ∧ vulnsJSONFile freshGlobals ≠ ""
  ∧ filesEmpty (vulnsJSONFile freshGlobals) = Decodes ∅
  ∧ size (∅ : gmap string (list Osv.Entry)) = 0
  ∧ (run filesEmpty asStored freshGlobals passX).1 = Ok noOutput.
Proof.
  split; [reflexivity|]. split; [discriminate|]. split; [reflexivity|].
  split; [reflexivity|].
  apply (empty_catalog_is_a_clean_exit filesEmpty asStored freshGlobals passX ∅);
    [reflexivity|discriminate|reflexivity|reflexivity].
Defined.

Lemma passCycle_graph :
  visitAll passCycle emptyGraph (Nodes passCycle) = Ok (graphOf passCycle).
Proof. vm_compute. reflexivity. Qed.

Lemma passCycle_quiet :
  quiet passCycle catalogGO02 asStored (graphOf passCycle)
        (ObjectFacts passCycle) {[ 1%positive; 2%positive ]}.
Proof.
  intros o Ho. apply elem_of_union in Ho as [->%elem_of_singleton| ->%elem_of_singleton].
  - split; [reflexivity|]. split; [reflexivity|].
    assert (succs passCycle asStored (graphOf passCycle) 1%positive = [2%positive])
      as -> by (vm_compute; reflexivity).
    set_solver.
  - split; [reflexivity|]. split; [reflexivity|].
    assert (succs passCycle asStored (graphOf passCycle) 2%positive = [1%positive])
      as -> by (vm_compute; reflexivity).
    set_solver.
Qed.

(** Witness of C4: [A] and [B] call each other and nothing else. *)
Lemma cycle_witness :
  valid_schedule asStored
  ∧ visitAll passCycle emptyGraph (Nodes passCycle) = Ok (graphOf passCycle)
  ∧ quiet passCycle catalogGO02 asStored (graphOf passCycle)
          (ObjectFacts passCycle) {[ 1%positive; 2%positive ]}
  ∧ dom (refs (graphOf passCycle)) ⊆ {[ 1%positive; 2%positive ]}
  ∧ analyze passCycle catalogGO02 asStored = Ok noOutput.
Proof.
  assert (dom (refs (graphOf passCycle))
          ⊆ ({[ 1%positive; 2%positive ]} : gset ObjId)) as Hmembers.
  { intros m Hm. apply elem_of_elements in Hm. revert Hm.
    assert (elements (dom (refs (graphOf passCycle))) = [2%positive; 1%positive])
      as -> by (vm_compute; reflexivity).
    set_solver. }
  split; [apply asStored_valid|]. split; [apply passCycle_graph|].
  split; [apply passCycle_quiet|]. split; [exact Hmembers|].
  destruct (findPath_terminates_and_cycles_are_silent passCycle catalogGO02
              asStored) as (_ & _ & _ & H).
  apply (H (graphOf passCycle) {[ 1%positive; 2%positive ]}
           asStored_valid passCycle_graph passCycle_quiet Hmembers).
  intros i Hi. apply elem_of_elements in Hi. revert Hi.
  assert (elements (imports (graphOf passCycle)) = [])
    as -> by (vm_compute; reflexivity).
  by intros ?%elem_of_nil.
Defined.

Lemma passX_facts : keyTable hasColon (ObjectFacts passX).
Proof.
  intros o path H k [p Hk]. simpl in H.
  apply lookup_singleton_Some in H as [_ <-]. unfold factVuln in Hk.
  apply lookup_singleton_Some in Hk as [<- _].
  apply (hasColon_app_colon "GO02" "b.com/m/vuln.Vuln").
Qed.

Lemma passX_output :
  analyze passX catalogGO02 asStored = Ok (outputOf passX catalogGO02 asStored).
Proof. vm_compute. reflexivity. Qed.

(** Witness of C8, on package x with the catalog of the test. *)
Lemma facts_witness :
  valid_schedule asStored
  ∧ analyze passX catalogGO02 asStored = Ok (outputOf passX catalogGO02 asStored)
  ∧ ∃ g st, visitAll passX emptyGraph (Nodes passX) = Ok g
    ∧ finalState passX catalogGO02 asStored g = Ok st
    ∧ (∀ m path,
         (m, path) ∈ ObjectFactsOut (outputOf passX catalogGO02 asStored)
         ↔ foundAt passX catalogGO02 asStored g m path ∧ path ≠ ∅
           ∧ Exported (Objs passX m) = true)
    ∧ (packageFactPath st ≠ ∅ →
       PackageFactOut (outputOf passX catalogGO02 asStored)
       = Some (packageFactPath st))
    ∧ (packageFactPath st = ∅ →
       PackageFactOut (outputOf passX catalogGO02 asStored) = None)
    ∧ (∀ k, k ∈ dom (packageFactPath st)
         ↔ importedKey passX (elements (imports g)) k
           ∨ ∃ m path, foundAt passX catalogGO02 asStored g m path
                       ∧ Name (Objs passX m) = "init" ∧ k ∈ dom path).
Proof.
  split; [apply asStored_valid|]. split; [apply passX_output|].
  apply (facts_are_exported_for_exported_members_and_the_package passX
           catalogGO02 asStored (outputOf passX catalogGO02 asStored)
           asStored_valid passX_output).
Defined.

(** Witness of C5: the string not-a-tag. *)
Lemma GoTagToSemver_witness :
  Fields "not-a-tag" = ["not-a-tag"]
  ∧ "not-a-tag" ≠ "go1"
  ∧ ¬ goTag "not-a-tag"
  ∧ GoTagToSemver "not-a-tag" = Ok "".
Proof.
  assert (¬ goTag "not-a-tag") as Hn.
  { intros H%goTag_starts_with_go. discriminate. }
  split; [reflexivity|]. split; [discriminate|]. split; [exact Hn|].
  destruct GoTagToSemver_laws as (_ & _ & _ & _ & _ & _ & H).
  apply (H "not-a-tag" "not-a-tag" []); [reflexivity|discriminate|exact Hn].
Defined.

(** Counterexample to C5 as stated: a string that is no tag of the
    grammar and is not go1, mapped to a version. *)
Lemma GoTagToSemver_keeps_the_first_field :
  ¬ goTag "go1.20.3 linux/amd64"
  ∧ "go1.20.3 linux/amd64" ≠ "go1"
  ∧ GoTagToSemver "go1.20.3 linux/amd64" = Ok "v1.20.3".
Proof.
  split; [|split; [discriminate|reflexivity]].
  intros H%goTag_no_space. apply H. vm_compute.
  do 8 right. left.
Qed.

(** A string of white space has no first field: indexing panics. *)
Lemma GoTagToSemver_blank :
  GoTagToSemver " " = Panic "index out of range [0] with length 0".
Proof. reflexivity. Qed.

End Witnesses.

(** * The rest of osvutil, the summaries and the loader *)

Opaque Analysis.enoughFuel.

(** ** [Split], [Count] and [LastIndex] *)

Section SplitFacts.
Import GoStrings Splitting.

Lemma Split_cons (a sep : ascii) (s : string) :
  Split (String a s) sep
  = if Ascii.eqb a sep then "" :: Split s sep
    else match Split s sep with
         | x :: l => String a x :: l
         | [] => []
         end.
Proof.
  unfold Split. simpl. destruct (splitByte s sep) as [x l].
  by destruct (Ascii.eqb a sep).
Qed.

Lemma Split_nonempty (s : string) (sep : ascii) : Split s sep ≠ [].
Proof. unfold Split. by destruct (splitByte s sep). Qed.

Lemma Split_length (s : string) (sep : ascii) :
  length (Split s sep) = S (Count s sep).
Proof.
  induction s as [|a s IH]; [done|].
  rewrite Split_cons. simpl. destruct (Ascii.eqb a sep); simpl.
  - by rewrite IH.
  - destruct (Split s sep); simpl in *; done.
Qed.

Lemma Join_cons_cons (x y : string) (l : list string) (sep : string) :
  Join (x :: y :: l) sep = x ++ sep ++ Join (y :: l) sep.
Proof. reflexivity. Qed.

Lemma Join_Split (s : string) (sep : ascii) :
  Join (Split s sep) (String sep "") = s.
Proof.
  induction s as [|a s IH]; [done|].
  rewrite Split_cons. destruct (Ascii.eqb_spec a sep) as [->|Hne].
  - pose proof (Split_nonempty s sep).
    destruct (Split s sep) as [|x l] eqn:E; [done|].
    rewrite Join_cons_cons, IH. done.
  - pose proof (Split_nonempty s sep).
    destruct (Split s sep) as [|x l] eqn:E; [done|].
    destruct l as [|y l].
    + simpl in *. by rewrite IH.
    + rewrite Join_cons_cons in *. rewrite app_cons. by rewrite IH.
Qed.

Lemma Split_no_sep (s : string) (sep : ascii) :
  sep ∉ list_ascii_of_string s → Split s sep = [s].
Proof.
  induction s as [|a s IH]; [done|].
  simpl. rewrite not_elem_of_cons. intros [Hne Hs].
  rewrite Split_cons, IH by done.
  destruct (Ascii.eqb_spec a sep); congruence.
Qed.

Lemma Split_app (x s : string) (sep : ascii) :
  sep ∉ list_ascii_of_string x →
  Split (x ++ String sep s) sep = x :: Split s sep.
Proof.
  induction x as [|a x IH]; intros Hx.
  - rewrite app_empty, Split_cons. by rewrite Ascii.eqb_refl.
  - simpl in Hx. rewrite not_elem_of_cons in Hx. destruct Hx as [Hne Hx].
    rewrite app_cons, Split_cons, IH by done.
    destruct (Ascii.eqb_spec a sep); congruence.
Qed.

(** The fields of a join are the joined strings. *)
Lemma Split_Join (l : list string) (sep : ascii) :
  l ≠ [] → (∀ x, x ∈ l → sep ∉ list_ascii_of_string x) →
  Split (Join l (String sep "")) sep = l.
Proof.
  induction l as [|x l IH]; [done|]. intros _ Hl.
  destruct l as [|y l].
  - simpl. apply Split_no_sep, Hl. by left.
  - rewrite Join_cons_cons.
    change (String sep "" ++ Join (y :: l) (String sep ""))
      with (String sep (Join (y :: l) (String sep ""))).
    rewrite Split_app by (apply Hl; by left).
    f_equal. apply IH; [done|]. intros z Hz. apply Hl. by right.
Qed.

Lemma Split_fields_no_sep (s : string) (sep : ascii) (x : string) :
  x ∈ Split s sep → sep ∉ list_ascii_of_string x.
Proof.
  revert x. induction s as [|a s IH]; intros x.
  - intros ->%list_elem_of_singleton. apply not_elem_of_nil.
  - rewrite Split_cons. destruct (Ascii.eqb_spec a sep) as [->|Hne].
    + intros [->|Hx]%elem_of_cons; [apply not_elem_of_nil|by apply IH].
    + destruct (Split s sep) as [|y l] eqn:E; [by intros ?%elem_of_nil|].
      intros [->|Hx]%elem_of_cons.
      * simpl. apply not_elem_of_cons. split; [congruence|].
        apply IH. by left.
      * apply IH. by right.
Qed.

End SplitFacts.

(** ** The platform, the environment and the modules *)

Section OsvutilFacts.
Import GoStrings Splitting Osvutil OsvutilEnv.

Lemma existsb_eqb (x : string) (l : list string) :
  existsb (λ y, String.eqb x y) l = true ↔ x ∈ l.
Proof.
  rewrite existsb_exists. split.
  - intros (y & Hy%list_elem_of_In & ->%String.eqb_eq). done.
  - intros Hx. exists x. split; [by apply list_elem_of_In|apply String.eqb_refl].
Qed.

(** X1. An import matches the platform when each of its two lists is empty or
    names the platform. *)
Theorem matchesPlatform_iff (os arch : string) (e : Osv.EcosystemSpecificImport) :
  matchesPlatform os arch e = true
  ↔ (Osv.GOOS e = [] ∨ os ∈ Osv.GOOS e)
    ∧ (Osv.GOARCH e = [] ∨ arch ∈ Osv.GOARCH e).
Proof.
  unfold matchesPlatform. rewrite andb_true_iff.
  assert (∀ x l, (if existsb (λ y, String.eqb x y) l then true
                  else Nat.eqb (length l) 0) = true ↔ l = [] ∨ x ∈ l) as H.
  { intros x l. destruct (existsb _ l) eqn:E.
    - apply existsb_eqb in E. tauto.
    - rewrite length_zero_iff. split; [tauto|]. intros [?|Hx]; [done|].
      apply existsb_eqb in Hx. congruence. }
  by rewrite !H.
Qed.

Lemma IndexByte_None (s : string) (c : ascii) :
  IndexByte s c = None ↔ c ∉ list_ascii_of_string s.
Proof.
  induction s as [|a s IH]; simpl.
  - split; [intros _; apply not_elem_of_nil|done].
  - rewrite not_elem_of_cons. destruct (Ascii.eqb_spec a c) as [->|Hne].
    + split; [done|]. by intros [? _].
    + destruct (IndexByte s c); simpl.
      * split; [done|]. intros [_ H]. by apply IH in H.
      * split; [|done]. intros _. split; [congruence|]. by apply IH.
Qed.

Lemma IndexByte_app (x s : string) (c : ascii) :
  c ∉ list_ascii_of_string x →
  IndexByte (x ++ String c s) c = Some (String.length x)
  ∧ take (String.length x) (x ++ String c s) = x.
Proof.
  induction x as [|a x IH]; intros Hx.
  - rewrite app_empty. simpl. by rewrite Ascii.eqb_refl.
  - simpl in Hx. rewrite not_elem_of_cons in Hx. destruct Hx as [Hne Hx].
    rewrite app_cons. simpl. destruct (IH Hx) as [-> ->].
    destruct (Ascii.eqb_spec a c); [congruence|done].
Qed.

(** X2. The empty path is no standard-library path; a path that begins with a
    slash is one; any other path is one exactly when the bytes before its
    first slash hold no dot, whatever follows the slash. *)
Theorem isStdPackage_first_segment :
  isStdPackage "" = false
  ∧ (∀ rest, isStdPackage ("/" ++ rest) = true)
  ∧ (∀ seg, seg ≠ "" → "/"%char ∉ list_ascii_of_string seg →
       (isStdPackage seg = true ↔ "."%char ∉ list_ascii_of_string seg)
       ∧ ∀ rest, isStdPackage (seg ++ "/" ++ rest) = isStdPackage seg).
Proof.
  split; [done|]. split; [done|].
  intros seg Hne Hs.
  assert (isStdPackage seg = negb (Contains seg ".")) as Hseg.
  { unfold isStdPackage. destruct (String.eqb_spec seg ""); [done|].
    apply IndexByte_None in Hs. by rewrite Hs. }
  split.
  - rewrite Hseg, negb_true_iff, <- Contains_dot. by destruct (Contains _ _).
  - intros rest. rewrite Hseg. unfold isStdPackage.
    destruct (String.eqb_spec (seg ++ "/" ++ rest) "") as [E|_].
    { destruct seg; [done|]. rewrite app_cons in E. discriminate. }
    change ("/" ++ rest) with (String "/" rest).
    destruct (IndexByte_app seg rest "/" Hs) as [-> ->]. done.
Qed.

Lemma effectiveModule_fix_unfold (m : Packages.Module) :
  effectiveModule_fix m
  = match Packages.Replace m with
    | None => m
    | Some r => effectiveModule_fix r
    end.
Proof. by destruct m. Qed.

Lemma effectiveModule_fix_no_replace (m : Packages.Module) :
  Packages.Replace (effectiveModule_fix m) = None.
Proof.
  revert m. fix IH 1. intros [path version [r|]].
  - rewrite effectiveModule_fix_unfold. simpl. apply IH.
  - done.
Qed.

(** X3. The effective module is not replaced, so the filter reads its own
    version; and when the replacement of a module is not replaced in turn,
    the key of the module names its effective module. *)
Theorem effectiveModule_ends_the_replacements (m : Packages.Module) :
  Packages.Replace (effectiveModule_fix m) = None
  ∧ effectiveModule_fix (effectiveModule_fix m) = effectiveModule_fix m
  ∧ modVersion (effectiveModule_fix m) = Packages.Version (effectiveModule_fix m)
  ∧ ((∀ r, Packages.Replace m = Some r → Packages.Replace r = None) →
       modKey m = Packages.Path (effectiveModule_fix m) ++ "@"
                  ++ Packages.Version (effectiveModule_fix m)).
Proof.
  pose proof (effectiveModule_fix_no_replace m) as H.
  split; [done|]. split; [|split].
  - rewrite (effectiveModule_fix_unfold (effectiveModule_fix m)). by rewrite H.
  - unfold modVersion. by rewrite H.
  - intros Hr. unfold modKey. rewrite (effectiveModule_fix_unfold m).
    destruct (Packages.Replace m) as [r|] eqn:E; [|done].
    rewrite effectiveModule_fix_unfold, (Hr r) by done. done.
Qed.

Lemma trim_right_no_leading fuel (l : list ascii) :
  leading_space l = None → leading_space (trim_right fuel l) = None.
Proof. apply leading_space_prefix, trim_right_prefix. Qed.

Lemma TrimSpace_trimmed (s : string) :
  leading_space (list_ascii_of_string (TrimSpace s)) = None
  ∧ trailing_space (list_ascii_of_string (TrimSpace s)) = None.
Proof.
  unfold TrimSpace. rewrite list_ascii_of_string_of_list_ascii. split.
  - apply trim_right_no_leading. by apply trim_left_done.
  - by apply trim_right_done.
Qed.

(** X4. Normalising keeps the number and the order of the entries and all their
    fields but the details; the details come out without line feed and
    without white space at either end, every byte of them being a byte of
    the original or a space. *)
Theorem normalizeOSVEntries_details (module : Packages.Module)
    (vulns : list Osv.Entry) (i : nat) (v : Osv.Entry) :
  vulns !! i = Some v →
  ∃ v', normalizeOSVEntries module vulns !! i = Some v'
    ∧ length (normalizeOSVEntries module vulns) = length vulns
    ∧ Osv.ID v' = Osv.ID v ∧ Osv.AffectedList v' = Osv.AffectedList v
    ∧ Osv.Aliases v' = Osv.Aliases v ∧ Osv.References v' = Osv.References v
    ∧ Osv.Published v' = Osv.Published v ∧ Osv.Modified v' = Osv.Modified v
    ∧ ("010"%char ∉ list_ascii_of_string (Osv.Details v'))
    ∧ leading_space (list_ascii_of_string (Osv.Details v')) = None
    ∧ trailing_space (list_ascii_of_string (Osv.Details v')) = None
    ∧ (∀ c, c ∈ list_ascii_of_string (Osv.Details v') →
            c = " "%char ∨ c ∈ list_ascii_of_string (Osv.Details v)).
Proof.
  intros Hi. exists (normalizeEntry v). unfold normalizeOSVEntries.
  rewrite list_lookup_fmap, Hi, length_fmap. simpl.
  repeat (split; [done|]).
  split; [|split; [apply TrimSpace_trimmed|split; [apply TrimSpace_trimmed|]]].
  - intros H%TrimSpace_bytes. by apply replace_byte_gone in H.
  - intros c Hc%TrimSpace_bytes. revert Hc.
    induction (Osv.Details v) as [|a s IH]; simpl.
    + by intros ?%elem_of_nil.
    + intros [->|Hc]%elem_of_cons.
      * destruct (Ascii.eqb a "010"); [by left|right; by left].
      * destruct (IH Hc); [by left|right; by right].
Qed.

Lemma find_cons {A} (f : A → bool) (x : A) (l : list A) :
  List.find f (x :: l) = if f x then Some x else List.find f l.
Proof. reflexivity. Qed.

Lemma find_prefix_first (l : list string) (kv : string) :
  List.find (λ kv, HasPrefix kv "GOVULNDB=") l = Some kv →
  ∃ pre post, l = (pre ++ kv :: post)%list
    ∧ HasPrefix kv "GOVULNDB=" = true
    ∧ ∀ x, x ∈ pre → HasPrefix x "GOVULNDB=" = false.
Proof.
  induction l as [|x l IH]; [done|]. rewrite find_cons. cbv beta.
  destruct (HasPrefix x "GOVULNDB=") eqn:E.
  - intros [= <-]. exists [], l. split; [done|]. split; [done|].
    by intros ? ?%elem_of_nil.
  - intros (pre & post & -> & ? & Hpre)%IH. exists (x :: pre), post.
    split; [done|]. split; [done|].
    intros y [->|Hy]%elem_of_cons; [done|by apply Hpre].
Qed.

(** X5. The list of databases is never empty.  The first entry GOVULNDB=value
    of the configuration decides, even when value is empty; then the
    variable of the process when it is set and not empty; then the default.
    The list joined by commas is the value that decided. *)
Theorem FindGOVULNDB_sources (cfgEnv : list string) (env : Environ) :
  FindGOVULNDB cfgEnv env ≠ []
  ∧ (∀ pre value post,
       cfgEnv = (pre ++ ("GOVULNDB=" ++ value)%string :: post)%list →
       (∀ x, x ∈ pre → HasPrefix x "GOVULNDB=" = false) →
       Join (FindGOVULNDB cfgEnv env) "," = value
       ∧ (value = "" → FindGOVULNDB cfgEnv env = [""]))
  ∧ ((∀ x, x ∈ cfgEnv → HasPrefix x "GOVULNDB=" = false) →
       (∀ value, env !! "GOVULNDB" = Some value → value ≠ "" →
          Join (FindGOVULNDB cfgEnv env) "," = value)
       ∧ (env !! "GOVULNDB" = None ∨ env !! "GOVULNDB" = Some "" →
          FindGOVULNDB cfgEnv env = ["https://vuln.go.dev"])).
Proof.
  split; [|split].
  - unfold FindGOVULNDB. destruct (List.find _ _); [apply Split_nonempty|].
    destruct (negb _); [apply Split_nonempty|done].
  - intros pre value post -> Hpre.
    assert (List.find (λ kv, HasPrefix kv "GOVULNDB=")
              (pre ++ ("GOVULNDB=" ++ value)%string :: post)
            = Some ("GOVULNDB=" ++ value)) as Hfind.
    { induction pre as [|x pre IH].
      - rewrite app_nil_l, find_cons. cbv beta.
        assert (HasPrefix ("GOVULNDB=" ++ value) "GOVULNDB=" = true) as ->; [|done].
        apply HasPrefix_iff. by exists value.
      - rewrite <- app_comm_cons, find_cons. cbv beta.
        rewrite (Hpre x) by left. apply IH. intros y Hy. apply Hpre. by right. }
    unfold FindGOVULNDB. rewrite Hfind, drop_app_length.
    split; [apply Join_Split|]. by intros ->.
  - intros Hnone.
    assert (List.find (λ kv, HasPrefix kv "GOVULNDB=") cfgEnv = None) as Hfind.
    { destruct (List.find _ _) as [kv|] eqn:E; [|done].
      apply find_prefix_first in E as (pre & post & -> & Hkv & _).
      rewrite Hnone in Hkv; [done|]. apply elem_of_app. right. by left. }
    unfold FindGOVULNDB, Getenv. rewrite Hfind. split.
    + intros value -> Hne. simpl.
      destruct (String.eqb_spec value ""); [done|]. apply Join_Split.
    + by intros [->| ->].
Qed.

Lemma fields_from_cur (s : string) (skip : nat) (cur : string) :
  cur ≠ "" → fields_from s skip cur ≠ [].
Proof.
  revert skip cur. induction s as [|a s IH]; intros skip cur Hcur.
  - simpl. by destruct (String.eqb_spec cur "").
  - change (fields_from (String a s) skip cur)
      with (let flush := if String.eqb cur "" then [] else [cur] in
            match skip with
            | S k => fields_from s k cur
            | 0 => match space_width (String a s) with
                   | Some w => (flush ++ fields_from s (w - 1) "")%list
                   | None => fields_from s 0 (cur ++ String a "")
                   end
            end).
    simpl. destruct skip; [|by apply IH].
    destruct (space_width _).
    + by destruct (String.eqb_spec cur "").
    + apply IH. by destruct cur.
Qed.

Lemma Fields_of_trimmed (s : string) :
  s ≠ "" → leading_space (list_ascii_of_string s) = None → Fields s ≠ [].
Proof.
  intros Hne Hs. destruct s as [|a s]; [done|].
  unfold Fields.
  change (fields_from (String a s) 0 "")
    with (match space_width (String a s) with
          | Some w => ([] ++ fields_from s (w - 1) "")%list
          | None => fields_from s 0 ("" ++ String a "")
          end).
  unfold space_width. rewrite Hs. simpl. by apply fields_from_cur.
Qed.

Lemma GoTagToSemver_panics (tag : string) (msg : string) :
  GoTagToSemver tag = Panic msg ↔ tag ≠ "" ∧ Fields tag = [] ∧ msg = "index out of range [0] with length 0".
Proof.
  unfold GoTagToSemver. destruct (String.eqb_spec tag "") as [->|Hne].
  - split; [done|]. by intros [? _].
  - destruct (Fields tag) as [|t l].
    + split; [intros [= <-]; done|]. by intros (_ & _ & ->).
    + split; [|by intros (_ & ? & _)].
      destruct (String.eqb t "go1"); [done|].
      destruct (String.eqb t "go1.0"); [done|].
      by destruct (Regexp.FindStringSubmatch _ _).
Qed.

(** X6. The version of the toolchain is the variable GOVERSION when it is set
    and not empty, the empty string when the go command fails, and else
    the output of the command without the white space around it.
    Converting it panics exactly when GOVERSION is set to white space
    only: the output of the command never makes it panic. *)
Theorem GoTagToSemver_of_goVersion (env : Environ) (out : string)
    (err : option string) :
  (∀ msg, GoTagToSemver (goVersion env out err) = Panic msg
     ↔ msg = "index out of range [0] with length 0"
       ∧ ∃ v, env !! "GOVERSION" = Some v ∧ v ≠ "" ∧ Fields v = [])
  ∧ ((env !! "GOVERSION" = None ∨ env !! "GOVERSION" = Some "") →
       goVersion env out err
       = match err with Some _ => "" | None => TrimSpace out end).
Proof.
  split.
  - intros msg. rewrite GoTagToSemver_panics. unfold goVersion, Getenv.
    destruct (env !! "GOVERSION") as [v|] eqn:E; simpl.
    + destruct (String.eqb_spec v "") as [->|Hv]; simpl.
      * split.
        -- intros (Hne & Hf & _). exfalso. destruct err; [done|].
           pose proof (TrimSpace_trimmed out) as [Hl _].
           by apply Fields_of_trimmed in Hl.
        -- by intros (_ & v & [= <-] & ? & _).
      * split.
        -- intros (_ & Hf & ->). split; [done|]. by exists v.
        -- by intros (-> & v' & [= <-] & _ & Hf).
    + split.
      * intros (Hne & Hf & _). exfalso. destruct err; [done|].
        pose proof (TrimSpace_trimmed out) as [Hl _].
        by apply Fields_of_trimmed in Hl.
      * by intros (_ & v & ? & _).
  - unfold goVersion, Getenv. by intros [->| ->].
Qed.

End OsvutilFacts.

(** ** Folds that file under keys *)

Section GroupingFacts.
Import Grouping.
Context {K : Type} `{Countable K} {V D : Type}.
Variable key : D → K.
Variable init : D → V.
Variable upd : V → D → V.

Abbreviation groupStep := (groupStep key init upd).
Abbreviation ofGroup := (ofGroup init upd).
Abbreviation group := (group key).

Lemma ofGroup_snoc (l : list D) (d : D) :
  ofGroup (l ++ [d])
  = Some match ofGroup l with
         | None => init d
         | Some v => upd v d
         end.
Proof. destruct l as [|d0 l]; simpl; [done|]. by rewrite foldl_app. Qed.

Lemma group_snoc (k : K) (l : list D) (d : D) :
  group k (l ++ [d]) = (group k l ++ if bool_decide (key d = k) then [d] else [])%list.
Proof. unfold Grouping.group. rewrite List.filter_app. done. Qed.

(** A fold that files each element under its key holds, for each key, the
    fold of the elements of that key. *)
Lemma foldl_groupStep (l : list D) (k : K) :
  foldl groupStep ∅ l !! k = ofGroup (group k l).
Proof.
  induction l as [|d l IH] using rev_ind; [done|].
  rewrite foldl_app, group_snoc. simpl. unfold Grouping.groupStep at 1.
  case_bool_decide as Hk.
  - subst k. rewrite lookup_insert. rewrite ofGroup_snoc, <- IH.
    destruct (decide (key d = key d)); done.
  - rewrite lookup_insert_ne by done. by rewrite app_nil_r.
Qed.

End GroupingFacts.

(** ** [parseObjectNameStr] *)

Section ParseFacts.
Import GoStrings Splitting Analysis Quickcheck.

Lemma bytes_app (x y : string) :
  list_ascii_of_string (x ++ y)
  = (list_ascii_of_string x ++ list_ascii_of_string y)%list.
Proof.
  induction x as [|a x IH]; [done|]. rewrite app_cons. simpl. by rewrite IH.
Qed.

Lemma LastIndex_None (s : string) (c : ascii) :
  LastIndex s c = None ↔ c ∉ list_ascii_of_string s.
Proof.
  induction s as [|a s IH]; simpl.
  - split; [intros _; apply not_elem_of_nil|done].
  - rewrite not_elem_of_cons. destruct (LastIndex s c).
    + split; [done|]. intros [_ Hs]. by apply IH in Hs.
    + destruct (Ascii.eqb_spec a c) as [->|Hne].
      * split; [done|]. by intros [? _].
      * split; [|done]. intros _. split; [congruence|]. by apply IH.
Qed.

(** The last [c] of [s] splits it into a part that ends before it and a
    part that starts with it and holds no other. *)
Lemma LastIndex_Some (s : string) (c : ascii) (i : nat) :
  LastIndex s c = Some i →
  ∃ tail, s = take i s ++ String c tail ∧ drop i s = String c tail
          ∧ c ∉ list_ascii_of_string tail.
Proof.
  revert i. induction s as [|a s IH]; intros i; simpl; [done|].
  destruct (LastIndex s c) as [j|] eqn:E.
  - intros [= <-]. destruct (IH j eq_refl) as (tail & Hs & Hd & Ht).
    exists tail. simpl. rewrite app_cons, <- Hs. done.
  - destruct (Ascii.eqb_spec a c) as [->|Hne]; [|done].
    intros [= <-]. exists s. simpl. rewrite app_empty.
    split; [done|]. split; [done|]. by apply LastIndex_None.
Qed.

Lemma LastIndex_app (x tail : string) (c : ascii) :
  c ∉ list_ascii_of_string tail →
  LastIndex (x ++ String c tail) c = Some (String.length x).
Proof.
  intros Ht. induction x as [|a x IH].
  - rewrite app_empty. simpl. apply LastIndex_None in Ht. rewrite Ht.
    by rewrite Ascii.eqb_refl.
  - rewrite app_cons. simpl. by rewrite IH.
Qed.

Lemma take_app_length (x y : string) : take (String.length x) (x ++ y) = x.
Proof.
  induction x as [|a x IH]; [by destruct y|]. rewrite app_cons. simpl.
  by rewrite IH.
Qed.

Lemma Cut_byte_cons (c a : ascii) (s : string) :
  Cut (String a s) (String c "")
  = if bool_decide (c = a) then ("", s, true)
    else let '(before, after, found) := Cut s (String c "") in
         (String a before, after, found).
Proof.
  change (Cut (String a s) (String c ""))
    with (if String.prefix (String c "") (String a s) then ("", s, true)
          else let '(before, after, found) := Cut s (String c "") in
               (String a before, after, found)).
  by rewrite prefix_byte.
Qed.

Lemma Cut_byte_app (c : ascii) (x y : string) :
  c ∉ list_ascii_of_string x →
  Cut (x ++ String c y) (String c "") = (x, y, true).
Proof.
  induction x as [|a x IH]; intros Hx.
  - rewrite app_empty, Cut_byte_cons. by rewrite bool_decide_eq_true_2.
  - simpl in Hx. rewrite not_elem_of_cons in Hx. destruct Hx as [Hne Hx].
    rewrite app_cons, Cut_byte_cons.
    rewrite bool_decide_eq_false_2 by done. by rewrite IH.
Qed.

Lemma Cut_byte_found (c : ascii) (s before after : string) :
  Cut s (String c "") = (before, after, true) →
  s = before ++ String c after ∧ c ∉ list_ascii_of_string before.
Proof.
  revert before. induction s as [|a s IH]; intros before.
  - done.
  - rewrite Cut_byte_cons. case_bool_decide as Hc.
    + intros [= <- <-]. subst a. split; [done|]. apply not_elem_of_nil.
    + destruct (Cut s (String c "")) as [[b af] f] eqn:E.
      intros [= <- <- ->]. destruct (IH b eq_refl) as [-> Hb].
      split; [done|]. simpl. apply not_elem_of_cons. by split.
Qed.

Lemma Cut_byte_not_found (c : ascii) (s before after : string) :
  Cut s (String c "") = (before, after, false) →
  c ∉ list_ascii_of_string s.
Proof.
  revert before. induction s as [|a s IH]; intros before.
  - intros _. apply not_elem_of_nil.
  - rewrite Cut_byte_cons. case_bool_decide as Hc; [done|].
    destruct (Cut s (String c "")) as [[b af] f] eqn:E.
    intros [= <- <- ->]. simpl. apply not_elem_of_cons. split; [done|].
    by eapply IH.
Qed.

(** X22. A name made of a package path with a slash, whose last element
    holds no dot, of a dot and of a symbol without slash is split into that
    path and that symbol. *)
Theorem parseObjectNameStr_round_trip (dir base name : string) :
  "/"%char ∉ list_ascii_of_string base →
  "."%char ∉ list_ascii_of_string base →
  "/"%char ∉ list_ascii_of_string name →
  parseObjectNameStr ((dir ++ "/" ++ base) ++ "." ++ name)
  = (dir ++ "/" ++ base, name).
Proof.
  intros Hb Hd Hn.
  assert ((dir ++ "/" ++ base) ++ "." ++ name
          = dir ++ String "/" (base ++ "." ++ name)) as ->.
  { by rewrite !app_assoc'. }
  unfold parseObjectNameStr.
  rewrite LastIndex_app.
  2:{ rewrite bytes_app. change ("." ++ name) with (String "." name). simpl.
      rewrite elem_of_app, elem_of_cons. intros [?|[?|?]]; done. }
  rewrite take_app_length, drop_app_length.
  change (String "/" (base ++ "." ++ name))
    with (String "/" base ++ String "." name).
  rewrite Cut_byte_app.
  2:{ simpl. rewrite elem_of_cons. intros [?|?]; done. }
  done.
Qed.


End ParseFacts.

(** ** The message of a diagnostic, cut at the tabs *)

Section WireFacts.
Import GoStrings Splitting Types Analysis.

Lemma Join_cons (x : string) (l : list string) (sep : string) :
  l ≠ [] → Join (x :: l) sep = x ++ sep ++ Join l sep.
Proof. by destruct l. Qed.

Lemma Join_prefix (pre x : string) (l : list string) (sep : string) :
  pre ++ Join (x :: l) sep = Join ((pre ++ x) :: l) sep.
Proof.
  destruct l as [|y l]; [done|]. rewrite !Join_cons_cons. by rewrite app_assoc'.
Qed.

(** The message of a diagnostic, cut at the tabs, is the path again, with the
    id and a bar before its first element. *)
Lemma Split_Message (pass : Pass) (m : ObjId) (vuln x : string)
    (p : list string) :
  let id := (Cut vuln ":").1.1 in
  "009"%char ∉ list_ascii_of_string id →
  (∀ y, y ∈ x :: p → "009"%char ∉ list_ascii_of_string y) →
  Split (Message (diagnostic pass m vuln (x :: p))) "009"
  = (id ++ "|" ++ x) :: p.
Proof.
  intros id Hid Hp. unfold diagnostic. cbn [Message]. fold id.
  rewrite (Join_prefix "|"), Join_prefix. unfold tab.
  apply Split_Join; [done|].
  intros y [->|Hy]%elem_of_cons.
  - rewrite !bytes_app. simpl. rewrite elem_of_app, elem_of_cons.
    intros [?|[?|?]]; [done..|]. by apply (Hp x); [left|].
  - apply Hp. by right.
Qed.

End WireFacts.

(** ** The summary loop of [Analyze] *)

Section QuickcheckFacts.
Import GoStrings Splitting Types Analysis Quickcheck Grouping.
Variable pkg2vulns : gmap string (list Osv.Entry).

Abbreviation keyOr := (keyOr pkg2vulns).

Lemma summaryStep_Ok (summary : gmap Key Value) (d : Diagnostic) (k : Key) :
  keyOf pkg2vulns d = Ok k →
  summaryStep pkg2vulns summary d = Ok (groupStep keyOr first next summary d).
Proof.
  intros Hk. unfold summaryStep, groupStep, keyOr. rewrite Hk. simpl.
  by destruct (summary !! k).
Qed.

Lemma summaryStep_fails (summary : gmap Key Value) (d : Diagnostic) :
  (∀ k, keyOf pkg2vulns d ≠ Ok k) →
  ∃ msg, keyOf pkg2vulns d = Panic msg
         ∧ summaryStep pkg2vulns summary d = Panic msg.
Proof.
  intros Hk. unfold summaryStep.
  destruct (keyOf pkg2vulns d) as [k|e|msg] eqn:E.
  - by destruct (Hk k).
  - exfalso. revert E. unfold keyOf.
    destruct (Cut _ _) as [[? ?] []]; simpl; [|done].
    destruct (parseObjectNameStr _). destruct (default _ _) as [|v ?]; simpl; [done|].
    by destruct (Osv.AffectedList v).
  - by exists msg.
Qed.

Lemma foldResult_summary (l : list Diagnostic) (summary0 : gmap Key Value) :
  (∀ d, d ∈ l → ∃ k, keyOf pkg2vulns d = Ok k) →
  foldResult (summaryStep pkg2vulns) summary0 l
  = Ok (foldl (groupStep keyOr first next) summary0 l).
Proof.
  revert summary0. induction l as [|d l IH]; intros summary0 Hl; [done|].
  destruct (Hl d) as [k Hk]; [by left|].
  change (foldResult (summaryStep pkg2vulns) summary0 (d :: l))
    with (summaryStep pkg2vulns summary0 d
            ≫= λ s, foldResult (summaryStep pkg2vulns) s l).
  rewrite (summaryStep_Ok _ _ k Hk). simpl. apply IH.
  intros d' Hd'. apply Hl. by right.
Qed.

Lemma foldResult_summary_Ok (l : list Diagnostic)
    (summary0 summary : gmap Key Value) :
  foldResult (summaryStep pkg2vulns) summary0 l = Ok summary →
  ∀ d, d ∈ l → ∃ k, keyOf pkg2vulns d = Ok k.
Proof.
  revert summary0. induction l as [|d l IH]; intros summary0;
    [by intros _ ? ?%elem_of_nil|].
  change (foldResult (summaryStep pkg2vulns) summary0 (d :: l))
    with (summaryStep pkg2vulns summary0 d
            ≫= λ s, foldResult (summaryStep pkg2vulns) s l).
  destruct (summaryStep pkg2vulns summary0 d) as [s| |] eqn:E; simpl; [|done..].
  intros Hl d' [->|Hd']%elem_of_cons; [|by eapply IH].
  unfold summaryStep in E.
  destruct (keyOf pkg2vulns d) as [k| |]; [by exists k|done..].
Qed.

Lemma wrap64_small (z : Z) : (- 2 ^ 63 ≤ z < 2 ^ 63)%Z → wrap64 z = z.
Proof. intros Hz. unfold wrap64. rewrite Z.mod_small; lia. Qed.

(** The value a group of diagnostics ends with: the count of the group and
    the trace of the last diagnostic of least length. *)
Lemma foldl_next (d0 : Diagnostic) (l : list Diagnostic) :
  let value := foldl next (first d0) l in
  ((Z.of_nat (length (d0 :: l)) < 2 ^ 63)%Z →
     Count value = Z.of_nat (length (d0 :: l)))
  ∧ ∃ pre d post,
      d0 :: l = (pre ++ d :: post)%list
      ∧ Trace value = Split (Message d) "009"
      ∧ (∀ d', d' ∈ pre →
           (length (Split (Message d) "009")
            ≤ length (Split (Message d') "009"))%nat)
      ∧ (∀ d', d' ∈ post →
           (length (Split (Message d) "009")
            < length (Split (Message d') "009"))%nat).
Proof.
  induction l as [|e l IH] using rev_ind.
  - simpl. split; [done|]. exists [], d0, []. split; [done|]. split; [done|].
    split; by intros ? ?%elem_of_nil.
  - intros value. unfold value. rewrite foldl_app. simpl.
    destruct IH as [Hc (pre & d & post & Hl & Ht & Hpre & Hpost)].
    set (v := foldl next (first d0) l) in *.
    assert (Count (next v e) = wrap64 (Count v + 1)) as Hcount.
    { unfold next. by destruct (Nat.ltb _ _). }
    split.
    + rewrite Hcount. simpl in *. rewrite length_app. simpl. intros Hlen.
      rewrite Hc by lia. rewrite wrap64_small; lia.
    + unfold next. pose proof (Split_length (Message e) "009") as He.
      destruct (Nat.ltb_spec (Splitting.Count (Message e) "009")
                             (length (Trace v))) as [Hlt|Hge].
      * exists (d0 :: l), e, []. simpl.
        split; [by rewrite app_comm_cons|]. split; [done|].
        split; [|by intros ? ?%elem_of_nil].
        intros d'. rewrite Hl, elem_of_app, elem_of_cons.
        rewrite Ht in Hlt.
        intros [Hd'|[->|Hd']].
        -- apply Hpre in Hd'. lia.
        -- lia.
        -- apply Hpost in Hd'. lia.
      * exists pre, d, (post ++ [e])%list. simpl.
        split; [rewrite app_comm_cons, Hl; by rewrite <- app_assoc|].
        split; [done|]. split; [done|].
        intros d' [Hd'| ->%list_elem_of_singleton]%elem_of_app; [by apply Hpost|].
        rewrite Ht in Hge. lia.
Qed.

End QuickcheckFacts.

(** ** The colon of the keys *)

Section ColonFacts.
Import GoStrings Splitting Types Analysis.

(** X13. When the keys of the facts a pass imports hold a colon, so do the
    categories of all its diagnostics and the keys of the facts it exports:
    the format of the keys is kept from package to package. *)
Theorem keys_keep_their_colon (pass : Pass) (catalog : Catalog)
    (sched : Schedule) (out : Output) :
  keyTable hasColon (ObjectFacts pass) →
  (∀ imported fact, PackageFacts pass !! imported = Some fact →
                    goodKeys hasColon fact) →
  analyze pass catalog sched = Ok out →
  (∀ d, d ∈ Diagnostics out → hasColon (Category d))
  ∧ (∀ o path, (o, path) ∈ ObjectFactsOut out → goodKeys hasColon path)
  ∧ (∀ path, PackageFactOut out = Some path → goodKeys hasColon path).
Proof.
  intros Hobj Hpkg (g & st & Hg & Hst & -> & -> & Hp)%analyze_Ok.
  unfold finalState in Hst.
  destruct (afterImports pass sched g) as [st0| |] eqn:H0; simpl in Hst;
    try discriminate.
  assert (∀ m path k, visited pass catalog sched g st0 (membersOf sched g) m path →
            is_Some (path !! k) → hasColon k) as Hvisited.
  { intros m path k Hv [p Hk].
    assert (foundAt pass catalog sched g m path) as Hf by (exists st0; done).
    eapply (foundAt_good pass catalog sched g hasColon) in Hf; [| |done].
    - by destruct (Hf k p Hk).
    - intros o v _. apply hasColon_app_colon. }
  assert (∀ k, importedKey pass (importsOf sched g) k → hasColon k) as Himp.
  { intros k (i & dcl & imp & fact & _ & _ & Hf & Hk).
    apply (Hpkg imp fact Hf). by apply elem_of_dom. }
  pose proof H0 as Himports. unfold afterImports in Himports.
  destruct (foldResult (importStep pass) ([], ∅) (importsOf sched g))
    as [r| |] eqn:Hr; simpl in Himports; try discriminate.
  injection Himports as <-.
  split; [|split].
  - intros d Hd.
    destruct (loop_diags_origin _ _ _ _ _ _ _ _ Hst Hd)
      as [Hd0|(m & path & k & q & Hv & Hk & ->)].
    + simpl in Hd0.
      destruct (imports_diags_origin _ _ _ _ _ Hr Hd0) as [[]%elem_of_nil|?].
      by apply Himp.
    + simpl. eapply Hvisited; [done|]. by rewrite Hk.
  - intros o path Ho.
    apply (loop_exported _ _ _ _ _ _ _ _ _ Hst) in Ho as [Ho|(Hv & _)].
    + simpl in Ho. by apply elem_of_nil in Ho.
    + intros k Hk. by eapply Hvisited.
  - intros path Hpath. rewrite Hp in Hpath.
    destruct (Nat.ltb _ _); [|done]. injection Hpath as <-.
    intros k Hk%elem_of_dom.
    apply (loop_package_keys _ _ _ _ _ _ _ _ Hst) in Hk as [Hk|(m & path & Hv & _ & Hk)].
    + simpl in Hk. apply (imports_loop_keys _ _ _ _ _ Hr) in Hk as [Hk|Hk].
      * simpl in Hk. by apply elem_of_dom in Hk as [? ?].
      * by apply Himp.
    + eapply Hvisited; [done|]. by apply elem_of_dom.
Qed.

End ColonFacts.

(** ** The summary of [Analyze] *)

Section Summaries.
Import GoStrings Splitting Types Analysis Quickcheck Grouping.

Lemma keyOf_Ok (pkg2vulns : gmap string (list Osv.Entry)) (d : Diagnostic) :
  (∃ k, keyOf pkg2vulns d = Ok k)
  ↔ hasColon (Category d)
    ∧ ∀ v vs, pkg2vulns !! (parseObjectNameStr (Cut (Category d) ":").1.2).1
              = Some (v :: vs) → Osv.AffectedList v ≠ [].
Proof.
  unfold keyOf. destruct (Cut (Category d) ":") as [[id objname] found] eqn:E.
  simpl. destruct found; simpl.
  - apply Cut_byte_found in E as [E _].
    assert (hasColon (Category d)) as Hc.
    { rewrite E. apply (hasColon_app_colon id objname). }
    destruct (parseObjectNameStr objname) as [pkgpath name]. simpl.
    destruct (pkg2vulns !! pkgpath) as [[|v vs]|]; simpl.
    + split; [|by eauto]. intros _. split; [done|]. by intros ? ? [=].
    + destruct (Osv.AffectedList v) eqn:Ea; simpl.
      * split; [by intros [? ?]|]. intros [_ H]. by destruct (H v vs).
      * split; [|by eauto]. intros _. split; [done|].
        intros ? ? [= <- <-]. by rewrite Ea.
    + split; [|by eauto]. intros _. split; [done|]. by intros ? ? [=].
  - apply Cut_byte_not_found in E. split; [by intros [? ?]|]. by intros [? _].
Qed.

(** X24. The loop of [Analyze] over the diagnostics never returns an error,
    and it ends without a panic exactly when the category of every
    diagnostic holds a colon and the first entry that the catalog lists for
    the package read from the category, if any, has an Affected record. *)
Theorem summarize_panics (pkg2vulns : gmap string (list Osv.Entry))
    (results : list (list Diagnostic)) :
  (∀ e, summarize pkg2vulns results ≠ Err e)
  ∧ ((∃ summary, summarize pkg2vulns results = Ok summary)
     ↔ ∀ d, d ∈ concat results →
         hasColon (Category d)
         ∧ ∀ v vs,
             pkg2vulns !! (parseObjectNameStr (Cut (Category d) ":").1.2).1
             = Some (v :: vs) → Osv.AffectedList v ≠ []).
Proof.
  unfold summarize. split.
  - intros e. generalize (∅ : gmap Key Value).
    induction (concat results) as [|d l IH]; intros s; [done|].
    change (foldResult (summaryStep pkg2vulns) s (d :: l))
      with (summaryStep pkg2vulns s d
              ≫= λ s, foldResult (summaryStep pkg2vulns) s l).
    destruct (summaryStep pkg2vulns s d) as [s'|e'|] eqn:E; simpl; [apply IH| |done].
    exfalso. revert E. unfold summaryStep.
    destruct (keyOf pkg2vulns d) as [k|e''|] eqn:Ek; simpl; [done| |done].
    destruct (summaryStep_fails pkg2vulns s d) as (msg & Hm & _); [|congruence].
    intros k. congruence.
  - split.
    + intros [summary Hs] d Hd. apply keyOf_Ok.
      by eapply foldResult_summary_Ok.
    + intros Hall. eexists. apply foldResult_summary.
      intros d Hd. apply keyOf_Ok. by apply Hall.
Qed.

(** X25. In the summary of [Analyze] every diagnostic is filed under its
    key, and the value of a key counts the diagnostics of the key (below
    2^63 of them) and holds the message, cut at the tabs, of the last one
    among those with the fewest path elements. *)
Theorem summarize_groups (pkg2vulns : gmap string (list Osv.Entry))
    (results : list (list Diagnostic)) (summary : gmap Key Value) :
  summarize pkg2vulns results = Ok summary →
  (∀ d, d ∈ concat results →
     ∃ key, keyOf pkg2vulns d = Ok key ∧ is_Some (summary !! key))
  ∧ ∀ key value,
      summary !! key = Some value →
      let grp := List.filter (λ d, bool_decide (keyOf pkg2vulns d = Ok key))
                             (concat results) in
      ((Z.of_nat (length grp) < 2 ^ 63)%Z →
         Count value = Z.of_nat (length grp))
      ∧ ∃ pre d post,
          grp = (pre ++ d :: post)%list
          ∧ Trace value = Split (Message d) "009"
          ∧ (∀ d', d' ∈ pre →
               (length (Split (Message d) "009")
                ≤ length (Split (Message d') "009"))%nat)
          ∧ (∀ d', d' ∈ post →
               (length (Split (Message d) "009")
                < length (Split (Message d') "009"))%nat).
Proof.
  unfold summarize. intros Hs.
  pose proof (foldResult_summary_Ok pkg2vulns _ _ _ Hs) as Hkeys.
  rewrite (foldResult_summary pkg2vulns _ _ Hkeys) in Hs. injection Hs as <-.
  assert (∀ key, group (keyOr pkg2vulns) key (concat results)
                 = List.filter (λ d, bool_decide (keyOf pkg2vulns d = Ok key))
                               (concat results)) as Hgroup.
  { intros key. unfold group. apply List.filter_ext_in.
    intros d Hd%list_elem_of_In. destruct (Hkeys d Hd) as [k Hk].
    unfold keyOr. rewrite Hk. apply bool_decide_ext. split; congruence. }
  split.
  - intros d Hd. destruct (Hkeys d Hd) as [k Hk]. exists k. split; [done|].
    rewrite foldl_groupStep, Hgroup.
    assert (d ∈ List.filter (λ d, bool_decide (keyOf pkg2vulns d = Ok k))
                            (concat results)) as Hin.
    { apply list_elem_of_In, List.filter_In. split; [by apply list_elem_of_In|].
      by apply bool_decide_eq_true. }
    destruct (List.filter _ _); [by apply elem_of_nil in Hin|done].
  - intros key value. rewrite foldl_groupStep, Hgroup. cbv zeta.
    destruct (List.filter _ _) as [|d0 l]; [done|].
    intros [= <-]. apply foldl_next.
Qed.

End Summaries.

(** ** The summary of cmd/vulns *)

Section VulnsFacts.
Import GoStrings Splitting Types Analysis Vulns Grouping.
Variable intBits : Z.
Hypothesis intBits_pos : (0 < intBits)%Z.

Abbreviation next := (next intBits).

Lemma wrapInt_small (z : Z) :
  (- 2 ^ (intBits - 1) ≤ z < 2 ^ (intBits - 1))%Z → wrapInt intBits z = z.
Proof.
  intros Hz. unfold wrapInt.
  assert (2 ^ intBits = 2 * 2 ^ (intBits - 1))%Z as ->.
  { rewrite <- Z.pow_succ_r by lia. f_equal. lia. }
  rewrite Z.mod_small; lia.
Qed.

Lemma vulns_foldl_next (d0 : Diagnostic) (l : list Diagnostic) :
  let value := foldl next (first d0) l in
  ((Z.of_nat (length (d0 :: l)) < 2 ^ (intBits - 1))%Z →
     Count value = Z.of_nat (length (d0 :: l)))
  ∧ ∃ pre d post,
      d0 :: l = (pre ++ d :: post)%list
      ∧ Trace value = Split (Message d) "009"
      ∧ (∀ d', d' ∈ pre →
           (length (Split (Message d) "009")
            < length (Split (Message d') "009"))%nat)
      ∧ (∀ d', d' ∈ post →
           (length (Split (Message d) "009")
            ≤ length (Split (Message d') "009"))%nat).
Proof.
  induction l as [|e l IH] using rev_ind.
  - simpl. split; [done|]. exists [], d0, []. split; [done|]. split; [done|].
    split; by intros ? ?%elem_of_nil.
  - intros value. unfold value. rewrite foldl_app. simpl.
    destruct IH as [Hc (pre & d & post & Hl & Ht & Hpre & Hpost)].
    set (v := foldl next (first d0) l) in *.
    assert (Count (next v e) = wrapInt intBits (Count v + 1)) as Hcount.
    { unfold next. by destruct (Nat.ltb _ _). }
    split.
    + rewrite Hcount. simpl in *. rewrite length_app. simpl. intros Hlen.
      rewrite Hc by lia. rewrite wrapInt_small; [lia|].
      assert (0 < 2 ^ (intBits - 1))%Z by (apply Z.pow_pos_nonneg; lia). lia.
    + unfold next.
      destruct (Nat.ltb_spec (length (Split (Message e) "009"))
                             (length (Trace v))) as [Hlt|Hge].
      * exists (d0 :: l), e, []. simpl.
        split; [by rewrite app_comm_cons|]. split; [done|].
        split; [|by intros ? ?%elem_of_nil].
        intros d'. rewrite Hl, elem_of_app, elem_of_cons.
        rewrite Ht in Hlt.
        intros [Hd'|[->|Hd']].
        -- apply Hpre in Hd'. lia.
        -- lia.
        -- apply Hpost in Hd'. lia.
      * exists pre, d, (post ++ [e])%list. simpl.
        split; [rewrite app_comm_cons, Hl; by rewrite <- app_assoc|].
        split; [done|]. split; [done|].
        intros d' [Hd'| ->%list_elem_of_singleton]%elem_of_app; [by apply Hpost|].
        rewrite Ht in Hge. lia.
Qed.

Lemma summaryStep_group (summary : gmap Key Value) (d : Diagnostic) :
  summaryStep intBits summary d = groupStep keyOf first next summary d.
Proof.
  unfold summaryStep, groupStep. by destruct (summary !! keyOf d).
Qed.

(** X27. The summary of cmd/vulns files every diagnostic under its category
    and the last element of its message cut at the tabs; the value of a key
    counts the diagnostics of the key, as long as the count fits an int,
    and holds the cut message of the first one among those with the fewest
    elements. *)
Theorem vulns_summary_groups (results : list (list Diagnostic)) :
  (∀ d, d ∈ concat results → is_Some (summarize intBits results !! keyOf d))
  ∧ ∀ key value,
      summarize intBits results !! key = Some value →
      let grp := List.filter (λ d, bool_decide (keyOf d = key))
                             (concat results) in
      ((Z.of_nat (length grp) < 2 ^ (intBits - 1))%Z →
         Count value = Z.of_nat (length grp))
      ∧ ∃ pre d post,
          grp = (pre ++ d :: post)%list
          ∧ Trace value = Split (Message d) "009"
          ∧ (∀ d', d' ∈ pre →
               (length (Split (Message d) "009")
                < length (Split (Message d') "009"))%nat)
          ∧ (∀ d', d' ∈ post →
               (length (Split (Message d) "009")
                ≤ length (Split (Message d') "009"))%nat).
Proof.
  assert (summarize intBits results
          = foldl (groupStep keyOf first next) ∅ (concat results)) as ->.
  { unfold summarize. generalize (∅ : gmap Key Value).
    induction (concat results) as [|d l IH]; intros s; [done|].
    simpl. rewrite summaryStep_group. apply IH. }
  split.
  - intros d Hd. rewrite foldl_groupStep.
    assert (d ∈ group keyOf (keyOf d) (concat results)) as Hin.
    { apply list_elem_of_In, List.filter_In. split; [by apply list_elem_of_In|].
      by apply bool_decide_eq_true. }
    destruct (group _ _ _); [by apply elem_of_nil in Hin|done].
  - intros key value. rewrite foldl_groupStep. unfold group. cbv zeta.
    destruct (List.filter _ _) as [|d0 l]; [done|].
    intros [= <-]. apply vulns_foldl_next.
Qed.

(** X28. The key of a diagnostic of [run] in the summary of cmd/vulns: its
    category and the last element of its path, the symbol the path leads
    to, when the path has two elements or more and neither they nor the id
    hold a tab; the trace has as many elements as the path. *)
Theorem vulns_key_of_a_diagnostic (pass : Pass) (m : ObjId) (vuln x y : string)
    (p : list string) :
  "009"%char ∉ list_ascii_of_string (Cut vuln ":").1.1 →
  (∀ z, z ∈ x :: y :: p → "009"%char ∉ list_ascii_of_string z) →
  keyOf (diagnostic pass m vuln (x :: y :: p)) = (vuln, List.last (y :: p) "")
  ∧ Split (Message (diagnostic pass m vuln (x :: y :: p))) "009"
    = ((Cut vuln ":").1.1 ++ "|" ++ x) :: y :: p.
Proof.
  intros Hid Hp. pose proof (Split_Message pass m vuln x (y :: p) Hid Hp) as Hs.
  split; [|done]. unfold keyOf. rewrite Hs. done.
Qed.

End VulnsFacts.

(** ** Paths start at their object *)

Section Headed.
Import GoStrings Types Analysis Paths.
Variable pass : Pass.
Variable catalog : Catalog.
Variable sched : Schedule.
Variable g : Graph.

Lemma extend_head (o : string) (prev : list string) :
  head (extend o prev) = Some o.
Proof.
  unfold extend. destruct prev as [|p0 prev]; [done|].
  destruct (String.eqb_spec p0 o) as [->|]; done.
Qed.

Lemma extend_headed (o : string) (prev : list string) :
  head prev = Some o → extend o prev = prev.
Proof.
  destruct prev as [|p0 prev]; [done|]. simpl. intros [= ->].
  by rewrite String.eqb_refl.
Qed.

Lemma headedBy_adopt (o : string) (from path : PathMap) :
  headedBy o path → headedBy o (adopt o from path).
Proof.
  intros Hp k p. rewrite adopt_lookup. destruct (from !! k) as [prev|].
  - intros [= <-]. apply extend_head.
  - apply Hp.
Qed.

Lemma headedBy_empty (o : string) : headedBy o ∅.
Proof. intros k p H. by rewrite lookup_empty in H. Qed.

Lemma headedTable_insert (o : ObjId) (path : PathMap) (m : gmap ObjId PathMap) :
  headedBy (format pass o) path → headedTable pass m →
  headedTable pass (<[o := path]> m).
Proof.
  intros Hp Hm o' path'. destruct (decide (o = o')) as [->|Hne].
  - rewrite lookup_insert_eq. by intros [= <-].
  - rewrite lookup_insert_ne by done. apply Hm.
Qed.

Lemma adopt_headed (o : string) (fact : PathMap) :
  headedBy o fact → adopt o fact ∅ = fact.
Proof.
  intros Hf. apply map_eq. intros k. rewrite adopt_lookup.
  destruct (fact !! k) as [prev|] eqn:Hk; [|apply lookup_empty].
  f_equal. apply extend_headed. by eapply Hf.
Qed.

Lemma findPath_headed facts fuel obj memo path memo' :
  headedTable pass memo →
  findPath pass catalog sched g facts fuel obj memo = Some (path, memo') →
  headedBy (format pass obj) path ∧ headedTable pass memo'.
Proof.
  revert obj memo path memo'.
  induction fuel as [|fuel IH]; intros obj memo path memo' Hmemo; [done|].
  destruct (memo !! obj) as [p|] eqn:Hm.
  - rewrite (findPath_hit pass catalog sched g facts fuel obj memo p Hm).
    intros [= <- <-]. split; [by eapply Hmemo|done].
  - rewrite (findPath_miss pass catalog sched g facts fuel obj memo Hm).
    destruct (firstVisit pass catalog sched g facts fuel obj memo)
      as [[path1 memo1]|] eqn:Hf; [|done].
    intros [= <- <-].
    assert (headedBy (format pass obj) path1 ∧ headedTable pass memo1)
      as [Hp1 Hm1].
    { unfold Analysis.firstVisit in Hf.
      pose proof (headedTable_insert obj ∅ memo (headedBy_empty _) Hmemo)
        as Hgrey.
      destruct (Nat.ltb 0 (length _)).
      { injection Hf as <- <-. split; [|done].
        intros k p Hk. by apply directPaths_lookup in Hk as (-> & _). }
      destruct (facts !! obj) as [fact|] eqn:Hfact.
      { injection Hf as <- <-. split; [|done].
        apply headedBy_adopt, headedBy_empty. }
      apply (overSuccs_invariant (findPath pass catalog sched g facts fuel)
               (λ p m, headedBy (format pass obj) p ∧ headedTable pass m))
        in Hf; [done| |].
      - split; [apply headedBy_empty|done].
      - intros succ p0 m0 p1 m1 _ [Hp0 Hm0] Hrec.
        apply IH in Hrec as [Hp1 Hm1]; [|done]. split; [|done].
        destruct (Nat.ltb 0 (size p1)); [|done].
        by apply headedBy_adopt. }
    split; [done|].
    destruct (Nat.ltb 0 (size path1)); [|done]. by apply headedTable_insert.
Qed.

Lemma memberStep_headed st m st' :
  headedTable pass (memo st) →
  memberStep pass catalog sched g st m = Ok st' → headedTable pass (memo st').
Proof.
  intros Hm (path & memo' & Hfind & Hcase)%memberStep_Ok.
  eapply findPath_headed in Hfind as [Hp Hm']; [|done].
  by destruct Hcase as [[_ ->]|[_ ->]].
Qed.

Lemma loop_headed st l st' :
  headedTable pass (memo st) →
  foldResult (memberStep pass catalog sched g) st l = Ok st' →
  headedTable pass (memo st').
Proof.
  revert st. induction l as [|m l IH]; intros st Hst; simpl.
  - by intros [= <-].
  - destruct (memberStep pass catalog sched g st m) as [st1| |] eqn:H1;
      simpl; [|done..].
    apply IH. by eapply memberStep_headed.
Qed.

Lemma foundAt_headed m path :
  foundAt pass catalog sched g m path → headedBy (format pass m) path.
Proof.
  intros (st0 & H0 & pre & post & st & memo' & _ & Hpre & Hfind).
  apply afterImports_facts in H0 as (Hf0 & Hm0 & _).
  assert (headedTable pass (memo st)) as Hm.
  { eapply loop_headed; [|done]. rewrite Hm0. intros o p Ho.
    by rewrite lookup_empty in Ho. }
  by eapply findPath_headed in Hfind as [Hp _].
Qed.

(** The memo table of a call holds the table it started from and, for the
    object of the call, the path map returned. *)
Lemma findPath_memo facts fuel obj memo path memo' :
  findPath pass catalog sched g facts fuel obj memo = Some (path, memo') →
  memo ⊆ memo' ∧ memo' !! obj = Some path.
Proof.
  revert obj memo path memo'.
  induction fuel as [|fuel IH]; intros obj memo path memo'; [done|].
  destruct (memo !! obj) as [p|] eqn:Hm.
  - rewrite (findPath_hit pass catalog sched g facts fuel obj memo p Hm).
    by intros [= <- <-].
  - rewrite (findPath_miss pass catalog sched g facts fuel obj memo Hm).
    destruct (firstVisit pass catalog sched g facts fuel obj memo)
      as [[path1 memo1]|] eqn:Hf; [|done].
    intros [= <- <-].
    assert (<[obj := ∅]> memo ⊆ memo1) as Hsub.
    { unfold Analysis.firstVisit in Hf.
      destruct (Nat.ltb 0 (length _)); [by injection Hf as <- <-|].
      destruct (facts !! obj) as [fact|]; [by injection Hf as <- <-|].
      apply (overSuccs_invariant (findPath pass catalog sched g facts fuel)
               (λ p m, <[obj := ∅]> memo ⊆ m)) in Hf; [done|done|].
      intros succ p0 m0 p1 m1 _ Hm0 Hrec.
      apply IH in Hrec as [Hsub _]. by etrans. }
    assert (memo1 !! obj = Some ∅) as Hgrey.
    { eapply lookup_weaken; [|done]. by rewrite lookup_insert_eq. }
    assert (memo ⊆ memo1) as Hsub'.
    { etrans; [|done]. by apply insert_subseteq. }
    destruct (Nat.ltb 0 (size path1)) eqn:Hs.
    + split; [|by rewrite lookup_insert_eq]. by apply insert_subseteq_r.
    + split; [done|]. rewrite Hgrey. f_equal. symmetry.
      apply map_size_empty_iff. apply Nat.ltb_ge in Hs. lia.
Qed.

End Headed.

(** ** Paths, the memo table and exported facts *)

Section HeadedPaths.
Import GoStrings Types Analysis Paths.

(** Every diagnostic of the loop over the imports reports a path that
    starts with the import. *)
Lemma importStep_diags_shape pass st i st' d :
  importStep pass st i = Ok st' →
  d ∈ st'.1 →
  d ∈ st.1 ∨ ∃ vuln p, d = diagnostic pass i vuln (format pass i :: p).
Proof.
  unfold importStep.
  destruct (Kind (Objs pass i)) as [| | | |dcl imp|] eqn:Hk; try done.
  destruct (PackageFacts pass !! imp) as [fact|] eqn:Hf; [|intros [= <-]; auto].
  intros [= <-].
  apply (map_fold_weak_ind
      (λ (r : list Diagnostic * PathMap) (m : PathMap),
         d ∈ r.1 → d ∈ st.1
                   ∨ ∃ vuln p, d = diagnostic pass i vuln (format pass i :: p))).
  - auto.
  - intros j x m r Hj IH. simpl.
    intros [Hd|Hd%list_elem_of_singleton]%elem_of_app; [by apply IH|].
    right. by exists j, x.
Qed.

Lemma imports_diags_shape pass st l st' d :
  foldResult (importStep pass) st l = Ok st' →
  d ∈ st'.1 →
  d ∈ st.1 ∨ ∃ i vuln p, i ∈ l ∧ d = diagnostic pass i vuln (format pass i :: p).
Proof.
  revert st. induction l as [|i l IH]; intros st; simpl.
  - intros [= <-]. auto.
  - destruct (importStep pass st i) as [st1| |] eqn:H1; simpl; [|done..].
    intros H Hd.
    destruct (IH _ H Hd) as [Hd1|(i' & vuln & p & Hin & ->)].
    + destruct (importStep_diags_shape _ _ _ _ _ H1 Hd1)
        as [?|(vuln & p & ->)]; [auto|].
      right. exists i, vuln, p. split; [left|done].
    + right. exists i', vuln, p. split; [by right|done].
Qed.

Lemma exported_headed pass catalog sched out o path :
  analyze pass catalog sched = Ok out →
  (o, path) ∈ ObjectFactsOut out →
  path ≠ ∅ ∧ headedBy (format pass o) path.
Proof.
  intros (g & st & Hg & Hst & _ & -> & _)%analyze_Ok Ho.
  unfold finalState in Hst.
  destruct (afterImports pass sched g) as [st0| |] eqn:H0; simpl in Hst;
    try discriminate.
  apply (loop_exported _ _ _ _ _ _ _ _ _ Hst) in Ho as [Ho|(Hv & Hne & _)].
  - apply afterImports_facts in H0 as (_ & _ & H0). rewrite H0 in Ho.
    by apply elem_of_nil in Ho.
  - split; [done|]. apply (foundAt_headed pass catalog sched g). by exists st0.
Qed.


(** X15. A call of [findPath] keeps every entry of the memo table and stores
    the path map it returns for its object, so that a second call for the
    object returns the same map and leaves the table as it is. *)
Theorem findPath_memoizes (pass : Pass) (catalog : Catalog) (sched : Schedule)
    (g : Graph) (facts : gmap ObjId PathMap) (fuel : nat) (obj : ObjId)
    (memo : gmap ObjId PathMap) (path : PathMap) (memo' : gmap ObjId PathMap) :
  findPath pass catalog sched g facts fuel obj memo = Some (path, memo') →
  memo ⊆ memo'
  ∧ memo' !! obj = Some path
  ∧ ∀ fuel', findPath pass catalog sched g facts (S fuel') obj memo'
             = Some (path, memo').
Proof.
  intros [Hsub Hobj]%findPath_memo. split; [done|]. split; [done|].
  intros fuel'. by apply findPath_hit.
Qed.

Lemma directPaths_snoc pass obj vulns v :
  directPaths pass obj (vulns ++ [v])
  = <[v ++ ":" ++ (Cut (format pass obj) " ").1.1 := [format pass obj]]>
      (directPaths pass obj vulns).
Proof. unfold directPaths. by rewrite foldl_app. Qed.

Lemma directPaths_spec pass obj vulns k p :
  directPaths pass obj vulns !! k = Some p
  ↔ p = [format pass obj]
    ∧ ∃ v, v ∈ vulns ∧ k = v ++ ":" ++ (Cut (format pass obj) " ").1.1.
Proof.
  split; [apply directPaths_lookup|].
  intros (-> & v & Hv & ->). revert Hv.
  induction vulns as [|w vulns IH] using rev_ind; [by intros ?%elem_of_nil|].
  rewrite directPaths_snoc.
  set (key := λ v : string, v ++ ":" ++ (Cut (format pass obj) " ").1.1).
  destruct (decide (key w = key v)) as [E|Hne].
  - intros _. fold (key w) (key v). rewrite E. by rewrite lookup_insert_eq.
  - intros [Hv| ->%list_elem_of_singleton]%elem_of_app; [|done].
    fold (key w) (key v). rewrite lookup_insert_ne by done. by apply IH.
Qed.

(** X16. An object that the catalog lists is its own path: [findPath] returns,
    for each id the catalog gives it, the path made of the object alone,
    filed under the id, a colon and the name of the object.  The facts
    imported for the object are not read and its references are not
    followed: only the entry of the object is added to the memo table. *)
Theorem findPath_direct_hit (pass : Pass) (catalog : Catalog) (sched : Schedule)
    (g : Graph) (facts : gmap ObjId PathMap) (fuel : nat) (obj : ObjId)
    (memo : gmap ObjId PathMap) :
  isDirectlyVulnerable pass catalog obj ≠ [] →
  memo !! obj = None →
  ∃ path,
    findPath pass catalog sched g facts (S fuel) obj memo
    = Some (path, <[obj := path]> memo)
    ∧ ∀ k p, path !! k = Some p
             ↔ p = [format pass obj]
               ∧ ∃ v, v ∈ isDirectlyVulnerable pass catalog obj
                      ∧ k = v ++ ":" ++ (Cut (format pass obj) " ").1.1.
Proof.
  intros Hv Hm.
  exists (directPaths pass obj (isDirectlyVulnerable pass catalog obj)).
  split; [|apply directPaths_spec].
  rewrite (findPath_miss pass catalog sched g facts fuel obj memo Hm).
  unfold firstVisit.
  destruct (isDirectlyVulnerable pass catalog obj) as [|v vulns] eqn:E; [done|].
  change (Nat.ltb 0 (length (v :: vulns))) with true. cbv iota.
  assert (Nat.ltb 0 (size (directPaths pass obj (v :: vulns))) = true) as ->.
  { apply Nat.ltb_lt.
    assert (is_Some (directPaths pass obj (v :: vulns)
                       !! (v ++ ":" ++ (Cut (format pass obj) " ").1.1)))
      as [p Hp].
    { exists [format pass obj]. apply directPaths_spec. split; [done|].
      exists v. split; [left|done]. }
    destruct (decide (size (directPaths pass obj (v :: vulns)) = 0)) as [Hz|];
      [|lia].
    apply map_size_empty_iff in Hz. rewrite Hz in Hp. by rewrite lookup_empty in Hp. }
  by rewrite insert_insert_eq.
Qed.

(** X17. A fact exported for an object by the analysis of its package is, in
    a package that imports it, the path map of the object, as it was
    exported: no element is added to its paths. *)
Theorem exported_fact_is_found_again
    (pass1 : Pass) (catalog1 : Catalog) (sched1 : Schedule) (out1 : Output)
    (o1 : ObjId) (path : PathMap)
    (pass2 : Pass) (catalog2 : Catalog) (sched2 : Schedule) (g2 : Graph)
    (facts : gmap ObjId PathMap) (o2 : ObjId) (fuel : nat)
    (memo : gmap ObjId PathMap) :
  analyze pass1 catalog1 sched1 = Ok out1 →
  (o1, path) ∈ ObjectFactsOut out1 →
  format pass2 o2 = format pass1 o1 →
  facts !! o2 = Some path →
  isDirectlyVulnerable pass2 catalog2 o2 = [] →
  memo !! o2 = None →
  findPath pass2 catalog2 sched2 g2 facts (S fuel) o2 memo
  = Some (path, <[o2 := path]> memo).
Proof.
  intros Hout Hin Hformat Hfact Hv Hm.
  destruct (exported_headed pass1 catalog1 sched1 out1 o1 path Hout Hin)
    as [Hne Hhead].
  rewrite (findPath_miss pass2 catalog2 sched2 g2 facts fuel o2 memo Hm).
  unfold firstVisit. rewrite Hv, Hfact.
  change (Nat.ltb 0 (length (@nil string))) with false. cbv iota.
  rewrite Hformat, adopt_headed by done.
  assert (Nat.ltb 0 (size path) = true) as ->.
  { apply Nat.ltb_lt. destruct (decide (size path = 0)) as [Hz|]; [|lia].
    by apply map_size_empty_iff in Hz. }
  by rewrite insert_insert_eq.
Qed.

End HeadedPaths.

(** ** The paths of the package fact *)

Section PackageFact.
Import GoStrings Types Analysis Paths ImportedPaths.
Variable pass : Pass.

Lemma importStep_paths st i st' :
  importStep pass st i = Ok st' →
  (∀ k q, st'.2 !! k = Some q → st.2 !! k = Some q ∨ importedPath pass i k q)
  ∧ (∀ k q', importedPath pass i k q' →
       ∃ q, st'.2 !! k = Some q ∧ (length q ≤ length q')%nat)
  ∧ (∀ k q0, st.2 !! k = Some q0 →
       ∃ q, st'.2 !! k = Some q ∧ (length q ≤ length q0)%nat).
Proof.
  unfold importStep.
  destruct (Kind (Objs pass i)) as [| | | |dcl imp|] eqn:Hk; try done.
  destruct (PackageFacts pass !! imp) as [fact|] eqn:Hf.
  2:{ intros [= <-]. split; [auto|]. split; [|by eauto].
      intros k q' (? & ? & ? & ? & ? & ? & _). congruence. }
  intros [= <-].
  assert (∀ k q, importedPath pass i k q
                 ↔ ∃ p, fact !! k = Some p ∧ q = format pass i :: p) as Himp.
  { intros k q. split.
    - intros (? & ? & ? & p & ? & ? & ? & ->). exists p. split; [congruence|done].
    - intros (p & ? & ->). by exists dcl, imp, fact, p. }
  setoid_rewrite Himp. clear Himp.
  apply (map_fold_weak_ind
      (λ (r : list Diagnostic * PathMap) (m : PathMap),
         (∀ k q, r.2 !! k = Some q →
            st.2 !! k = Some q ∨ ∃ p, m !! k = Some p ∧ q = format pass i :: p)
         ∧ (∀ k q', (∃ p, m !! k = Some p ∧ q' = format pass i :: p) →
              ∃ q, r.2 !! k = Some q ∧ (length q ≤ length q')%nat)
         ∧ (∀ k q0, st.2 !! k = Some q0 →
              ∃ q, r.2 !! k = Some q ∧ (length q ≤ length q0)%nat))).
  - split; [auto|]. split; [|by eauto].
    intros k q' (p & Hp & _). by rewrite lookup_empty in Hp.
  - intros j x m r Hj (Ho & Hc & Hm). simpl.
    set (keep := match r.2 !! j with
                 | Some existing =>
                     negb (Nat.ltb (length (format pass i :: x)) (length existing))
                 | None => false
                 end).
    assert (∀ k q, (if keep then r.2 else <[j := format pass i :: x]> r.2) !! k
                   = Some q →
                   (k = j ∧ q = format pass i :: x) ∨ r.2 !! k = Some q) as Hnew.
    { intros k q. destruct keep; [auto|].
      destruct (decide (j = k)) as [->|Hne].
      - rewrite lookup_insert_eq. intros [= <-]. auto.
      - rewrite lookup_insert_ne by done. auto. }
    assert (∀ k q0, r.2 !! k = Some q0 →
              ∃ q, (if keep then r.2 else <[j := format pass i :: x]> r.2) !! k
                   = Some q ∧ (length q ≤ length q0)%nat) as Hmono.
    { intros k q0 Hk0. unfold keep. destruct (decide (j = k)) as [->|Hne].
      - rewrite Hk0. destruct (Nat.ltb_spec (length (format pass i :: x)) (length q0)).
        + simpl negb. cbv iota. rewrite lookup_insert_eq. eexists. split; [done|lia].
        + simpl negb. cbv iota. eauto.
      - destruct (match r.2 !! j with Some _ => _ | None => _ end);
          [eauto|]. rewrite lookup_insert_ne by done. eauto. }
    split; [|split].
    + intros k q [[-> ->]|Hq]%Hnew.
      * right. exists x. by rewrite lookup_insert_eq.
      * destruct (Ho k q Hq) as [?|(p & Hp & ->)]; [by left|]. right.
        exists p. split; [|done]. rewrite lookup_insert_ne; [done|].
        intros ->. congruence.
    + intros k q' (p & Hp & ->). destruct (decide (j = k)) as [->|Hne].
      * rewrite lookup_insert_eq in Hp. injection Hp as <-.
        unfold keep. destruct (r.2 !! k) as [existing|] eqn:He.
        -- destruct (Nat.ltb_spec (S (length x)) (length existing)).
           ++ simpl negb. cbv iota. rewrite lookup_insert_eq. eauto.
           ++ simpl negb. cbv iota. rewrite He. eauto.
        -- rewrite lookup_insert_eq. eauto.
      * rewrite lookup_insert_ne in Hp by done.
        destruct (Hc k (format pass i :: p)) as (q & Hq & Hlen); [by eauto|].
        destruct (Hmono k q Hq) as (q2 & ? & ?). exists q2. split; [done|lia].
    + intros k q0 Hk0. destruct (Hm k q0 Hk0) as (q & Hq & ?).
      destruct (Hmono k q Hq) as (q2 & ? & ?). exists q2. split; [done|lia].
Qed.

Lemma imports_loop_paths st l st' :
  foldResult (importStep pass) st l = Ok st' →
  (∀ k q, st'.2 !! k = Some q →
     st.2 !! k = Some q ∨ ∃ i, i ∈ l ∧ importedPath pass i k q)
  ∧ (∀ i k q', i ∈ l → importedPath pass i k q' →
       ∃ q, st'.2 !! k = Some q ∧ (length q ≤ length q')%nat)
  ∧ (∀ k q0, st.2 !! k = Some q0 →
       ∃ q, st'.2 !! k = Some q ∧ (length q ≤ length q0)%nat).
Proof.
  revert st. induction l as [|i l IH]; intros st; simpl.
  - intros [= <-]. split; [auto|]. split; [|by eauto].
    by intros ? ? ? ?%elem_of_nil.
  - destruct (importStep pass st i) as [st1| |] eqn:H1; simpl; [|done..].
    intros (Ho & Hc & Hm)%IH.
    apply importStep_paths in H1 as (Ho1 & Hc1 & Hm1).
    split; [|split].
    + intros k q [Hq|(i' & Hi' & Hq)]%Ho.
      * destruct (Ho1 k q Hq) as [?|?]; [by left|]. right. exists i.
        split; [left|done].
      * right. exists i'. split; [by right|done].
    + intros i' k q' [->|Hi']%elem_of_cons Hq'.
      * destruct (Hc1 k q' Hq') as (q1 & Hq1 & ?).
        destruct (Hm k q1 Hq1) as (q & ? & ?). exists q. split; [done|lia].
      * by eapply Hc.
    + intros k q0 Hk. destruct (Hm1 k q0 Hk) as (q1 & Hq1 & ?).
      destruct (Hm k q1 Hq1) as (q & ? & ?). exists q. split; [done|lia].
Qed.

Variable catalog : Catalog.
Variable sched : Schedule.
Variable g : Graph.

Lemma init_fold_keeps (pfp path : PathMap) :
  pfp ⊆ map_fold (λ vuln trace (pfp : PathMap),
                    match pfp !! vuln with
                    | Some _ => pfp
                    | None => <[vuln := trace]> pfp
                    end) pfp path.
Proof.
  apply (map_fold_weak_ind (λ (r : PathMap) (_ : PathMap), pfp ⊆ r)); [done|].
  intros j x m r _ IH. destruct (r !! j) eqn:E; [done|].
  etrans; [done|]. by apply insert_subseteq.
Qed.

Lemma memberStep_package_fact st m st' :
  memberStep pass catalog sched g st m = Ok st' →
  packageFactPath st ⊆ packageFactPath st'.
Proof.
  intros (path & memo' & _ & [[_ ->]|[_ ->]])%memberStep_Ok; simpl; [done|].
  destruct (String.eqb _ _); [|done]. apply init_fold_keeps.
Qed.

Lemma loop_package_fact st l st' :
  foldResult (memberStep pass catalog sched g) st l = Ok st' →
  packageFactPath st ⊆ packageFactPath st'.
Proof.
  revert st. induction l as [|m l IH]; intros st; simpl.
  - by intros [= <-].
  - destruct (memberStep pass catalog sched g st m) as [st1| |] eqn:H1;
      simpl; [|done..].
    intros H. etrans; [by eapply memberStep_package_fact|by apply IH].
Qed.

End PackageFact.

Section ShortestPath.
Import GoStrings Types Analysis Paths ImportedPaths.

(** X18. For a vulnerability that the package fact of an import lists, the
    package fact exported by [run] holds a path through an import, and none
    of the paths through the imports is shorter; the paths found from the
    init functions do not replace it. *)
Theorem package_fact_keeps_a_shortest_path (pass : Pass) (catalog : Catalog)
    (sched : Schedule) (out : Output) (g : Graph) (i : ObjId) (k : string)
    (q' : list string) :
  valid_schedule sched →
  analyze pass catalog sched = Ok out →
  visitAll pass emptyGraph (Nodes pass) = Ok g →
  i ∈ imports g →
  importedPath pass i k q' →
  ∃ fact q i0,
    PackageFactOut out = Some fact ∧ fact !! k = Some q
    ∧ i0 ∈ imports g ∧ importedPath pass i0 k q
    ∧ (length q ≤ length q')%nat
    ∧ ∀ i1 q1, i1 ∈ imports g → importedPath pass i1 k q1 →
               (length q ≤ length q1)%nat.
Proof.
  intros (Himp & _ & _) (g' & st & Hg & Hst & _ & _ & Hp)%analyze_Ok Hg' Hi Hq'.
  rewrite Hg in Hg'. injection Hg' as ->.
  unfold finalState in Hst.
  destruct (afterImports pass sched g) as [st0| |] eqn:H0; simpl in Hst;
    try discriminate.
  apply loop_package_fact in Hst.
  unfold afterImports in H0.
  destruct (foldResult (importStep pass) ([], ∅) (importsOf sched g))
    as [r| |] eqn:Hr; simpl in H0; try discriminate.
  injection H0 as <-. simpl in Hst.
  apply imports_loop_paths in Hr as (Ho & Hc & _).
  assert (∀ i, i ∈ importsOf sched g ↔ i ∈ imports g) as Hin.
  { intros i'. unfold importsOf. rewrite Himp. apply elem_of_elements. }
  destruct (Hc i k q') as (q & Hq & Hlen); [by apply Hin|done|].
  destruct (Ho k q Hq) as [Hq0|(i0 & Hi0 & Hpath)];
    [simpl in Hq0; by rewrite lookup_empty in Hq0|].
  pose proof (lookup_weaken _ _ _ _ Hq Hst) as Hfinal.
  exists (packageFactPath st), q, i0. rewrite Hp.
  assert (Nat.ltb 0 (size (packageFactPath st)) = true) as ->.
  { apply Nat.ltb_lt. destruct (decide (size (packageFactPath st) = 0)) as [Hz|];
      [|lia]. apply map_size_empty_iff in Hz. rewrite Hz in Hfinal.
    by rewrite lookup_empty in Hfinal. }
  split; [done|]. split; [done|]. split; [by apply Hin|]. split; [done|].
  split; [done|].
  intros i1 q1 Hi1 Hq1. destruct (Hc i1 k q1) as (q2 & Hq2 & ?); [by apply Hin|done|].
  rewrite Hq in Hq2. injection Hq2 as <-. done.
Qed.

End ShortestPath.

(** ** The order of strings *)

Section StringOrder.

Lemma ascii_compare_lt_trans (a b c : ascii) :
  Ascii.compare a b = Lt → Ascii.compare b c = Lt → Ascii.compare a c = Lt.
Proof.
  unfold Ascii.compare. rewrite !N.compare_lt_iff. lia.
Qed.

Lemma string_compare_lt_trans (s1 s2 s3 : string) :
  String.compare s1 s2 = Lt → String.compare s2 s3 = Lt →
  String.compare s1 s3 = Lt.
Proof.
  revert s2 s3. induction s1 as [|a s1 IH]; intros [|b s2] [|c s3]; simpl;
    try done.
  destruct (Ascii.compare a b) eqn:Hab; try done.
  - apply Ascii.compare_eq_iff in Hab as ->.
    destruct (Ascii.compare b c); try done. apply IH.
  - intros _. destruct (Ascii.compare b c) eqn:Hbc; try done.
    + apply Ascii.compare_eq_iff in Hbc as <-. by rewrite Hab.
    + by rewrite (ascii_compare_lt_trans a b c).
Qed.

Lemma string_leb_trans (s1 s2 s3 : string) :
  String.leb s1 s2 = true → String.leb s2 s3 = true → String.leb s1 s3 = true.
Proof.
  unfold String.leb.
  destruct (String.compare s1 s2) eqn:H12; try done;
    destruct (String.compare s2 s3) eqn:H23; try done; intros _ _.
  - apply String.compare_eq_iff in H12 as ->. by rewrite H23.
  - apply String.compare_eq_iff in H12 as ->. by rewrite H23.
  - apply String.compare_eq_iff in H23 as <-. by rewrite H12.
  - by rewrite (string_compare_lt_trans s1 s2 s3).
Qed.

Lemma string_ltb_leb (s1 s2 : string) :
  String.ltb s1 s2 = true → String.leb s1 s2 = true.
Proof. unfold String.ltb, String.leb. by destruct (String.compare s1 s2). Qed.

Lemma string_not_ltb_leb (s1 s2 : string) :
  String.ltb s1 s2 = false → String.leb s2 s1 = true.
Proof.
  unfold String.ltb, String.leb. rewrite (String.compare_antisym s1 s2).
  by destruct (String.compare s2 s1).
Qed.

End StringOrder.

(** ** [succs] *)

Section Succs.
Import GoStrings Types Analysis ById.
Variable pass : Pass.

Lemma insertById_perm (x : ObjId) (l : list ObjId) :
  insertById pass x l ≡ₚ x :: l.
Proof.
  induction l as [|y l IH]; simpl; [done|].
  destruct (String.ltb _ _); [|done]. rewrite IH. apply Permutation_swap.
Qed.

Lemma sortById_perm (l : list ObjId) : sortById pass l ≡ₚ l.
Proof.
  induction l as [|x l IH]; simpl; [done|].
  unfold sortById in *. simpl. by rewrite insertById_perm, IH.
Qed.

Lemma insertById_sorted (x : ObjId) (l : list ObjId) :
  StronglySorted (byId pass) l → StronglySorted (byId pass) (insertById pass x l).
Proof.
  induction l as [|y l IH]; simpl; intros Hl.
  - repeat constructor.
  - apply StronglySorted_inv in Hl as [Hl Hy].
    destruct (String.ltb (Id (Objs pass y)) (Id (Objs pass x))) eqn:E.
    + constructor; [by apply IH|].
      rewrite Forall_forall. intros z Hz.
      rewrite insertById_perm in Hz. apply elem_of_cons in Hz as [->|Hz].
      * by apply string_ltb_leb.
      * rewrite Forall_forall in Hy. by apply Hy.
    + apply string_not_ltb_leb in E.
      constructor; [by constructor|].
      constructor; [done|].
      rewrite Forall_forall in Hy |- *. intros z Hz.
      eapply string_leb_trans; [exact E|by apply Hy].
Qed.

Lemma sortById_sorted (l : list ObjId) :
  StronglySorted (byId pass) (sortById pass l).
Proof.
  induction l as [|x l IH]; [constructor|].
  unfold sortById in *. simpl. by apply insertById_sorted.
Qed.

(** X19. [succs] lists the references stored for an object in the order of
    their [Id], whatever the order in which the runtime yields them, and
    after them, for a type name, its methods in the order of their
    declarations.  When no two references of the object have the same
    [Id], the list is the same for all orders of the runtime. *)
Theorem succs_are_sorted_by_Id (sched : Schedule) (g : Graph) (obj : ObjId)
    (refsOf : gset ObjId) :
  valid_schedule sched →
  bucketOf g obj = Some refsOf →
  ∃ sorted,
    succs pass sched g obj
    = (sorted ++ match Kind (Objs pass obj) with
                 | KTypeName => default [] (methods g !! obj)
                 | _ => []
                 end)%list
    ∧ sorted ≡ₚ elements refsOf
    ∧ StronglySorted (byId pass) sorted
    ∧ ((∀ a b, a ∈ refsOf → b ∈ refsOf →
          Id (Objs pass a) = Id (Objs pass b) → a = b) →
       ∀ sched', valid_schedule sched' →
                 succs pass sched' g obj = succs pass sched g obj).
Proof.
  intros (_ & _ & Hrefs) Hb.
  exists (sortById pass (range_refs sched obj (elements refsOf))).
  split; [|split; [|split]].
  - unfold succs. rewrite Hb. destruct (Kind _); by rewrite ?app_nil_r.
  - by rewrite sortById_perm, Hrefs.
  - apply sortById_sorted.
  - intros Hinj sched' (_ & _ & Hrefs'). unfold succs. rewrite Hb.
    assert (sortById pass (range_refs sched' obj (elements refsOf))
            = sortById pass (range_refs sched obj (elements refsOf))) as ->;
      [|done].
    apply (StronglySorted_unique_strong (byId pass));
      [|apply sortById_sorted..|by rewrite !sortById_perm, Hrefs, Hrefs'].
    intros a b Ha Hb' Hab Hba.
    rewrite sortById_perm, Hrefs', elem_of_elements in Ha.
    rewrite sortById_perm, Hrefs, elem_of_elements in Hb'.
    apply Hinj; [done..|]. by apply String.leb_antisym.
Qed.

End Succs.

(** ** [exportedSymbols] *)

Section Exported.
Import GoStrings Splitting Symbols.
Variable IsExported : string → bool.

Lemma allPartsExported_forallb (s : string) :
  allPartsExported IsExported s = forallb IsExported (Split s ".").
Proof.
  unfold allPartsExported.
  assert (∀ l b, foldl (λ exported part,
                          if negb (IsExported part) then false else exported)
                       b l = b && forallb IsExported l) as H.
  { induction l as [|x l IH]; intros b; simpl; [by rewrite andb_true_r|].
    rewrite IH. by destruct (IsExported x), b. }
  by rewrite H.
Qed.

Lemma exportedSymbols_filter (input : list string) :
  exportedSymbols IsExported input
  = List.filter (allPartsExported IsExported) input.
Proof.
  unfold exportedSymbols.
  assert (∀ l out, foldl (λ out s, if allPartsExported IsExported s
                                   then (out ++ [s])%list else out) out l
                   = (out ++ List.filter (allPartsExported IsExported) l)%list)
    as H.
  { induction l as [|x l IH]; intros out; simpl; [by rewrite app_nil_r|].
    rewrite IH. destruct (allPartsExported IsExported x); [|done].
    by rewrite <- app_assoc. }
  by rewrite H.
Qed.

(** X20. [exportedSymbols] keeps, in their order, the symbols all of whose
    parts between dots are exported; applied again it changes nothing. *)
Theorem exportedSymbols_keeps_the_exported (input : list string) :
  exportedSymbols IsExported input
  = List.filter (λ s, forallb IsExported (Split s ".")) input
  ∧ exportedSymbols IsExported (exportedSymbols IsExported input)
    = exportedSymbols IsExported input
  ∧ ∀ s, s ∈ exportedSymbols IsExported input
         ↔ s ∈ input ∧ ∀ part, part ∈ Split s "." → IsExported part = true.
Proof.
  assert (exportedSymbols IsExported input
          = List.filter (λ s, forallb IsExported (Split s ".")) input) as Hf.
  { rewrite exportedSymbols_filter. apply List.filter_ext.
    intros s. apply allPartsExported_forallb. }
  split; [done|]. split.
  - rewrite !exportedSymbols_filter. clear Hf.
    induction input as [|x l IH]; simpl; [done|].
    destruct (allPartsExported IsExported x) eqn:E; [|done].
    simpl. by rewrite E, IH.
  - intros s. rewrite Hf, list_elem_of_In, List.filter_In, forallb_forall.
    rewrite <- list_elem_of_In.
    split; intros [? H]; (split; [done|]); intros part Hp; apply H;
      by apply list_elem_of_In.
Qed.

End Exported.

(** ** [walk] *)

Section WalkFacts.
Import Fetch Traversal.
Variable heap : gmap PkgPtr Loaded.
Variable rangeImports : PkgPtr → list PkgPtr → list PkgPtr.
Hypothesis rangeImports_valid : ∀ pkg l, rangeImports pkg l ≡ₚ l.
Context {S : Type}.
Variable fn : PkgPtr → Loaded → S → outcome S.

Abbreviation visit := (visit heap rangeImports fn).
Abbreviation calls := (calls heap fn).
Abbreviation imports := (imports heap).
Abbreviation traversed := (traversed heap fn).
Abbreviation closedBut := (closedBut heap).

Lemma importsOf_imports (pkg : PkgPtr) (node : Loaded) (imp : PkgPtr) :
  heap !! pkg = Some node →
  imp ∈ importsOf rangeImports pkg node ↔ imports pkg imp.
Proof.
  intros Hn. unfold importsOf, Fetch.imports. rewrite rangeImports_valid.
  rewrite list_elem_of_fmap. split.
  - intros ([name imp'] & -> & Hin%elem_of_map_to_list). by exists node, name.
  - intros (node' & name & Hn' & Hi). rewrite Hn in Hn'. injection Hn' as <-.
    exists (name, imp). split; [done|]. by apply elem_of_map_to_list.
Qed.

Lemma visit_unfold fuel pkg st :
  visit (Datatypes.S fuel) pkg st
  = match heap !! pkg with
    | None => Some (Done st)
    | Some node =>
        if bool_decide (pkg ∈ st.1) then Some (Done st)
        else
          match fn pkg node st.2 with
          | Panicked msg => Some (Panicked msg)
          | Failed s e => Some (Failed (st.1, s) e)
          | Done s =>
              overPkgs (visit fuel) (importsOf rangeImports pkg node)
                       ({[pkg]} ∪ st.1, s)
          end
    end.
Proof. reflexivity. Qed.

(** ** The set of seen packages grows *)

Lemma overPkgs_grows (rec : PkgPtr → gset PkgPtr * S
                             → option (outcome (gset PkgPtr * S)))
    (l : list PkgPtr) st st' :
  (∀ pkg st st', rec pkg st = Some (Done st') → st.1 ⊆ st'.1) →
  overPkgs rec l st = Some (Done st') → st.1 ⊆ st'.1.
Proof.
  intros Hrec. revert st. induction l as [|pkg l IH]; intros st; simpl.
  - by intros [= <-].
  - destruct (rec pkg st) as [[st1| |]|] eqn:E; try done.
    intros H. etrans; [by eapply Hrec|by apply IH].
Qed.

Lemma visit_grows fuel pkg st st' :
  visit fuel pkg st = Some (Done st') → st.1 ⊆ st'.1.
Proof.
  revert pkg st st'. induction fuel as [|fuel IH]; intros pkg st st'; [done|].
  rewrite visit_unfold. destruct (heap !! pkg) as [node|]; [|by intros [= <-]].
  case_bool_decide as Hseen; [by intros [= <-]|].
  destruct (fn pkg node st.2) as [s| |]; try done.
  intros Hg%overPkgs_grows; [|apply IH]. simpl in Hg. set_solver.
Qed.

(** ** Termination *)

Lemma overPkgs_total fuel (l : list PkgPtr) (st : gset PkgPtr * S) :
  (∀ pkg st, size (dom heap ∖ st.1) < fuel → is_Some (visit fuel pkg st)) →
  size (dom heap ∖ st.1) < fuel →
  is_Some (overPkgs (visit fuel) l st).
Proof.
  intros Hrec. revert st. induction l as [|pkg l IH]; intros st Hst; simpl;
    [done|].
  destruct (Hrec pkg st Hst) as [[st1| |] E]; rewrite E; try done.
  apply IH. apply visit_grows in E.
  eapply Nat.le_lt_trans; [|exact Hst]. apply subseteq_size. set_solver.
Qed.

Lemma visit_total fuel pkg st :
  size (dom heap ∖ st.1) < fuel → is_Some (visit fuel pkg st).
Proof.
  revert pkg st. induction fuel as [|fuel IH]; intros pkg st Hst; [lia|].
  rewrite visit_unfold. destruct (heap !! pkg) as [node|] eqn:Hn; [|done].
  case_bool_decide as Hseen; [done|].
  destruct (fn pkg node st.2) as [s| |]; try done.
  apply overPkgs_total; [apply IH|]. simpl.
  assert (dom heap ∖ ({[pkg]} ∪ st.1) ⊂ dom heap ∖ st.1) as Hsub.
  { apply elem_of_dom_2 in Hn. set_solver. }
  apply subset_size in Hsub. lia.
Qed.

(** ** The calls of [fn] *)

Lemma calls_app (order1 order2 : list PkgPtr) (s : S) :
  calls (order1 ++ order2) s
  = match calls order1 s with
    | Done s1 => calls order2 s1
    | r => r
    end.
Proof.
  revert s. induction order1 as [|p order1 IH]; intros s; simpl; [done|].
  destruct (heap !! p) as [node|]; [|apply IH].
  by destruct (fn p node s).
Qed.

Lemma overPkgs_traversed
    (rec : PkgPtr → gset PkgPtr * S → option (outcome (gset PkgPtr * S)))
    (l : list PkgPtr) seen s r :
  (∀ pkg seen s r, rec pkg (seen, s) = Some r →
                   ∃ order, traversed [pkg] seen s r order) →
  overPkgs rec l (seen, s) = Some r →
  ∃ order, traversed l seen s r order.
Proof.
  intros Hrec. revert seen s. induction l as [|pkg l IH]; intros seen s; simpl.
  - intros [= <-]. exists []. split; [constructor|]. split; [|split; [set_solver|done]].
    by intros ? ?%elem_of_nil.
  - destruct (rec pkg (seen, s)) as [r1|] eqn:E; [|done].
    destruct (Hrec _ _ _ _ E) as (order1 & Hnd1 & Hin1 & Hr1).
    assert (∀ p, p ∈ order1 →
              (p ∉ seen) ∧ is_Some (heap !! p)
              ∧ ∃ root, root ∈ pkg :: l ∧ rtc imports root p) as Hin1'.
    { intros p Hp. destruct (Hin1 p Hp) as (? & ? & root & ->%list_elem_of_singleton & ?).
      split; [done|]. split; [done|]. exists pkg. split; [left|done]. }
    destruct r1 as [[seen1 s1]|[seen1 s1] e|msg].
    + intros (order2 & Hnd2 & Hin2 & Hr2)%IH. simpl in Hr1. destruct Hr1 as [-> Hc1].
      exists (order1 ++ order2)%list. split; [|split].
      * apply NoDup_app. split; [done|]. split; [|done].
        intros p Hp1 Hp2. destruct (Hin2 p Hp2) as (Hns & _). set_solver.
      * intros p [Hp|Hp]%elem_of_app; [by apply Hin1'|].
        destruct (Hin2 p Hp) as (Hns & ? & root & ? & ?).
        split; [set_solver|]. split; [done|]. exists root. split; [by right|done].
      * rewrite calls_app, Hc1.
        destruct r as [st'|st' e|msg]; [|done..].
        destruct Hr2 as [-> ?]. split; [|done]. rewrite list_to_set_app_L. set_solver.
    + intros [= <-]. exists order1. split; [done|]. by split.
    + intros [= <-]. exists order1. split; [done|]. by split.
Qed.

Lemma visit_traversed fuel pkg seen s r :
  visit fuel pkg (seen, s) = Some r → ∃ order, traversed [pkg] seen s r order.
Proof.
  revert pkg seen s r. induction fuel as [|fuel IH]; intros pkg seen s r; [done|].
  rewrite visit_unfold. simpl.
  assert (traversed [pkg] seen s (Done (seen, s)) []) as Hnil.
  { split; [constructor|]. split; [by intros ? ?%elem_of_nil|].
    split; [set_solver|done]. }
  destruct (heap !! pkg) as [node|] eqn:Hn; [|intros [= <-]; by exists []].
  case_bool_decide as Hseen; [intros [= <-]; by exists []|].
  assert (∀ p, p ∈ [pkg] → (p ∉ seen) ∧ is_Some (heap !! p)
            ∧ ∃ root, root ∈ [pkg] ∧ rtc imports root p) as Hpkg.
  { intros p ->%list_elem_of_singleton. split; [done|]. split; [by eexists|].
    exists pkg. split; [left|done]. }
  destruct (fn pkg node s) as [s1|s1 e|msg] eqn:Hfn.
  - intros (order & Hnd & Hin & Hr)%overPkgs_traversed; [|apply IH].
    exists (pkg :: order). split; [|split].
    + constructor; [|done]. intros Hp. destruct (Hin pkg Hp) as (? & _). set_solver.
    + intros p [->|Hp]%elem_of_cons; [apply Hpkg; left|].
      destruct (Hin p Hp) as (? & ? & root & Hroot & Hrtc).
      split; [set_solver|]. split; [done|]. exists pkg. split; [left|].
      eapply rtc_l; [|done]. by apply (importsOf_imports pkg node).
    + simpl. rewrite Hn, Hfn. destruct r as [st'|st' e|msg]; [|done..].
      destruct Hr as [-> ?]. split; [|done]. set_solver.
  - intros [= <-]. exists [pkg]. split; [apply NoDup_singleton|]. split; [done|].
    simpl. by rewrite Hn, Hfn.
  - intros [= <-]. exists [pkg]. split; [apply NoDup_singleton|]. split; [done|].
    simpl. by rewrite Hn, Hfn.
Qed.

(** ** Every import of a seen package is seen *)

Lemma overPkgs_closed
    (rec : PkgPtr → gset PkgPtr * S → option (outcome (gset PkgPtr * S)))
    (l : list PkgPtr) st st' :
  (∀ pkg st st', rec pkg st = Some (Done st') →
     st.1 ⊆ st'.1 ∧ (is_Some (heap !! pkg) → pkg ∈ st'.1)
     ∧ ∀ grey, closedBut st.1 grey → closedBut st'.1 grey) →
  overPkgs rec l st = Some (Done st') →
  st.1 ⊆ st'.1 ∧ (∀ pkg, pkg ∈ l → is_Some (heap !! pkg) → pkg ∈ st'.1)
  ∧ ∀ grey, closedBut st.1 grey → closedBut st'.1 grey.
Proof.
  intros Hrec. revert st. induction l as [|pkg l IH]; intros st; simpl.
  - intros [= <-]. split; [done|]. split; [by intros ? ?%elem_of_nil|done].
  - destruct (rec pkg st) as [[st1| |]|] eqn:E; try done.
    destruct (Hrec _ _ _ E) as (Hsub1 & Hpkg1 & Hc1).
    intros (Hsub & Hl & Hc)%IH. split; [set_solver|]. split; [|by eauto].
    intros p [->|Hp]%elem_of_cons Hheap; [|by apply Hl]. set_solver.
Qed.

Lemma visit_closed fuel pkg st st' :
  visit fuel pkg st = Some (Done st') →
  st.1 ⊆ st'.1 ∧ (is_Some (heap !! pkg) → pkg ∈ st'.1)
  ∧ ∀ grey, closedBut st.1 grey → closedBut st'.1 grey.
Proof.
  revert pkg st st'. induction fuel as [|fuel IH]; intros pkg st st'; [done|].
  rewrite visit_unfold.
  destruct (heap !! pkg) as [node|] eqn:Hn.
  2:{ intros [= <-]. split; [done|]. split; [by intros [? ?]|done]. }
  case_bool_decide as Hseen; [by intros [= <-]|].
  destruct (fn pkg node st.2) as [s1| |]; try done.
  intros (Hsub & Hl & Hc)%overPkgs_closed; [|apply IH]. simpl in *.
  split; [set_solver|]. split; [set_solver|].
  intros grey Hgrey.
  assert (closedBut ({[pkg]} ∪ st.1) ({[pkg]} ∪ grey)) as Hgrey'.
  { intros p q Hp Hnp Hpq Hq. apply elem_of_union. right.
    apply (Hgrey p q); [set_solver|set_solver|done..]. }
  apply Hc in Hgrey'. intros p q Hp Hnp Hpq Hq.
  destruct (decide (p = pkg)) as [->|Hne].
  - apply Hl; [|done]. by apply importsOf_imports.
  - apply (Hgrey' p q); [done|set_solver|done..].
Qed.

Lemma imports_in_heap (p q : PkgPtr) :
  rtc imports p q → is_Some (heap !! q) → is_Some (heap !! p).
Proof.
  intros Hrtc Hq. destruct Hrtc as [|p y q (node & ? & Hn & _) _]; [done|].
  by eexists.
Qed.

Lemma closed_reaches (seen : gset PkgPtr) (p q : PkgPtr) :
  closedBut seen ∅ → rtc imports p q → is_Some (heap !! q) → p ∈ seen →
  q ∈ seen.
Proof.
  intros Hc Hrtc Hq. induction Hrtc as [|p y q Hpy Hrtc IH]; [done|].
  intros Hp. apply IH; [done|].
  apply (Hc p y); [done|set_solver|done|]. by eapply imports_in_heap.
Qed.

Lemma walk_traversal (pkgs : list PkgPtr) (s : S) :
  ∃ order,
    NoDup order
    ∧ (∀ p, p ∈ order → reachable heap pkgs p)
    ∧ match walk heap rangeImports fn pkgs s with
      | Some (Done s') =>
          calls order s = Done s'
          ∧ ∀ p, reachable heap pkgs p → p ∈ order
      | Some (Failed s' e) => calls order s = Failed s' e
      | Some (Panicked msg) => calls order s = Panicked msg
      | None => False
      end.
Proof.
  unfold walk.
  destruct (overPkgs_total (enoughFuel heap) pkgs (∅, s)) as [r Hr].
  { intros pkg st. apply visit_total. }
  { simpl. unfold enoughFuel. rewrite difference_empty_L, size_dom. lia. }
  rewrite Hr.
  destruct (overPkgs_traversed _ _ _ _ _ (visit_traversed _) Hr)
    as (order & Hnd & Hin & Hres).
  exists order. split; [done|]. split.
  { intros p Hp. destruct (Hin p Hp) as (_ & ? & ?). by split. }
  destruct r as [[seen' s']|[seen' s'] e|msg]; simpl in Hres |- *; try done.
  destruct Hres as [-> Hcalls]. split; [done|].
  apply overPkgs_closed in Hr as (_ & Hroots & Hclosed).
  2:{ intros pkg st st'. apply visit_closed. }
  simpl in Hroots, Hclosed.
  assert (closedBut (list_to_set order ∪ ∅) ∅) as Hc.
  { apply Hclosed. intros p q Hp. set_solver. }
  intros p (Hp & root & Hroot & Hrtc).
  assert (p ∈ (list_to_set order ∪ ∅ : gset PkgPtr)) as Hin'; [|set_solver].
  eapply closed_reaches; [exact Hc|exact Hrtc|done|].
  apply Hroots; [done|]. by eapply imports_in_heap.
Qed.

(** X8. [walk] ends, whatever the imports, cycles included.  It calls [fn]
    once for each package that the given packages reach through their
    imports, in an order in which no package comes twice, handing the
    state from call to call, until a call returns an error or panics:
    that error or panic is the result, and no call follows it. *)
Theorem walk_calls_each_package_once (pkgs : list PkgPtr) (s : S) :
  ∃ order,
    NoDup order
    ∧ (∀ p, p ∈ order → reachable heap pkgs p)
    ∧ match walk heap rangeImports fn pkgs s with
      | Some (Done s') =>
          calls order s = Done s'
          ∧ ∀ p, reachable heap pkgs p → p ∈ order
      | Some (Failed s' e) => calls order s = Failed s' e
      | Some (Panicked msg) => calls order s = Panicked msg
      | None => False
      end.
Proof. apply walk_traversal. Qed.

End WalkFacts.

(** ** [extractModules] *)

Section ExtractFacts.
Import Fetch.
Variable heap : gmap PkgPtr Loaded.
Variable rangeImports : PkgPtr → list PkgPtr → list PkgPtr.

(** [extract] is the closure of [walk] with the callback that records the
    module. *)
Lemma extract_visit fuel pkg st :
  visit heap rangeImports (λ _ node modMap, Done (recordModule node modMap))
        fuel pkg st
  = Done <$> extract heap rangeImports fuel pkg st.
Proof.
  revert pkg st. induction fuel as [|fuel IH]; intros pkg st; [done|].
  rewrite visit_unfold. simpl.
  destruct (heap !! pkg) as [node|]; [|done].
  case_bool_decide; [done|].
  generalize ({[pkg]} ∪ st.1, recordModule node st.2).
  induction (importsOf rangeImports pkg node) as [|imp l IHl]; intros st1;
    simpl; [done|].
  rewrite IH. destruct (extract heap rangeImports fuel imp st1); simpl; [|done].
  apply IHl.
Qed.

Lemma overImports_overPkgs fuel l st :
  overPkgs (visit heap rangeImports
                  (λ _ node modMap, Done (recordModule node modMap)) fuel) l st
  = Done <$> overImports (extract heap rangeImports fuel) l st.
Proof.
  revert st. induction l as [|imp l IHl]; intros st; simpl; [done|].
  rewrite extract_visit.
  destruct (extract heap rangeImports fuel imp st); simpl; [|done]. apply IHl.
Qed.

End ExtractFacts.

Section ExtractedModules.
Import GoStrings Osvutil Fetch FetchModules.
Variable heap : gmap PkgPtr Loaded.
Variable rangeImports : PkgPtr → list PkgPtr → list PkgPtr.
Hypothesis rangeImports_valid : ∀ pkg l, rangeImports pkg l ≡ₚ l.

Abbreviation record :=
  (λ (_ : PkgPtr) (node : Loaded) (modMap : gmap string Packages.Module),
     Done (recordModule node modMap)).

Lemma byte_in_app (c : ascii) (x y : string) :
  c ∈ list_ascii_of_string (x ++ String c y).
Proof.
  induction x as [|a x IH]; [rewrite app_empty; left|].
  rewrite app_cons. simpl. by right.
Qed.

Lemma extractKey_at (m : Packages.Module) :
  "@"%char ∈ list_ascii_of_string (extractKey m).
Proof.
  unfold extractKey, modKey. destruct (Packages.Replace m) as [r|].
  - destruct (Packages.Replace r); apply byte_in_app.
  - apply byte_in_app.
Qed.

Lemma recordModule_extractKey (node : Loaded) (modMap : gmap string Packages.Module) :
  recordModule node modMap
  = match Packages.PkgModule (Pkg node) with
    | Some m => <[extractKey m := m]> modMap
    | None => modMap
    end.
Proof.
  unfold recordModule, extractKey.
  destruct (Packages.PkgModule (Pkg node)) as [m|]; [|done].
  by destruct (Packages.Replace m).
Qed.

(** The map that recording the modules of the packages of [order] leaves. *)
Lemma calls_record (order : list PkgPtr) (modMap0 : gmap string Packages.Module) :
  ∃ modMap,
    calls heap record order modMap0 = Done modMap
    ∧ (∀ k, "@"%char ∉ list_ascii_of_string k → modMap !! k = modMap0 !! k)
    ∧ (∀ k m, modMap !! k = Some m →
         modMap0 !! k = Some m
         ∨ ∃ p node, p ∈ order ∧ heap !! p = Some node
                     ∧ Packages.PkgModule (Pkg node) = Some m
                     ∧ extractKey m = k)
    ∧ (∀ p node m, p ∈ order → heap !! p = Some node →
         Packages.PkgModule (Pkg node) = Some m →
         ∃ m' p' node',
           modMap !! extractKey m = Some m' ∧ extractKey m' = extractKey m
           ∧ p' ∈ order ∧ heap !! p' = Some node'
           ∧ Packages.PkgModule (Pkg node') = Some m').
Proof.
  induction order as [|p order IH] using rev_ind.
  - exists modMap0. split; [done|]. split; [done|]. split; [by left|].
    by intros ? ? ? ?%elem_of_nil.
  - destruct IH as (modMap1 & Hcalls & Hk & Ho & Hc).
    rewrite calls_app, Hcalls. simpl.
    destruct (heap !! p) as [node|] eqn:Hn.
    2:{ exists modMap1. split; [done|]. split; [done|]. split.
        - intros k m [?|(p' & node' & ? & ?)]%Ho; [by left|]. right.
          exists p', node'. split; [|done]. apply elem_of_app. by left.
        - intros p' node' m [Hp'| ->%list_elem_of_singleton]%elem_of_app Hn';
            [|congruence].
          intros Hm. destruct (Hc p' node' m Hp' Hn' Hm)
            as (m' & p2 & node2 & ? & ? & ? & ?).
          exists m', p2, node2. split; [done|]. split; [done|].
          split; [|done]. apply elem_of_app. by left. }
    exists (recordModule node modMap1). split; [done|].
    rewrite recordModule_extractKey.
    destruct (Packages.PkgModule (Pkg node)) as [mp|] eqn:Hmp.
    2:{ split; [done|]. split.
        - intros k m [?|(p' & node' & ? & ?)]%Ho; [by left|]. right.
          exists p', node'. split; [|done]. apply elem_of_app. by left.
        - intros p' node' m [Hp'| ->%list_elem_of_singleton]%elem_of_app Hn';
            [|congruence].
          intros Hm. destruct (Hc p' node' m Hp' Hn' Hm)
            as (m' & p2 & node2 & ? & ? & ? & ?).
          exists m', p2, node2. split; [done|]. split; [done|].
          split; [|done]. apply elem_of_app. by left. }
    split; [|split].
    + intros k Hat. rewrite lookup_insert_ne; [by apply Hk|].
      intros <-. apply Hat, extractKey_at.
    + intros k m. destruct (decide (extractKey mp = k)) as [<-|Hne].
      * rewrite lookup_insert_eq. intros [= <-]. right. exists p, node.
        split; [|done]. apply elem_of_app. right. left.
      * rewrite lookup_insert_ne by done.
        intros [?|(p' & node' & ? & ?)]%Ho; [by left|]. right.
        exists p', node'. split; [|done]. apply elem_of_app. by left.
    + assert (p ∈ (order ++ [p])%list) as Hp.
      { apply elem_of_app. right. left. }
      intros p' node' m [Hp'| ->%list_elem_of_singleton]%elem_of_app Hn' Hm.
      * destruct (decide (extractKey mp = extractKey m)) as [E|Hne].
        -- exists mp, p, node. rewrite <- E, lookup_insert_eq. done.
        -- destruct (Hc p' node' m Hp' Hn' Hm)
             as (m' & p2 & node2 & ? & ? & ? & ?).
           exists m', p2, node2. rewrite lookup_insert_ne by done.
           split; [done|]. split; [done|]. split; [|done].
           apply elem_of_app. by left.
      * rewrite Hn in Hn'. injection Hn' as <-. rewrite Hmp in Hm.
        injection Hm as <-. exists mp, p, node. by rewrite lookup_insert_eq.
Qed.

Variable rangeModules : list Packages.Module → list Packages.Module.
Hypothesis rangeModules_valid : ∀ l, rangeModules l ≡ₚ l.

(** The traversal of [extractModules] ends, and has recorded the modules
    of the packages that [pkgs] reach. *)
Lemma extract_all (pkgs : list PkgPtr) (modMap0 : gmap string Packages.Module) :
  ∃ order seen modMap,
    overImports (extract heap rangeImports (enoughFuel heap)) pkgs (∅, modMap0)
    = Some (seen, modMap)
    ∧ (∀ p, p ∈ order ↔ reachable heap pkgs p)
    ∧ calls heap record order modMap0 = Done modMap.
Proof.
  destruct (walk_traversal heap rangeImports rangeImports_valid record
              pkgs modMap0) as (order & _ & Hin & Hwalk).
  unfold walk in Hwalk. rewrite overImports_overPkgs in Hwalk.
  destruct (overImports _ _ _) as [[seen modMap]|]; simpl in Hwalk; [|done].
  destruct Hwalk as [Hcalls Hall].
  exists order, seen, modMap. split; [done|]. split; [|done].
  intros p. split; [apply Hin|apply Hall].
Qed.

Lemma extractModules_modules (tag : string) (pkgs : list PkgPtr) :
  match GoTagToSemver tag with
  | Ok version =>
      ∃ modules,
        extractModules heap rangeImports rangeModules tag pkgs = Ok modules
        ∧ stdlib version ∈ modules
        ∧ (∀ m, m ∈ modules → m = stdlib version ∨ moduleOf heap pkgs m)
        ∧ (∀ m, moduleOf heap pkgs m →
             ∃ m', m' ∈ modules ∧ moduleOf heap pkgs m'
                   ∧ extractKey m' = extractKey m)
  | Err e => extractModules heap rangeImports rangeModules tag pkgs = Err e
  | Panic msg => extractModules heap rangeImports rangeModules tag pkgs = Panic msg
  end.
Proof.
  unfold extractModules.
  destruct (GoTagToSemver tag) as [version| |]; [|done..].
  cbv [mbind result_bind]. fold (stdlib version).
  destruct (extract_all pkgs {[ "stdlib" := stdlib version ]})
    as (order & seen & modMap & -> & Hin & Hcalls).
  destruct (calls_record order {[ "stdlib" := stdlib version ]})
    as (modMap' & Hcalls' & Hk & Ho & Hc).
  rewrite Hcalls in Hcalls'. injection Hcalls' as <-.
  eexists. split; [done|]. simpl.
  assert (∀ m, m ∈ rangeModules (map_to_list modMap).*2
               ↔ ∃ k, modMap !! k = Some m) as Hmem.
  { intros m. rewrite rangeModules_valid, list_elem_of_fmap. split.
    - intros ([k m'] & -> & Hm%elem_of_map_to_list). by exists k.
    - intros [k Hm]. exists (k, m). split; [done|]. by apply elem_of_map_to_list. }
  split; [|split].
  - apply Hmem. exists "stdlib". rewrite Hk.
    + by rewrite lookup_singleton_eq.
    + simpl. rewrite !not_elem_of_cons. repeat split; try done. apply not_elem_of_nil.
  - intros m [k Hm]%Hmem. destruct (Ho k m Hm) as [H0|(p & node & Hp & Hn & Hmod & _)].
    + left. apply lookup_singleton_Some in H0 as [_ <-]. done.
    + right. exists p, node. split; [by apply Hin|done].
  - intros m (p & node & Hp%Hin & Hn & Hm).
    destruct (Hc p node m Hp Hn Hm) as (m' & p' & node' & Hm' & Hkey & Hp' & Hn' & Hmod').
    exists m'. split; [apply Hmem; by eexists|]. split; [|done].
    exists p', node'. split; [by apply Hin|done].
Qed.


(** X9. [extractModules] panics when the tag of the toolchain makes
    [GoTagToSemver] panic, and else returns a list that holds the module
    stdlib, with the version of the toolchain, and modules of the packages
    that [pkgs] reach through their imports: for each such module, one
    module of such a package that has the same path and version after
    replacement. *)
Theorem extractModules_lists_the_modules (tag : string) (pkgs : list PkgPtr) :
  match GoTagToSemver tag with
  | Ok version =>
      ∃ modules,
        extractModules heap rangeImports rangeModules tag pkgs = Ok modules
        ∧ stdlib version ∈ modules
        ∧ (∀ m, m ∈ modules → m = stdlib version ∨ moduleOf heap pkgs m)
        ∧ (∀ m, moduleOf heap pkgs m →
             ∃ m', m' ∈ modules ∧ moduleOf heap pkgs m'
                   ∧ extractKey m' = extractKey m)
  | Err e => extractModules heap rangeImports rangeModules tag pkgs = Err e
  | Panic msg => extractModules heap rangeImports rangeModules tag pkgs = Panic msg
  end.
Proof. apply extractModules_modules. Qed.

End ExtractedModules.

(** ** [FetchOSVEntries] *)

Section FetchFacts.
Import GoStrings Osvutil OsvutilEnv Fetch FetchModules FetchEntries.
Variable heap : gmap PkgPtr Loaded.
Variable rangeImports : PkgPtr → list PkgPtr → list PkgPtr.
Hypothesis rangeImports_valid : ∀ pkg l, rangeImports pkg l ≡ₚ l.
Variable rangeModules : list Packages.Module → list Packages.Module.
Hypothesis rangeModules_valid : ∀ l, rangeModules l ≡ₚ l.
Variable env : Environ.
Variable runtimeGOOS runtimeGOARCH : string.
Variable AffectsSemver : Osv.Affects → string → bool.
Variable CheckPath : string → bool.
Variable GetByModule : string → result (list Osv.Entry).

Abbreviation goos := (goos env runtimeGOOS).
Abbreviation goarch := (goarch env runtimeGOARCH).
Abbreviation fetchModule :=
  (fetchModule goos goarch AffectsSemver CheckPath GetByModule).
Abbreviation FetchOSVEntries :=
  (FetchOSVEntries heap rangeImports rangeModules env runtimeGOOS runtimeGOARCH
                   AffectsSemver CheckPath GetByModule).
Abbreviation selectedEntry := (selectedEntry goos goarch).
Abbreviation selectedIndex := (selectedIndex goos goarch).

Lemma normalize_filter_selected (m : Packages.Module) (vulns : list Osv.Entry)
    (v : Osv.Entry) :
  v ∈ normalizeOSVEntries m (filterOSVEntries goos goarch AffectsSemver m vulns) →
  selectedEntry v.
Proof.
  unfold normalizeOSVEntries, filterOSVEntries.
  intros (v1 & -> & Hv1)%list_elem_of_fmap.
  apply list_elem_of_omap in Hv1 as (v0 & _ & Hv0).
  apply filterEntry_Some in Hv0 as (Ha & Hne & _ & _).
  split; [done|]. split.
  - simpl. rewrite Ha. intros a (a0 & _ & Ha0)%list_elem_of_omap.
    apply filterAffected_Some in Ha0 as (He & _ & _ & _ & _ & Hp & _ & Hi & _).
    rewrite Hp. split; [done|]. rewrite Hi.
    intros imp Himp%list_elem_of_In. by apply List.filter_In in Himp as [_ ?].
  - simpl. intros H%TrimSpace_bytes. by apply replace_byte_gone in H.
Qed.

Lemma fetchModule_selected mod2OSV mdl mod2OSV' :
  selectedIndex mod2OSV → fetchModule mod2OSV mdl = Ok mod2OSV' →
  selectedIndex mod2OSV'.
Proof.
  intros Hsel. unfold Osvutil.fetchModule.
  destruct (CheckPath _); simpl; [|by intros [= <-]].
  destruct (GetByModule _) as [vulns| |]; simpl; [|done..].
  destruct (Nat.ltb_spec 0 (length (normalizeOSVEntries (effectiveModule_fix mdl)
      (filterOSVEntries goos goarch AffectsSemver (effectiveModule_fix mdl) vulns))))
    as [Hlen|Hlen]; intros [= <-]; [|done].
  intros k vs. destruct (decide (modKey mdl = k)) as [<-|Hne].
  - rewrite lookup_insert_eq. intros [= <-]. split.
    + intros E. rewrite E in Hlen. simpl in Hlen. lia.
    + intros v. apply normalize_filter_selected.
  - rewrite lookup_insert_ne by done. apply Hsel.
Qed.

Lemma fetch_loop_selected modules mod2OSV mod2OSV' :
  selectedIndex mod2OSV →
  Analysis.foldResult fetchModule mod2OSV modules = Ok mod2OSV' →
  selectedIndex mod2OSV'.
Proof.
  revert mod2OSV. induction modules as [|m l IH]; intros mod2OSV Hsel; simpl.
  - by intros [= <-].
  - destruct (fetchModule mod2OSV m) as [m1| |] eqn:E; simpl; [|done..].
    apply IH. by eapply fetchModule_selected.
Qed.

Lemma fetch_loop_Err modules mod2OSV e :
  Analysis.foldResult fetchModule mod2OSV modules = Err e →
  ∃ m, m ∈ modules
       ∧ CheckPath (Packages.Path (effectiveModule_fix m)) = true
       ∧ GetByModule (Packages.Path (effectiveModule_fix m)) = Err e.
Proof.
  revert mod2OSV. induction modules as [|m l IH]; intros mod2OSV; simpl; [done|].
  destruct (fetchModule mod2OSV m) as [m1|e'|] eqn:E; simpl; [|intros [= <-]|done].
  - intros (m' & ? & ?)%IH. exists m'. split; [by right|done].
  - exists m. split; [left|]. revert E. unfold Osvutil.fetchModule.
    destruct (CheckPath _); simpl; [|done].
    destruct (GetByModule _) as [vulns| |]; simpl; [|by intros [= <-]|done].
    by destruct (Nat.ltb _ _).
Qed.

Lemma fetch_loop_Ok modules mod2OSV :
  (∀ path, ∃ vulns, GetByModule path = Ok vulns) →
  ∃ mod2OSV', Analysis.foldResult fetchModule mod2OSV modules = Ok mod2OSV'.
Proof.
  intros Hok. revert mod2OSV. induction modules as [|m l IH]; intros mod2OSV;
    simpl; [by eexists|].
  assert (∃ m1, fetchModule mod2OSV m = Ok m1) as [m1 ->].
  { unfold Osvutil.fetchModule. destruct (CheckPath _); simpl; [|by eexists].
    destruct (Hok (Packages.Path (effectiveModule_fix m))) as [vulns ->]. simpl.
    destruct (Nat.ltb _ _); by eexists. }
  simpl. apply IH.
Qed.

(** ** The callback of the walk *)

Section Collect.
Variable stdlibModule : Packages.Module.
Variable mod2OSV : gmap string (list Osv.Entry).
Variable pkgs : list PkgPtr.
Hypothesis mod2OSV_selected : selectedIndex mod2OSV.

Abbreviation collect := (collect stdlibModule mod2OSV).
Abbreviation selectedPackages := (selectedPackages heap goos goarch pkgs).

Lemma packageVulns_Panic (pkg : Packages.Package) (msg : string) :
  packageVulns stdlibModule mod2OSV pkg = Panic msg
  ↔ msg = "invalid memory address or nil pointer dereference"
    ∧ Packages.PkgModule pkg = None
    ∧ isStdPackage (Packages.PkgPath pkg) = false.
Proof.
  unfold packageVulns. destruct (Packages.PkgModule pkg) as [m|].
  - split; [done|]. by intros (_ & ? & _).
  - destruct (isStdPackage (Packages.PkgPath pkg)).
    + split; [done|]. by intros (_ & _ & ?).
    + split; [by intros [= <-]|by intros (-> & _)].
Qed.

Lemma packageVulns_no_Err (pkg : Packages.Package) (e : string) :
  packageVulns stdlibModule mod2OSV pkg ≠ Err e.
Proof.
  unfold packageVulns. destruct (Packages.PkgModule pkg) as [m|]; [done|].
  by destruct (isStdPackage (Packages.PkgPath pkg)).
Qed.

Lemma packageVulns_Ok (pkg : Packages.Package) (vulns : list Osv.Entry)
    (v : Osv.Entry) :
  packageVulns stdlibModule mod2OSV pkg = Ok vulns → v ∈ vulns →
  selectedEntry v ∧ listsPackage (Packages.PkgPath pkg) v.
Proof.
  unfold packageVulns.
  destruct (match Packages.PkgModule pkg with
            | Some m => Some m
            | None => if isStdPackage (Packages.PkgPath pkg)
                      then Some stdlibModule else None
            end) as [m|]; [|done].
  intros [= <-]. intros (v' & Hv' & Hin)%list_elem_of_In%in_flat_map.
  apply in_flat_map in Hin as (a & Ha & Hin).
  apply in_flat_map in Hin as (imp & Himp & Hin).
  destruct (String.eqb_spec (Osv.Path imp) (Packages.PkgPath pkg)) as [E|];
    [|done].
  destruct Hin as [->|[]]. split.
  - destruct (mod2OSV !! modKey m) as [vs|] eqn:Hk; simpl in Hv'; [|done].
    apply (mod2OSV_selected _ _ Hk). by apply list_elem_of_In.
  - exists a, imp. split; [by apply list_elem_of_In|].
    split; [by apply list_elem_of_In|done].
Qed.

Lemma calls_collect (order : list PkgPtr) pkg2OSV :
  (∀ p, p ∈ order → reachable heap pkgs p) →
  selectedPackages pkg2OSV →
  match calls heap collect order pkg2OSV with
  | Done pkg2OSV' =>
      selectedPackages pkg2OSV'
      ∧ ∀ p node, p ∈ order → heap !! p = Some node → ¬ orphan node
  | Failed _ _ => False
  | Panicked msg =>
      msg = "invalid memory address or nil pointer dereference"
      ∧ ∃ p node, p ∈ order ∧ heap !! p = Some node ∧ orphan node
  end.
Proof.
  revert pkg2OSV. induction order as [|p order IH]; intros pkg2OSV Hin Hsel; simpl.
  - split; [done|]. by intros ? ? ?%elem_of_nil.
  - assert (∀ q, q ∈ order → reachable heap pkgs q) as Hin'.
    { intros q Hq. apply Hin. by right. }
    destruct (heap !! p) as [node|] eqn:Hn.
    2:{ specialize (IH pkg2OSV Hin' Hsel).
        destruct (calls heap collect order pkg2OSV) as [s'| |msg]; [|done|].
        - destruct IH as [? Ho]. split; [done|].
          intros q nq [->|Hq]%elem_of_cons; [congruence|by apply (Ho q)].
        - destruct IH as (-> & q & nq & ? & ?). split; [done|].
          exists q, nq. split; [by right|done]. }
    unfold Fetch.collect at 1.
    destruct (packageVulns stdlibModule mod2OSV (Pkg node)) as [vulns|e|msg] eqn:E.
    + assert (selectedPackages
                (if Nat.ltb 0 (length vulns)
                 then <[Packages.PkgPath (Pkg node) := vulns]> pkg2OSV
                 else pkg2OSV)) as Hsel'.
      { destruct (Nat.ltb_spec 0 (length vulns)) as [Hlen|]; [|done].
        intros q vs. destruct (decide (Packages.PkgPath (Pkg node) = q)) as [<-|Hne].
        - rewrite lookup_insert_eq. intros [= <-]. split; [|split].
          + intros ->. simpl in Hlen. lia.
          + exists p, node. split; [apply Hin; left|done].
          + intros v. by apply packageVulns_Ok.
        - rewrite lookup_insert_ne by done. apply Hsel. }
      specialize (IH _ Hin' Hsel').
      destruct (calls heap collect order _) as [s'| |msg]; [|done|].
      * destruct IH as [? Ho]. split; [done|].
        intros q nq [->|Hq]%elem_of_cons Hq'; [|by apply (Ho q)].
        rewrite Hn in Hq'. injection Hq' as <-. intros [Hm Hstd].
        assert (packageVulns stdlibModule mod2OSV (Pkg node)
                = Panic "invalid memory address or nil pointer dereference") as E'
          by (by apply packageVulns_Panic). congruence.
      * destruct IH as (-> & q & nq & ? & ?). split; [done|].
        exists q, nq. split; [by right|done].
    + by apply packageVulns_no_Err in E.
    + apply packageVulns_Panic in E as (-> & Hm & Hstd). split; [done|].
      exists p, node. split; [left|]. split; [done|]. by split.
Qed.

End Collect.

Abbreviation selectedPackages := (selectedPackages heap goos goarch).

Lemma selectedIndex_empty : selectedIndex ∅.
Proof. intros k vs H. by rewrite lookup_empty in H. Qed.

(** What [FetchOSVEntries] does once the modules are listed and looked
    up. *)
Lemma FetchOSVEntries_unfold (tag : string) (pkgs : list PkgPtr) :
  FetchOSVEntries tag pkgs
  = (modules ← extractModules heap rangeImports rangeModules tag pkgs;
     version ← GoTagToSemver tag;
     mod2OSV ← Analysis.foldResult fetchModule ∅
                  (modules ++ [stdlib version])%list;
     match walk heap rangeImports (collect (stdlib version) mod2OSV) pkgs ∅ with
     | None => Panic "out of fuel"
     | Some (Done pkg2OSV) => Ok pkg2OSV
     | Some (Failed pkg2OSV _) => Ok pkg2OSV
     | Some (Panicked msg) => Panic msg
     end).
Proof. reflexivity. Qed.

Lemma walk_collect (version : string) (mod2OSV : gmap string (list Osv.Entry))
    (pkgs : list PkgPtr) :
  selectedIndex mod2OSV →
  match walk heap rangeImports (collect (stdlib version) mod2OSV) pkgs ∅ with
  | Some (Done pkg2OSV) =>
      selectedPackages pkgs pkg2OSV
      ∧ ∀ p node, reachable heap pkgs p → heap !! p = Some node → ¬ orphan node
  | Some (Panicked msg) =>
      msg = "invalid memory address or nil pointer dereference"
      ∧ ∃ p node, reachable heap pkgs p ∧ heap !! p = Some node ∧ orphan node
  | _ => False
  end.
Proof.
  intros Hsel.
  destruct (walk_traversal heap rangeImports rangeImports_valid
              (collect (stdlib version) mod2OSV) pkgs ∅)
    as (order & _ & Hin & Hwalk).
  assert (selectedPackages pkgs ∅) as Hempty.
  { intros ? ? H. by rewrite lookup_empty in H. }
  pose proof (calls_collect (stdlib version) mod2OSV pkgs Hsel order ∅ Hin Hempty)
    as Hcalls.
  destruct (walk _ _ _ _ _) as [[s'|s' e|msg]|]; [| | |done].
  - destruct Hwalk as [Hc Hall]. rewrite Hc in Hcalls.
    destruct Hcalls as [? Ho].
    split; [done|]. intros p node Hp. apply (Ho p). by apply Hall.
  - by rewrite Hwalk in Hcalls.
  - rewrite Hwalk in Hcalls.
    destruct Hcalls as (-> & p & node & Hp & ?).
    split; [done|]. exists p, node. split; [by apply Hin|done].
Qed.


Lemma FetchOSVEntries_selected (tag : string) (pkgs : list PkgPtr)
    (pkg2OSV : gmap string (list Osv.Entry)) :
  FetchOSVEntries tag pkgs = Ok pkg2OSV → selectedPackages pkgs pkg2OSV.
Proof.
  rewrite FetchOSVEntries_unfold.
  destruct (extractModules _ _ _ _ _) as [modules| |]; simpl; [|done..].
  destruct (GoTagToSemver tag) as [version| |]; simpl; [|done..].
  destruct (Analysis.foldResult _ _ _) as [mod2OSV| |] eqn:Hfetch; simpl; [|done..].
  apply fetch_loop_selected in Hfetch; [|apply selectedIndex_empty].
  pose proof (walk_collect version mod2OSV pkgs Hfetch) as Hwalk.
  destruct (walk _ _ _ _ _) as [[s'|s' e|msg]|]; try done.
  intros [= <-]. by destruct Hwalk as [Hsel _].
Qed.

(** X10. Every list of the map that [FetchOSVEntries] returns is filed under
    the path of a package that [pkgs] reach, is not empty, and holds
    entries that list that package among the imports of an Affected record
    and are as the filter and the normalisation leave them: with Affected
    records, all of ecosystem Go and with imports of the platform only, and
    details without line feed. *)
Theorem FetchOSVEntries_files_selected_entries (tag : string)
    (pkgs : list PkgPtr) (pkg2OSV : gmap string (list Osv.Entry))
    (p : string) (vs : list Osv.Entry) :
  FetchOSVEntries tag pkgs = Ok pkg2OSV →
  pkg2OSV !! p = Some vs →
  vs ≠ []
  ∧ (∃ pkg node, reachable heap pkgs pkg ∧ heap !! pkg = Some node
                 ∧ Packages.PkgPath (Pkg node) = p)
  ∧ ∀ v, v ∈ vs → selectedEntry v ∧ listsPackage p v.
Proof. intros Hfetch%FetchOSVEntries_selected. apply Hfetch. Qed.

(** X11. When the tag of the toolchain converts and every lookup in the
    database succeeds, [FetchOSVEntries] returns no error, and it panics,
    with a nil pointer dereference, exactly when [pkgs] reach a package
    that has no module and whose path is not a standard-library path. *)
Theorem FetchOSVEntries_panics_on_a_package_without_module (tag : string)
    (pkgs : list PkgPtr) (version : string) :
  GoTagToSemver tag = Ok version →
  (∀ path, ∃ vulns, GetByModule path = Ok vulns) →
  (∀ e, FetchOSVEntries tag pkgs ≠ Err e)
  ∧ ∀ msg,
      FetchOSVEntries tag pkgs = Panic msg
      ↔ msg = "invalid memory address or nil pointer dereference"
        ∧ ∃ p node, reachable heap pkgs p ∧ heap !! p = Some node ∧ orphan node.
Proof.
  intros Htag Hok. rewrite FetchOSVEntries_unfold.
  pose proof (extractModules_modules heap rangeImports rangeImports_valid
                rangeModules rangeModules_valid tag pkgs) as Hmods.
  rewrite Htag in Hmods. destruct Hmods as (modules & -> & _).
  rewrite Htag. simpl.
  destruct (fetch_loop_Ok (modules ++ [stdlib version]) ∅ Hok) as [mod2OSV Hfetch].
  rewrite Hfetch. simpl.
  apply fetch_loop_selected in Hfetch; [|apply selectedIndex_empty].
  pose proof (walk_collect version mod2OSV pkgs Hfetch) as Hwalk.
  destruct (walk _ _ _ _ _) as [[s'|s' e|msg']|]; try done.
  - split; [done|]. intros msg. split; [done|].
    intros (_ & p & node & Hp & Hn & Ho). destruct Hwalk as [_ Hno].
    by destruct (Hno p node Hp Hn).
  - split; [done|]. intros msg. destruct Hwalk as [-> Hex]. split.
    + by intros [= <-].
    + by intros [-> _].
Qed.

(** X12. An error that [FetchOSVEntries] returns is the error of the lookup
    of a module in the database: of stdlib or of the module of a package
    that [pkgs] reach, under the path it has after replacement, a path
    that [module.CheckPath] accepts. *)
Theorem FetchOSVEntries_returns_the_error_of_a_lookup (tag : string)
    (pkgs : list PkgPtr) (e : string) :
  FetchOSVEntries tag pkgs = Err e →
  ∃ version m,
    GoTagToSemver tag = Ok version
    ∧ (m = stdlib version ∨ moduleOf heap pkgs m)
    ∧ CheckPath (Packages.Path (effectiveModule_fix m)) = true
    ∧ GetByModule (Packages.Path (effectiveModule_fix m)) = Err e.
Proof.
  rewrite FetchOSVEntries_unfold.
  pose proof (extractModules_modules heap rangeImports rangeImports_valid
                rangeModules rangeModules_valid tag pkgs) as Hmods.
  destruct (GoTagToSemver tag) as [version|e'|msg] eqn:Htag.
  - destruct Hmods as (modules & -> & _ & Hin & _). simpl.
    destruct (Analysis.foldResult _ _ _) as [mod2OSV|e'|] eqn:Hfetch; simpl.
    + by destruct (walk _ _ _ _ _) as [[s'|s' e'|msg']|].
    + intros [= ->]. apply fetch_loop_Err in Hfetch as (m & Hm & ? & ?).
      exists version, m. split; [done|]. split; [|done].
      apply elem_of_app in Hm as [Hm|Hm%list_elem_of_singleton]; [by apply Hin|by left].
    + done.
  - exfalso. revert Htag. clear. unfold GoTagToSemver.
    destruct (String.eqb tag ""); [done|]. destruct (Fields tag) as [|t l]; [done|].
    destruct (String.eqb t "go1"); [done|].
    destruct (String.eqb t "go1.0"); [done|].
    by destruct (Regexp.FindStringSubmatch _ _).
  - by rewrite Hmods.
Qed.

(** X26. The summary of [Analyze] is made without a panic from the map that
    [FetchOSVEntries] returned and diagnostics whose categories hold a
    colon: the first entry of every list of the map has an Affected
    record. *)
Theorem Analyze_summarizes_the_fetched_entries (tag : string)
    (pkgs : list PkgPtr) (pkg2vulns : gmap string (list Osv.Entry))
    (results : list (list Analysis.Diagnostic)) :
  FetchOSVEntries tag pkgs = Ok pkg2vulns →
  (∀ d, d ∈ concat results → Analysis.hasColon (Analysis.Category d)) →
  ∃ summary, Quickcheck.summarize pkg2vulns results = Ok summary.
Proof.
  intros Hsel%FetchOSVEntries_selected Hcolon. eexists.
  apply foldResult_summary. intros d Hd. apply keyOf_Ok. split; [by apply Hcolon|].
  intros v vs Hk. destruct (Hsel _ _ Hk) as (_ & _ & Hv).
  destruct (Hv v) as [(Hne & _) _]; [left|done].
Qed.

End FetchFacts.

(** ** [isDirectlyVulnerable] and the filter, as equivalences *)

Section DirectFacts.
Import GoStrings Types Analysis.

Lemma affectedSymbols_iff (pkg : string) (v : Osv.Entry) (s : string) :
  s ∈ affectedSymbols pkg v
  ↔ ∃ a imp, a ∈ Osv.AffectedList v ∧ imp ∈ Osv.Imports (Osv.EcoSpecific a)
             ∧ Osv.Path imp = pkg ∧ s ∈ Osv.Symbols imp.
Proof.
  unfold affectedSymbols. rewrite list_elem_of_In, in_flat_map. split.
  - intros (a & Ha & (imp & Himp & Hs)%in_flat_map).
    destruct (String.eqb_spec (Osv.Path imp) pkg) as [E|]; [|done].
    exists a, imp. by rewrite !list_elem_of_In.
  - intros (a & imp & Ha & Himp & E & Hs). exists a.
    split; [by apply list_elem_of_In|]. apply in_flat_map. exists imp.
    split; [by apply list_elem_of_In|].
    destruct (String.eqb_spec (Osv.Path imp) pkg); [by apply list_elem_of_In|done].
Qed.

(** The ids that [isDirectlyVulnerable] gives an object are those of the
    entries that the catalog lists for the package of the object, a
    function, and that name the function, by the name the database gives
    it, among the symbols of an import of that package, or that name no
    symbol of that package at all: then every function of the package
    is vulnerable. *)
Lemma isDirectlyVulnerable_spec (pass : Pass) (catalog : Catalog)
    (o : ObjId) (id : string) :
  id ∈ isDirectlyVulnerable pass catalog o
  ↔ ∃ recv pkg v,
      Kind (Objs pass o) = KFunc recv
      ∧ Pkg (Objs pass o) = Some pkg
      ∧ v ∈ default [] (PkgToVulns catalog !! pkg)
      ∧ Osv.ID v = id
      ∧ ((∀ a imp, a ∈ Osv.AffectedList v →
            imp ∈ Osv.Imports (Osv.EcoSpecific a) →
            Osv.Path imp = pkg → Osv.Symbols imp = [])
         ∨ ∃ a imp, a ∈ Osv.AffectedList v
                    ∧ imp ∈ Osv.Imports (Osv.EcoSpecific a)
                    ∧ Osv.Path imp = pkg
                    ∧ dbFuncName pass (Name (Objs pass o)) recv
                      ∈ Osv.Symbols imp).
Proof.
  assert (∀ pkg v, affectedSymbols pkg v = []
                   ↔ ∀ a imp, a ∈ Osv.AffectedList v →
                       imp ∈ Osv.Imports (Osv.EcoSpecific a) →
                       Osv.Path imp = pkg → Osv.Symbols imp = []) as Hnil.
  { intros pkg v. split.
    - intros E a imp Ha Himp Hp. destruct (Osv.Symbols imp) as [|s l] eqn:Es; [done|].
      assert (s ∈ affectedSymbols pkg v) as Hs.
      { apply affectedSymbols_iff. exists a, imp. rewrite Es.
        repeat (split; [done|]). left. }
      rewrite E in Hs. by apply elem_of_nil in Hs.
    - intros H. destruct (affectedSymbols pkg v) as [|s l] eqn:E; [done|].
      assert (s ∈ affectedSymbols pkg v) as Hs by (rewrite E; left).
      apply affectedSymbols_iff in Hs as (a & imp & Ha & Himp & Hp & Hs).
      rewrite (H a imp Ha Himp Hp) in Hs. by apply elem_of_nil in Hs. }
  unfold isDirectlyVulnerable.
  destruct (Kind (Objs pass o)) as [recv| | | | |] eqn:Hk;
    try (split; [by intros ?%elem_of_nil|by intros (? & ? & ? & ? & _)]).
  destruct (Pkg (Objs pass o)) as [pkg|] eqn:Hp.
  2:{ split; [by intros ?%elem_of_nil|by intros (? & ? & ? & _ & ? & _)]. }
  set (vulns := default [] (PkgToVulns catalog !! pkg)).
  assert (id ∈ flat_map (λ v,
              let syms := affectedSymbols pkg v in
              if Nat.eqb (length syms) 0 then [Osv.ID v]
              else flat_map (λ s, if String.eqb s (dbFuncName pass (Name (Objs pass o)) recv)
                                  then [Osv.ID v] else []) syms) vulns
          ↔ ∃ v, v ∈ vulns ∧ Osv.ID v = id
                 ∧ (affectedSymbols pkg v = []
                    ∨ dbFuncName pass (Name (Objs pass o)) recv
                      ∈ affectedSymbols pkg v)) as Hflat.
  { rewrite list_elem_of_In, in_flat_map. split.
    - intros (v & Hv%list_elem_of_In & Hin). exists v. split; [done|].
      simpl in Hin. destruct (Nat.eqb (length _) 0) eqn:El.
      + destruct Hin as [<-|[]]. split; [done|]. left. by apply length_zero_iff.
      + apply in_flat_map in Hin as (s & Hs%list_elem_of_In & Hin).
        destruct (String.eqb_spec s (dbFuncName pass (Name (Objs pass o)) recv))
          as [->|]; [|done].
        destruct Hin as [<-|[]]. split; [done|]. by right.
    - intros (v & Hv & <- & Hcase). exists v. split; [by apply list_elem_of_In|].
      simpl. destruct (Nat.eqb (length _) 0) eqn:El; [by left|].
      destruct Hcase as [E|Hs].
      + rewrite E in El. done.
      + apply in_flat_map. eexists. split; [by apply list_elem_of_In|].
        rewrite String.eqb_refl. by left. }
  destruct (Nat.eqb (length vulns) 0) eqn:El.
  - apply length_zero_iff in El. split; [by intros ?%elem_of_nil|].
    intros (? & ? & v & [= <-] & [= <-] & Hv & _). fold vulns in Hv.
    rewrite El in Hv. by apply elem_of_nil in Hv.
  - rewrite Hflat. split.
    + intros (v & Hv & Hid & Hcase). exists recv, pkg, v.
      repeat (split; [done|]). destruct Hcase as [E|Hs].
      * left. by apply Hnil.
      * right. by apply affectedSymbols_iff in Hs.
    + intros (? & ? & v & [= <-] & [= <-] & Hv & Hid & Hcase). exists v.
      repeat (split; [done|]). destruct Hcase as [E|Hs].
      * left. by apply Hnil.
      * right. by apply affectedSymbols_iff.
Qed.

(** X21. The ids that [isDirectlyVulnerable] gives an object are those of the
    entries that the catalog lists for the package of the object, a
    function, and that name the function, by the name the database gives
    it, among the symbols of an import of that package, or that name no
    symbol of that package at all: then every function of the package
    is vulnerable. *)
Theorem isDirectlyVulnerable_iff (pass : Pass) (catalog : Catalog)
    (o : ObjId) (id : string) :
  id ∈ isDirectlyVulnerable pass catalog o
  ↔ ∃ recv pkg v,
      Kind (Objs pass o) = KFunc recv
      ∧ Pkg (Objs pass o) = Some pkg
      ∧ v ∈ default [] (PkgToVulns catalog !! pkg)
      ∧ Osv.ID v = id
      ∧ ((∀ a imp, a ∈ Osv.AffectedList v →
            imp ∈ Osv.Imports (Osv.EcoSpecific a) →
            Osv.Path imp = pkg → Osv.Symbols imp = [])
         ∨ ∃ a imp, a ∈ Osv.AffectedList v
                    ∧ imp ∈ Osv.Imports (Osv.EcoSpecific a)
                    ∧ Osv.Path imp = pkg
                    ∧ dbFuncName pass (Name (Objs pass o)) recv
                      ∈ Osv.Symbols imp).
Proof. apply isDirectlyVulnerable_spec. Qed.

End DirectFacts.

Section FilterIff.
Import GoStrings Osvutil.
Variable goos goarch : string.
Variable AffectsSemver : Osv.Affects → string → bool.

(** X7. The filter keeps an Affected record exactly when it is of ecosystem
    Go, belongs to the module (by a standard-library path for stdlib, by
    the prefix of its name otherwise), the version of the module is known
    and in the ranges of the record, and the record lists no import at all
    or an import of the platform; it keeps it with the imports of the
    platform only. *)
Theorem filterAffected_keeps_exactly (module : Packages.Module)
    (a a' : Osv.Affected) :
  filterAffected goos goarch AffectsSemver module a = Some a'
  ↔ Osv.Ecosystem (Osv.Pkg a) = Osv.GoEcosystem
    ∧ (Packages.Path module = "stdlib" →
         isStdPackage (Osv.Name (Osv.Pkg a)) = true)
    ∧ (Packages.Path module ≠ "stdlib" →
         HasPrefix (Osv.Name (Osv.Pkg a)) (Packages.Path module) = true)
    ∧ modVersion module ≠ ""
    ∧ AffectsSemver (Osv.Ranges a) (modVersion module) = true
    ∧ (Osv.Imports (Osv.EcoSpecific a) = []
       ∨ ∃ imp, imp ∈ Osv.Imports (Osv.EcoSpecific a)
                ∧ matchesPlatform goos goarch imp = true)
    ∧ a' = {| Osv.Pkg := Osv.Pkg a; Osv.Ranges := Osv.Ranges a;
              Osv.DatabaseSpecificURL := Osv.DatabaseSpecificURL a;
              Osv.EcoSpecific :=
                {| Osv.Imports :=
                     List.filter (matchesPlatform goos goarch)
                                 (Osv.Imports (Osv.EcoSpecific a)) |} |}.
Proof.
  assert (negb (Nat.eqb (length (Osv.Imports (Osv.EcoSpecific a))) 0)
          && Nat.eqb (length (List.filter (matchesPlatform goos goarch)
                                (Osv.Imports (Osv.EcoSpecific a)))) 0 = false
          ↔ (Osv.Imports (Osv.EcoSpecific a) = []
             ∨ ∃ imp, imp ∈ Osv.Imports (Osv.EcoSpecific a)
                      ∧ matchesPlatform goos goarch imp = true)) as Hplat.
  { rewrite andb_false_iff, negb_false_iff, length_zero_iff. split.
    - intros [?|Hne]; [by left|]. right.
      destruct (List.filter _ _) as [|imp l] eqn:E; [done|].
      assert (In imp (List.filter (matchesPlatform goos goarch)
                        (Osv.Imports (Osv.EcoSpecific a)))) as Hin
        by (rewrite E; by left).
      apply List.filter_In in Hin as [Hin ?]. exists imp.
      split; [by apply list_elem_of_In|done].
    - intros [?|(imp & Hin & Hm)]; [by left|]. right.
      destruct (List.filter _ _) as [|x l] eqn:E; [|done].
      assert (In imp (List.filter (matchesPlatform goos goarch)
                        (Osv.Imports (Osv.EcoSpecific a)))) as Hin'.
      { apply List.filter_In. split; [by apply list_elem_of_In|done]. }
      rewrite E in Hin'. done. }
  unfold filterAffected.
  destruct (String.eqb_spec (Osv.Ecosystem (Osv.Pkg a)) Osv.GoEcosystem) as [He|He];
    simpl; [|split; [done|by intros [? _]]].
  destruct (String.eqb_spec (Packages.Path module) "stdlib") as [Hs|Hs]; simpl.
  - destruct (isStdPackage (Osv.Name (Osv.Pkg a))) eqn:Hstd; simpl.
    2:{ split; [done|]. intros (_ & H & _). by specialize (H Hs). }
    destruct (String.eqb_spec (modVersion module) "") as [Hv|Hv].
    { split; [done|]. by intros (_ & _ & _ & ? & _). }
    destruct (AffectsSemver _ _) eqn:Haff; simpl.
    2:{ split; [done|]. by intros (_ & _ & _ & _ & ? & _). }
    destruct (negb _ && _).
    + split; [done|]. intros (_ & _ & _ & _ & _ & H%Hplat & _). done.
    + split.
      * intros [= <-]. repeat (split; [done|]). split; [by apply Hplat|done].
      * by intros (_ & _ & _ & _ & _ & _ & ->).
  - destruct (HasPrefix _ _) eqn:Hp; simpl.
    2:{ split; [done|]. intros (_ & _ & H & _). by specialize (H Hs). }
    destruct (String.eqb_spec (modVersion module) "") as [Hv|Hv].
    { split; [done|]. by intros (_ & _ & _ & ? & _). }
    destruct (AffectsSemver _ _) eqn:Haff; simpl.
    2:{ split; [done|]. by intros (_ & _ & _ & _ & ? & _). }
    destruct (negb _ && _).
    + split; [done|]. intros (_ & _ & _ & _ & _ & H%Hplat & _). done.
    + split.
      * intros [= <-]. repeat (split; [done|]). split; [by apply Hplat|done].
      * by intros (_ & _ & _ & _ & _ & _ & ->).
Qed.

End FilterIff.

(** ** The entries of the path maps *)

Section EntryFacts.
Import GoStrings Types Analysis Provenance.
Variable pass : Pass.
Variable catalog : Catalog.
Variable sched : Schedule.
Variable g : Graph.
Variable P : string → list string → Prop.
Hypothesis P_direct : ∀ obj v,
  v ∈ isDirectlyVulnerable pass catalog obj →
  P (v ++ ":" ++ symbolOf pass obj) [format pass obj].
Hypothesis P_cons : ∀ x k p, P k p → P k (x :: p).

Abbreviation goodEntries := (goodEntries P).
Abbreviation entryTable := (entryTable P).
Abbreviation entryState := (entryState pass P).

Lemma P_extend o k p : P k p → P k (extend o p).
Proof.
  intros Hp. unfold extend. destruct p as [|p0 p]; [by apply P_cons|].
  destruct (String.eqb _ _); [done|]. by apply P_cons.
Qed.

Lemma goodEntries_empty : goodEntries ∅.
Proof. intros k p H. by rewrite lookup_empty in H. Qed.

Lemma entryTable_empty : entryTable ∅.
Proof. intros o path H. by rewrite lookup_empty in H. Qed.

Lemma entryTable_insert o path m :
  goodEntries path → entryTable m → entryTable (<[o := path]> m).
Proof.
  intros Hp Hm o' path'. destruct (decide (o = o')) as [->|Hne].
  - rewrite lookup_insert_eq. by intros [= <-].
  - rewrite lookup_insert_ne by done. apply Hm.
Qed.

Lemma goodEntries_adopt o from path :
  goodEntries from → goodEntries path → goodEntries (adopt o from path).
Proof.
  intros Hf Hp k p. rewrite adopt_lookup.
  destruct (from !! k) as [prev|] eqn:Hk.
  - intros [= <-]. apply P_extend. by apply Hf.
  - apply Hp.
Qed.

Lemma findPath_entries facts fuel obj memo path memo' :
  entryTable facts → entryTable memo →
  findPath pass catalog sched g facts fuel obj memo = Some (path, memo') →
  goodEntries path ∧ entryTable memo'.
Proof.
  intros Hfacts. revert obj memo path memo'.
  induction fuel as [|fuel IH]; intros obj memo path memo' Hmemo; [done|].
  destruct (memo !! obj) as [p|] eqn:Hm.
  - rewrite (findPath_hit pass catalog sched g facts fuel obj memo p Hm).
    intros [= <- <-]. split; [by eapply Hmemo|done].
  - rewrite (findPath_miss pass catalog sched g facts fuel obj memo Hm).
    destruct (firstVisit pass catalog sched g facts fuel obj memo)
      as [[path1 memo1]|] eqn:Hf; [|done].
    intros [= <- <-].
    assert (goodEntries path1 ∧ entryTable memo1) as [Hp1 Hm1].
    { unfold Analysis.firstVisit in Hf.
      pose proof (entryTable_insert obj ∅ memo goodEntries_empty Hmemo) as Hgrey.
      destruct (Nat.ltb 0 (length _)).
      { injection Hf as <- <-. split; [|done].
        intros k p Hk. apply directPaths_lookup in Hk as (-> & v & Hv & ->).
        by apply P_direct. }
      destruct (facts !! obj) as [fact|] eqn:Hfact.
      { injection Hf as <- <-. split; [|done].
        apply goodEntries_adopt; [by eapply Hfacts|apply goodEntries_empty]. }
      apply (overSuccs_invariant (findPath pass catalog sched g facts fuel)
               (λ p m, goodEntries p ∧ entryTable m)) in Hf; [done| |].
      - split; [apply goodEntries_empty|done].
      - intros succ p0 m0 p1 m1 _ [Hp0 Hm0] Hrec.
        apply IH in Hrec as [Hp1 Hm1]; [|done]. split; [|done].
        destruct (Nat.ltb 0 (size p1)); [|done].
        by apply goodEntries_adopt. }
    split; [done|].
    destruct (Nat.ltb 0 (size path1)); [|done]. by apply entryTable_insert.
Qed.

Lemma init_fold_entries (pfp path : PathMap) :
  goodEntries pfp → goodEntries path →
  goodEntries (map_fold (λ vuln trace (pfp : PathMap),
                           match pfp !! vuln with
                           | Some _ => pfp
                           | None => <[vuln := trace]> pfp
                           end) pfp path).
Proof.
  intros Hpfp.
  apply (map_fold_weak_ind
           (λ (r : PathMap) (m : PathMap), goodEntries m → goodEntries r));
    [done|].
  intros j x m r Hj IH Hm.
  assert (goodEntries r) as Hr.
  { apply IH. intros k p Hk. apply (Hm k p).
    rewrite lookup_insert_ne; [done|]. intros ->. congruence. }
  destruct (r !! j) eqn:E; [done|].
  intros k p. destruct (decide (j = k)) as [->|Hne].
  - rewrite lookup_insert_eq. intros [= <-]. apply (Hm k x).
    by rewrite lookup_insert_eq.
  - rewrite lookup_insert_ne by done. apply Hr.
Qed.

Lemma memberStep_entries st m st' :
  entryState st → memberStep pass catalog sched g st m = Ok st' →
  entryState st'.
Proof.
  intros (Hf & Hm & Hd & He & Hpf) (path & memo' & Hfind & Hcase)%memberStep_Ok.
  eapply findPath_entries in Hfind as [Hp Hm']; [|done..].
  destruct Hcase as [[_ ->]|[_ ->]]; [done|].
  split; [|split; [|split; [|split]]]; simpl.
  - destruct (Exported _); [|done]. by apply entryTable_insert.
  - done.
  - intros d [Hin|Hin]%elem_of_app; [by apply Hd|].
    apply list_elem_of_In, in_flat_map in Hin as ([k p] & Hkp & Hin).
    apply list_elem_of_In, elem_of_map_to_list in Hkp. simpl in Hin.
    destruct (Nat.eqb (length p) 0); [done|]. destruct Hin as [<-|[]].
    exists m, k, p. split; [by apply Hp|done].
  - destruct (Exported _); [|done].
    intros o path' [Hin|Hin%list_elem_of_singleton]%elem_of_app;
      [by eapply He|].
    by injection Hin as -> ->.
  - destruct (String.eqb _ _); [|done]. by apply init_fold_entries.
Qed.

Lemma loop_entries st l st' :
  entryState st →
  foldResult (memberStep pass catalog sched g) st l = Ok st' →
  entryState st'.
Proof.
  revert st. induction l as [|m l IH]; intros st Hst; simpl.
  - by intros [= <-].
  - destruct (memberStep pass catalog sched g st m) as [st1| |] eqn:H1;
      simpl; [|done..].
    apply IH. by eapply memberStep_entries.
Qed.

Lemma importStep_entries (st : list Diagnostic * PathMap) i st' :
  (∀ imported fact, PackageFacts pass !! imported = Some fact →
                    goodEntries fact) →
  (∀ d, d ∈ st.1 → ∃ m k p, P k p ∧ d = diagnostic pass m k p) →
  goodEntries st.2 →
  importStep pass st i = Ok st' →
  (∀ d, d ∈ st'.1 → ∃ m k p, P k p ∧ d = diagnostic pass m k p)
  ∧ goodEntries st'.2.
Proof.
  intros Hpkg Hd Hpf. unfold importStep.
  destruct (Kind (Objs pass i)) as [| | | |dcl imp|] eqn:Hk; try done.
  destruct (PackageFacts pass !! imp) as [fact|] eqn:Hf;
    [|by intros [= <-]].
  intros [= <-]. specialize (Hpkg imp fact Hf). revert Hpkg.
  apply (map_fold_weak_ind
      (λ (r : list Diagnostic * PathMap) (m : PathMap),
         goodEntries m →
         (∀ d, d ∈ r.1 → ∃ m k p, P k p ∧ d = diagnostic pass m k p)
         ∧ goodEntries r.2)); [done|].
  intros j x m r Hj IH Hm.
  assert (goodEntries m) as Hm'.
  { intros k p Hkp. apply (Hm k p).
    rewrite lookup_insert_ne; [done|]. intros ->. congruence. }
  destruct (IH Hm') as [Hrd Hrp].
  assert (P j (format pass i :: x)) as Hjx.
  { apply P_cons, (Hm j x). by rewrite lookup_insert_eq. }
  simpl. split.
  - intros d [Hin|Hin%list_elem_of_singleton]%elem_of_app; [by apply Hrd|].
    subst d. by exists i, j, (format pass i :: x).
  - destruct (r.2 !! j) as [y|] eqn:Hr.
    + destruct (negb _); [done|].
      intros k p. destruct (decide (j = k)) as [->|Hne].
      * rewrite lookup_insert_eq. by intros [= <-].
      * rewrite lookup_insert_ne by done. apply Hrp.
    + intros k p. destruct (decide (j = k)) as [->|Hne].
      * rewrite lookup_insert_eq. by intros [= <-].
      * rewrite lookup_insert_ne by done. apply Hrp.
Qed.

Lemma imports_entries (st : list Diagnostic * PathMap) l st' :
  (∀ imported fact, PackageFacts pass !! imported = Some fact →
                    goodEntries fact) →
  (∀ d, d ∈ st.1 → ∃ m k p, P k p ∧ d = diagnostic pass m k p) →
  goodEntries st.2 →
  foldResult (importStep pass) st l = Ok st' →
  (∀ d, d ∈ st'.1 → ∃ m k p, P k p ∧ d = diagnostic pass m k p)
  ∧ goodEntries st'.2.
Proof.
  intros Hpkg. revert st. induction l as [|i l IH]; intros st Hd Hpf; simpl.
  - by intros [= <-].
  - destruct (importStep pass st i) as [st1| |] eqn:H1; simpl; [|done..].
    destruct (importStep_entries st i st1 Hpkg Hd Hpf H1) as [Hd1 Hpf1].
    by apply IH.
Qed.

Lemma afterImports_entries st0 :
  entryTable (ObjectFacts pass) →
  (∀ imported fact, PackageFacts pass !! imported = Some fact →
                    goodEntries fact) →
  afterImports pass sched g = Ok st0 → entryState st0.
Proof.
  intros Hobj Hpkg. unfold afterImports.
  destruct (foldResult (importStep pass) ([], ∅) (importsOf sched g))
    as [r| |] eqn:Hr; simpl; [|done..].
  intros [= <-].
  apply imports_entries in Hr as [Hd Hpf]; [|done| |apply goodEntries_empty].
  2:{ simpl. by intros d ?%elem_of_nil. }
  split; [done|]. split; [apply entryTable_empty|]. split; [done|].
  split; [|done]. simpl. by intros o path ?%elem_of_nil.
Qed.

Lemma finalState_entries st :
  entryTable (ObjectFacts pass) →
  (∀ imported fact, PackageFacts pass !! imported = Some fact →
                    goodEntries fact) →
  finalState pass catalog sched g = Ok st → entryState st.
Proof.
  intros Hobj Hpkg. unfold finalState.
  destruct (afterImports pass sched g) as [st0| |] eqn:H0; simpl; [|done..].
  apply loop_entries. by apply afterImports_entries.
Qed.

Lemma foundAt_entries m path :
  entryTable (ObjectFacts pass) →
  (∀ imported fact, PackageFacts pass !! imported = Some fact →
                    goodEntries fact) →
  foundAt pass catalog sched g m path → goodEntries path.
Proof.
  intros Hobj Hpkg (st0 & H0 & pre & post & st & memo' & _ & Hpre & Hfind).
  apply afterImports_entries in H0; [|done..].
  apply loop_entries in Hpre as (Hf & Hm & _); [|done].
  by eapply findPath_entries in Hfind as [Hp _].
Qed.

End EntryFacts.

(** ** Entries that report direct hits *)

Section ListedFacts.
Import GoStrings Types Analysis Provenance.
Variable catalog : Catalog.

Lemma listed_direct pass obj v :
  v ∈ isDirectlyVulnerable pass catalog obj →
  listed catalog (v ++ ":" ++ symbolOf pass obj) [format pass obj].
Proof. intros Hv. by exists pass, obj, v. Qed.

Lemma listed_cons x k p : listed catalog k p → listed catalog k (x :: p).
Proof.
  intros (pass & o & id & Hid & Hk & Hlast). exists pass, o, id.
  split; [done|]. split; [done|]. rewrite last_cons. by rewrite Hlast.
Qed.

(** One run of the analyzer: with facts that report direct hits only, the
    diagnostics, the object facts and the package fact of the run report
    direct hits only. *)
Lemma analyze_listed pass sched out :
  entryTable (listed catalog) (ObjectFacts pass) →
  (∀ imported fact, PackageFacts pass !! imported = Some fact →
                    goodEntries (listed catalog) fact) →
  analyze pass catalog sched = Ok out →
  (∀ d, d ∈ Diagnostics out →
        ∃ m k p, listed catalog k p ∧ d = diagnostic pass m k p)
  ∧ (∀ o path, (o, path) ∈ ObjectFactsOut out →
               goodEntries (listed catalog) path)
  ∧ (∀ fact, PackageFactOut out = Some fact →
             goodEntries (listed catalog) fact).
Proof.
  intros Hobj Hpkg (g & st & Hg & Hst & -> & -> & Hp)%analyze_Ok.
  apply (finalState_entries pass catalog sched g (listed catalog)) in Hst
    as (_ & _ & Hd & He & Hpf); [|apply listed_direct|apply listed_cons|done..].
  split; [done|]. split; [done|].
  intros fact. rewrite Hp. destruct (Nat.ltb _ _); [|done]. by intros [= <-].
Qed.

(** By induction on the depth: the facts that the driver supplies report
    direct hits only. *)
Lemma supplied_listed depth pass :
  supplied catalog depth pass →
  entryTable (listed catalog) (ObjectFacts pass)
  ∧ (∀ imported fact, PackageFacts pass !! imported = Some fact →
                      goodEntries (listed catalog) fact).
Proof.
  revert pass. induction depth as [|depth IH]; intros pass; simpl.
  - intros [-> ->]. split; [by intros ? ? ?%lookup_empty_Some|].
    by intros ? ? ?%lookup_empty_Some.
  - intros [Hobj Hpkg]. split.
    + intros o fact Ho.
      destruct (Hobj o fact Ho) as (pass' & sched' & out' & o' & Hs & Ha & Hin).
      destruct (IH pass' Hs) as [Hobj' Hpkg'].
      destruct (analyze_listed pass' sched' out' Hobj' Hpkg' Ha) as (_ & He & _).
      by eapply He.
    + intros imported fact Hi.
      destruct (Hpkg imported fact Hi) as (pass' & sched' & out' & Hs & Ha & Hf).
      destruct (IH pass' Hs) as [Hobj' Hpkg'].
      destruct (analyze_listed pass' sched' out' Hobj' Hpkg' Ha) as (_ & _ & Hq).
      by apply Hq.
Qed.

Lemma Cut_colon_prefix (id s : string) :
  (Cut (id ++ ":" ++ s) ":").1.1 = (Cut id ":").1.1.
Proof.
  induction id as [|a id IH].
  - rewrite app_empty. change (":" ++ s) with (String ":" s).
    rewrite Cut_colon_cons. by rewrite bool_decide_eq_true_2.
  - rewrite app_cons, !Cut_colon_cons. case_bool_decide; [done|].
    destruct (Cut (id ++ ":" ++ s) ":") as [[b1 a1] f1].
    destruct (Cut id ":") as [[b2 a2] f2]. simpl in *. by rewrite IH.
Qed.

Lemma Cut_colon_none (id : string) : ¬ hasColon id → (Cut id ":").1.1 = id.
Proof.
  unfold hasColon. induction id as [|a id IH]; intros Hn; [done|].
  simpl in Hn. rewrite not_elem_of_cons in Hn. destruct Hn as [Ha Hn].
  rewrite Cut_colon_cons. rewrite bool_decide_eq_false_2 by done.
  specialize (IH Hn). destruct (Cut id ":") as [[b a'] f]. simpl in *.
  by rewrite IH.
Qed.

Lemma symbolOf_objectString0 pass o :
  " "%char ∉ list_ascii_of_string (objectString0 pass o) →
  symbolOf pass o = objectString0 pass o.
Proof.
  intros Hs. unfold symbolOf, format.
  change (" " ++ Fset pass (Pos (Objs pass o)))
    with (String " " (Fset pass (Pos (Objs pass o)))).
  by rewrite (Cut_byte_app " " _ _ Hs).
Qed.

End ListedFacts.

(** ** The wire format of the diagnostics *)

Section WireFormat.
Import GoStrings Types Analysis Provenance.


End WireFormat.

(** ** The entries of the catalog *)

Section KnownFacts.
Import GoStrings Osvutil OsvutilEnv Fetch FetchModules FetchEntries Selection.
Variable heap : gmap PkgPtr Loaded.
Variable rangeImports : PkgPtr → list PkgPtr → list PkgPtr.
Hypothesis rangeImports_valid : ∀ pkg l, rangeImports pkg l ≡ₚ l.
Variable rangeModules : list Packages.Module → list Packages.Module.
Hypothesis rangeModules_valid : ∀ l, rangeModules l ≡ₚ l.
Variable env : Environ.
Variable runtimeGOOS runtimeGOARCH : string.
Variable AffectsSemver : Osv.Affects → string → bool.
Variable CheckPath : string → bool.
Variable GetByModule : string → result (list Osv.Entry).

Abbreviation goos := (goos env runtimeGOOS).
Abbreviation goarch := (goarch env runtimeGOARCH).
Abbreviation fetchModule :=
  (fetchModule goos goarch AffectsSemver CheckPath GetByModule).
Abbreviation FetchOSVEntries :=
  (FetchOSVEntries heap rangeImports rangeModules env runtimeGOOS runtimeGOARCH
                   AffectsSemver CheckPath GetByModule).
Abbreviation keptFor := (keptFor goos goarch AffectsSemver GetByModule).
Abbreviation knownIndex := (knownIndex goos goarch AffectsSemver GetByModule).

Lemma keptFor_known_version mdl v :
  keptFor mdl v → modVersion (effectiveModule_fix mdl) ≠ "".
Proof.
  intros (vulns & _ & Hv) Hnone.
  rewrite filterOSVEntries_unknown_version in Hv by done.
  by apply elem_of_nil in Hv.
Qed.

Lemma fetchModule_known modules mod2OSV mdl mod2OSV' :
  mdl ∈ modules → knownIndex modules mod2OSV →
  fetchModule mod2OSV mdl = Ok mod2OSV' → knownIndex modules mod2OSV'.
Proof.
  intros Hin Hknown. unfold Osvutil.fetchModule.
  destruct (CheckPath _); simpl; [|by intros [= <-]].
  destruct (GetByModule _) as [vulns| |] eqn:Hget; simpl; [|done..].
  destruct (Nat.ltb _ _); intros [= <-]; [|done].
  intros k vs. destruct (decide (modKey mdl = k)) as [<-|Hne].
  - rewrite lookup_insert_eq. intros [= <-]. exists mdl.
    split; [done|]. split; [done|]. intros v Hv. by exists vulns.
  - rewrite lookup_insert_ne by done. apply Hknown.
Qed.

Lemma fetch_loop_known modules l mod2OSV mod2OSV' :
  (∀ m, m ∈ l → m ∈ modules) → knownIndex modules mod2OSV →
  Analysis.foldResult fetchModule mod2OSV l = Ok mod2OSV' →
  knownIndex modules mod2OSV'.
Proof.
  revert mod2OSV. induction l as [|m l IH]; intros mod2OSV Hsub Hknown; simpl.
  - by intros [= <-].
  - destruct (fetchModule mod2OSV m) as [m1| |] eqn:E; simpl; [|done..].
    apply IH.
    + intros m' Hm'. apply Hsub. by right.
    + eapply fetchModule_known; [|done..]. apply Hsub. left.
Qed.

Lemma packageVulns_moduleFor stdlibModule mod2OSV pkg vs v :
  packageVulns stdlibModule mod2OSV pkg = Ok vs → v ∈ vs →
  ∃ m vs0, moduleFor stdlibModule pkg = Some m
           ∧ mod2OSV !! modKey m = Some vs0 ∧ v ∈ vs0.
Proof.
  unfold packageVulns, moduleFor.
  destruct (match Packages.PkgModule pkg with
            | Some m => Some m
            | None => if isStdPackage (Packages.PkgPath pkg)
                      then Some stdlibModule else None
            end) as [m|]; [|done].
  intros [= <-]. intros (v' & Hv' & Hin)%list_elem_of_In%in_flat_map.
  apply in_flat_map in Hin as (a & Ha & Hin).
  apply in_flat_map in Hin as (imp & Himp & Hin).
  destruct (String.eqb (Osv.Path imp) (Packages.PkgPath pkg)); [|done].
  destruct Hin as [->|[]].
  destruct (mod2OSV !! modKey m) as [vs0|] eqn:Hk; simpl in Hv'; [|done].
  exists m, vs0. split; [done|]. split; [done|]. by apply list_elem_of_In.
Qed.

Lemma calls_collect_known stdlibModule mod2OSV pkgs order pkg2OSV pkg2OSV' :
  (∀ p, p ∈ order → reachable heap pkgs p) →
  knownPackages heap stdlibModule mod2OSV pkgs pkg2OSV →
  calls heap (collect stdlibModule mod2OSV) order pkg2OSV = Done pkg2OSV' →
  knownPackages heap stdlibModule mod2OSV pkgs pkg2OSV'.
Proof.
  revert pkg2OSV. induction order as [|p order IH]; intros pkg2OSV Hin Hk; simpl.
  - by intros [= <-].
  - assert (∀ q, q ∈ order → reachable heap pkgs q) as Hin'.
    { intros q Hq. apply Hin. by right. }
    destruct (heap !! p) as [node|] eqn:Hn; [|by apply IH].
    unfold Fetch.collect at 1.
    destruct (packageVulns stdlibModule mod2OSV (Pkg node)) as [vulns|e|msg] eqn:E;
      [|done..].
    apply IH; [done|].
    destruct (Nat.ltb_spec 0 (length vulns)) as [Hlen|]; [|done].
    intros q vs. destruct (decide (Packages.PkgPath (Pkg node) = q)) as [<-|Hne].
    + rewrite lookup_insert_eq. intros [= <-]. exists p, node.
      split; [apply Hin; left|]. repeat (split; [done|]).
      intros ->. simpl in Hlen. lia.
    + rewrite lookup_insert_ne by done. apply Hk.
Qed.

(** The map that [FetchOSVEntries] returns, its module index and its
    modules. *)
Lemma FetchOSVEntries_known (tag : string) (pkgs : list PkgPtr)
    (pkg2OSV : gmap string (list Osv.Entry)) :
  FetchOSVEntries tag pkgs = Ok pkg2OSV →
  ∃ version modules mod2OSV,
    GoTagToSemver tag = Ok version
    ∧ (∀ m, m ∈ modules → m = stdlib version ∨ moduleOf heap pkgs m)
    ∧ knownIndex modules mod2OSV
    ∧ knownPackages heap (stdlib version) mod2OSV pkgs pkg2OSV.
Proof.
  rewrite (FetchOSVEntries_unfold heap rangeImports rangeModules env
             runtimeGOOS runtimeGOARCH AffectsSemver CheckPath GetByModule).
  pose proof (extractModules_modules heap rangeImports rangeImports_valid
                rangeModules rangeModules_valid tag pkgs) as Hmods.
  destruct (GoTagToSemver tag) as [version| |] eqn:Htag.
  2,3: by rewrite Hmods.
  destruct Hmods as (modules & -> & Hstd & Hmem & _). simpl.
  destruct (Analysis.foldResult _ _ _) as [mod2OSV| |] eqn:Hfetch; simpl;
    [|done..].
  apply (fetch_loop_known (modules ++ [stdlib version])) in Hfetch; [|done|].
  2:{ intros k vs H. by rewrite lookup_empty in H. }
  destruct (walk_traversal heap rangeImports rangeImports_valid
              (collect (stdlib version) mod2OSV) pkgs ∅)
    as (order & _ & Hin & Hwalk).
  destruct (walk _ _ _ _ _) as [[s'|s' e|msg]|]; try done.
  - intros [= <-]. destruct Hwalk as [Hc _].
    exists version, (modules ++ [stdlib version])%list, mod2OSV.
    split; [done|]. split.
    { intros m [Hm| ->%list_elem_of_singleton]%elem_of_app; [by apply Hmem|].
      by left. }
    split; [done|].
    eapply calls_collect_known; [done| |done].
    intros ? ? H. by rewrite lookup_empty in H.
  - intros [= <-]. exfalso. revert Hwalk. clear.
    generalize (∅ : gmap string (list Osv.Entry)).
    induction order as [|p order IH]; intros s; simpl; [done|].
    destruct (heap !! p) as [node|]; [|apply IH].
    unfold Fetch.collect at 1.
    destruct (packageVulns _ _ _) as [vulns|e'|msg] eqn:E; [apply IH| |done].
    by apply packageVulns_no_Err in E.
Qed.

(** ** The module whose version is unknown, from the filter to the
    diagnostics *)


End KnownFacts.

(** * More concrete inputs *)

Transparent Analysis.enoughFuel.

Section MoreWitnesses.
Import GoStrings Splitting Osvutil OsvutilEnv Types Analysis Examples.
Import Paths ImportedPaths ById Fetch FetchModules FetchEntries MoreExamples.

Lemma importsAsStored_valid : ∀ pkg l, importsAsStored pkg l ≡ₚ l.
Proof. done. Qed.

Lemma modulesAsStored_valid : ∀ l, modulesAsStored l ≡ₚ l.
Proof. done. Qed.

Lemma tab_free (s : string) :
  forallb (λ c, negb (Ascii.eqb c "009")) (list_ascii_of_string s) = true →
  "009"%char ∉ list_ascii_of_string s.
Proof.
  intros Hall Hin%list_elem_of_In.
  rewrite forallb_forall in Hall. apply Hall in Hin.
  by rewrite Ascii.eqb_refl in Hin.
Qed.

Lemma byte_free (c : ascii) (s : string) :
  forallb (λ c', negb (Ascii.eqb c' c)) (list_ascii_of_string s) = true →
  c ∉ list_ascii_of_string s.
Proof.
  intros Hall Hin%list_elem_of_In.
  rewrite forallb_forall in Hall. apply Hall in Hin.
  by rewrite Ascii.eqb_refl in Hin.
Qed.

(** Witness: GO02, whose details end with a line feed. *)
Lemma normalizeOSVEntries_details_witness :
  [entryGO02] !! 0%nat = Some entryGO02
  ∧ ∃ v', normalizeOSVEntries moduleB [entryGO02] !! 0%nat = Some v'
          ∧ Osv.ID v' = "GO02"
          ∧ "010"%char ∉ list_ascii_of_string (Osv.Details v').
Proof.
  split; [reflexivity|].
  destruct (normalizeOSVEntries_details moduleB [entryGO02] 0 entryGO02 eq_refl)
    as (v' & Hv' & _ & Hid & _ & _ & _ & _ & _ & Hlf & _).
  exists v'. done.
Defined.

(** Witness: the function [Vuln] of b.com/m/vuln. *)
Lemma parseObjectNameStr_round_trip_witness :
  ("/"%char ∉ list_ascii_of_string "vuln")
  ∧ ("."%char ∉ list_ascii_of_string "vuln")
  ∧ ("/"%char ∉ list_ascii_of_string "Vuln")
  ∧ Quickcheck.parseObjectNameStr "b.com/m/vuln.Vuln" = ("b.com/m/vuln", "Vuln").
Proof.
  assert ("/"%char ∉ list_ascii_of_string "vuln") as H1 by (by apply byte_free).
  assert ("."%char ∉ list_ascii_of_string "vuln") as H2 by (by apply byte_free).
  assert ("/"%char ∉ list_ascii_of_string "Vuln") as H3 by (by apply byte_free).
  split; [done|]. split; [done|]. split; [done|].
  apply (parseObjectNameStr_round_trip "b.com/m" "vuln" "Vuln" H1 H2 H3).
Defined.

Lemma passX_graph : visitAll passX emptyGraph (Nodes passX) = Ok (graphOf passX).
Proof. vm_compute. reflexivity. Qed.

(** Witness: package x of the examples, which imports the fact of [Vuln]. *)
Lemma keys_keep_their_colon_witness :
  keyTable hasColon (ObjectFacts passX)
  ∧ analyze passX catalogGO02 asStored = Ok (outputOf passX catalogGO02 asStored)
  ∧ ∀ d, d ∈ Diagnostics (outputOf passX catalogGO02 asStored) →
         hasColon (Category d).
Proof.
  split; [apply passX_facts|]. split; [apply passX_output|].
  apply (keys_keep_their_colon passX catalogGO02 asStored
           (outputOf passX catalogGO02 asStored) passX_facts).
  - intros imported fact. cbn [PackageFacts passX]. by rewrite lookup_empty.
  - apply passX_output.
Defined.


Lemma passX_findPath_B :
  findPath passX catalogGO02 asStored (graphOf passX) (ObjectFacts passX)
           10 2%positive ∅ = Some (factB, memoAfterB).
Proof. vm_compute. reflexivity. Qed.

(** Witness: [findPath] for [B] in package x, with an empty memo table. *)
Lemma findPath_memoizes_witness :
  findPath passX catalogGO02 asStored (graphOf passX) (ObjectFacts passX)
           10 2%positive ∅ = Some (factB, memoAfterB)
  ∧ memoAfterB !! 2%positive = Some factB.
Proof.
  split; [apply passX_findPath_B|].
  apply (findPath_memoizes passX catalogGO02 asStored (graphOf passX)
           (ObjectFacts passX) 10 2%positive ∅ factB memoAfterB
           passX_findPath_B).
Defined.

(** Witness: the function [Vuln], which GO02 lists. *)
Lemma findPath_direct_hit_witness :
  isDirectlyVulnerable passX catalogGO02 3%positive ≠ []
  ∧ ∃ path,
      findPath passX catalogGO02 asStored (graphOf passX) (ObjectFacts passX)
               1 3%positive ∅ = Some (path, <[3%positive := path]> ∅).
Proof.
  assert (isDirectlyVulnerable passX catalogGO02 3%positive ≠ []) as Hhit
    by (vm_compute; discriminate).
  split; [done|].
  destruct (findPath_direct_hit passX catalogGO02 asStored (graphOf passX)
              (ObjectFacts passX) 0 3%positive ∅ Hhit (lookup_empty _))
    as (path & Hpath & _).
  by exists path.
Defined.

Lemma factB_exported :
  (2%positive, factB) ∈ ObjectFactsOut (outputOf passX catalogGO02 asStored).
Proof. vm_compute. left. Qed.

Lemma passAfterX_format : format passAfterX 2%positive = format passX 2%positive.
Proof. vm_compute. reflexivity. Qed.

Lemma passAfterX_fact : ObjectFacts passAfterX !! 2%positive = Some factB.
Proof. vm_compute. reflexivity. Qed.

Lemma passAfterX_no_hit :
  isDirectlyVulnerable passAfterX catalogGO02 2%positive = [].
Proof. vm_compute. reflexivity. Qed.

(** Witness: the fact that the analysis of x exports for [B], read by a
    package that refers to [B]. *)
Lemma exported_fact_is_found_again_witness :
  analyze passX catalogGO02 asStored = Ok (outputOf passX catalogGO02 asStored)
  ∧ (2%positive, factB) ∈ ObjectFactsOut (outputOf passX catalogGO02 asStored)
  ∧ format passAfterX 2%positive = format passX 2%positive
  ∧ ObjectFacts passAfterX !! 2%positive = Some factB
  ∧ isDirectlyVulnerable passAfterX catalogGO02 2%positive = []
  ∧ findPath passAfterX catalogGO02 asStored (graphOf passAfterX)
             (ObjectFacts passAfterX) 1 2%positive ∅
    = Some (factB, <[2%positive := factB]> ∅).
Proof.
  split; [apply passX_output|]. split; [apply factB_exported|].
  split; [apply passAfterX_format|]. split; [apply passAfterX_fact|].
  split; [apply passAfterX_no_hit|].
  apply (exported_fact_is_found_again passX catalogGO02 asStored
           (outputOf passX catalogGO02 asStored) 2%positive factB
           passAfterX catalogGO02 asStored (graphOf passAfterX)
           (ObjectFacts passAfterX) 2%positive 0 ∅
           passX_output factB_exported passAfterX_format passAfterX_fact
           passAfterX_no_hit (lookup_empty _)).
Defined.

Lemma passXPackageFact_output :
  analyze passXPackageFact catalogGO02 asStored
  = Ok (outputOf passXPackageFact catalogGO02 asStored).
Proof. vm_compute. reflexivity. Qed.

Lemma passXPackageFact_graph :
  visitAll passXPackageFact emptyGraph (Nodes passXPackageFact)
  = Ok (graphOf passXPackageFact).
Proof. vm_compute. reflexivity. Qed.

Lemma passXPackageFact_import :
  5%positive ∈ Analysis.imports (graphOf passXPackageFact).
Proof.
  assert (Analysis.imports (graphOf passXPackageFact) = {[ 5%positive ]}) as ->
    by (vm_compute; reflexivity).
  set_solver.
Qed.

Lemma passXPackageFact_path :
  importedPath passXPackageFact 5%positive "GO02:b.com/m/vuln.Vuln"
               ["x x.go:2:8"; "b.com/m/vuln.Vuln vuln.go:2:6"].
Proof.
  exists "x", "b.com/m/vuln", factVuln, ["b.com/m/vuln.Vuln vuln.go:2:6"].
  split; [vm_compute; reflexivity|]. split; [vm_compute; reflexivity|].
  split; [vm_compute; reflexivity|]. vm_compute. reflexivity.
Qed.

(** Witness: package x with the package fact of b.com/m/vuln. *)
Lemma package_fact_keeps_a_shortest_path_witness :
  valid_schedule asStored
  ∧ 5%positive ∈ Analysis.imports (graphOf passXPackageFact)
  ∧ importedPath passXPackageFact 5%positive "GO02:b.com/m/vuln.Vuln"
                 ["x x.go:2:8"; "b.com/m/vuln.Vuln vuln.go:2:6"]
  ∧ ∃ fact q,
      PackageFactOut (outputOf passXPackageFact catalogGO02 asStored) = Some fact
      ∧ fact !! "GO02:b.com/m/vuln.Vuln" = Some q
      ∧ (length q ≤ 2)%nat.
Proof.
  split; [apply asStored_valid|]. split; [apply passXPackageFact_import|].
  split; [apply passXPackageFact_path|].
  destruct (package_fact_keeps_a_shortest_path passXPackageFact catalogGO02
              asStored (outputOf passXPackageFact catalogGO02 asStored)
              (graphOf passXPackageFact) 5%positive "GO02:b.com/m/vuln.Vuln"
              ["x x.go:2:8"; "b.com/m/vuln.Vuln vuln.go:2:6"]
              asStored_valid passXPackageFact_output passXPackageFact_graph
              passXPackageFact_import passXPackageFact_path)
    as (fact & q & _ & Hfact & Hk & _ & _ & Hlen & _).
  exists fact, q. split; [exact Hfact|]. split; [exact Hk|]. exact Hlen.
Defined.

Lemma passX_bucket_of_B :
  bucketOf (graphOf passX) 2%positive = Some {[ 1%positive; 3%positive ]}.
Proof. vm_compute. reflexivity. Qed.

(** Witness: the references of [B] in package x, [A] and [Vuln]. *)
Lemma succs_are_sorted_by_Id_witness :
  valid_schedule asStored
  ∧ bucketOf (graphOf passX) 2%positive = Some {[ 1%positive; 3%positive ]}
  ∧ ∃ sorted, sorted ≡ₚ elements ({[ 1%positive; 3%positive ]} : gset ObjId)
              ∧ StronglySorted (byId passX) sorted.
Proof.
  split; [apply asStored_valid|]. split; [apply passX_bucket_of_B|].
  destruct (succs_are_sorted_by_Id passX asStored (graphOf passX) 2%positive
              {[ 1%positive; 3%positive ]} asStored_valid passX_bucket_of_B)
    as (sorted & _ & Hperm & Hsorted & _).
  exists sorted. split; [exact Hperm|exact Hsorted].
Defined.

Lemma diagnosticsX_value :
  diagnosticsX
  = [ {| DPos := 20; DEnd := 0; Category := "GO02:b.com/m/vuln.Vuln";
         Message := "GO02|x.B x.go:4:6" ++ tab
                    ++ "b.com/m/vuln.Vuln vuln.go:2:6" |} ].
Proof. vm_compute. reflexivity. Qed.

Lemma diagnosticsX_colon :
  ∀ d, d ∈ concat [diagnosticsX] → hasColon (Category d).
Proof.
  intros d. rewrite diagnosticsX_value. simpl.
  intros ->%list_elem_of_singleton.
  apply (hasColon_app_colon "GO02" "b.com/m/vuln.Vuln").
Qed.

Lemma fetchTest_value : fetchTest dbGO02 heapTest = Ok pkg2vulnsTest.
Proof. vm_compute. reflexivity. Qed.

Lemma diagnosticsX_keys :
  ∀ d, d ∈ concat [diagnosticsX] →
       ∃ k, Quickcheck.keyOf pkg2vulnsTest d = Ok k.
Proof.
  intros d. rewrite diagnosticsX_value. simpl.
  intros ->%list_elem_of_singleton. eexists. vm_compute. reflexivity.
Qed.

Lemma summaryTest_Ok :
  Quickcheck.summarize pkg2vulnsTest [diagnosticsX]
  = Ok (foldl (Grouping.groupStep (Quickcheck.keyOr pkg2vulnsTest)
                 Quickcheck.first Quickcheck.next)
              ∅ (concat [diagnosticsX])).
Proof. apply foldResult_summary, diagnosticsX_keys. Qed.

(** Witness: the summary of the diagnostics of x. *)
Lemma summarize_groups_witness :
  ∃ summary,
    Quickcheck.summarize pkg2vulnsTest [diagnosticsX] = Ok summary
    ∧ ∀ d, d ∈ concat [diagnosticsX] →
           ∃ key, Quickcheck.keyOf pkg2vulnsTest d = Ok key
                  ∧ is_Some (summary !! key).
Proof.
  eexists. split; [apply summaryTest_Ok|].
  apply (summarize_groups pkg2vulnsTest [diagnosticsX] _ summaryTest_Ok).
Defined.

(** Witness: the summary of cmd/vulns for the diagnostics of x, where an
    int has 64 bits. *)
Lemma vulns_summary_groups_witness :
  (0 < 64)%Z
  ∧ ∀ d, d ∈ concat [diagnosticsX] →
         is_Some (Vulns.summarize 64 [diagnosticsX] !! Vulns.keyOf d).
Proof.
  split; [done|].
  apply (vulns_summary_groups 64 eq_refl [diagnosticsX]).
Defined.

Lemma path_of_B_tab_free :
  ∀ z, z ∈ ["x.B x.go:4:6"; "b.com/m/vuln.Vuln vuln.go:2:6"] →
       "009"%char ∉ list_ascii_of_string z.
Proof.
  intros z [->|[->|[]%elem_of_nil]%elem_of_cons]%elem_of_cons;
    by apply byte_free.
Qed.

Lemma GO02_tab_free :
  "009"%char ∉ list_ascii_of_string (Cut "GO02:b.com/m/vuln.Vuln" ":").1.1.
Proof. by apply byte_free. Qed.

(** Witness: the diagnostic of [B] in package x. *)
Lemma vulns_key_of_a_diagnostic_witness :
  ("009"%char ∉ list_ascii_of_string (Cut "GO02:b.com/m/vuln.Vuln" ":").1.1)
  ∧ Vulns.keyOf (diagnostic passX 2%positive "GO02:b.com/m/vuln.Vuln"
                   ["x.B x.go:4:6"; "b.com/m/vuln.Vuln vuln.go:2:6"])
    = ("GO02:b.com/m/vuln.Vuln", "b.com/m/vuln.Vuln vuln.go:2:6").
Proof.
  split; [apply GO02_tab_free|].
  apply (vulns_key_of_a_diagnostic passX 2%positive "GO02:b.com/m/vuln.Vuln"
           "x.B x.go:4:6" "b.com/m/vuln.Vuln vuln.go:2:6" []
           GO02_tab_free path_of_B_tab_free).
Defined.

(** Witness: the walk over the packages of the test, from work/x. *)
Lemma walk_calls_each_package_once_witness :
  (∀ pkg l, importsAsStored pkg l ≡ₚ l)
  ∧ ∃ order,
      NoDup order
      ∧ (∀ p, p ∈ order → reachable heapTest [1%positive] p)
      ∧ match walk heapTest importsAsStored listPaths [1%positive] [] with
        | Some (Done s') =>
            calls heapTest listPaths order [] = Done s'
            ∧ ∀ p, reachable heapTest [1%positive] p → p ∈ order
        | Some (Failed s' e) => calls heapTest listPaths order [] = Failed s' e
        | Some (Panicked msg) => calls heapTest listPaths order [] = Panicked msg
        | None => False
        end.
Proof.
  split; [apply importsAsStored_valid|].
  apply (walk_calls_each_package_once heapTest importsAsStored
           importsAsStored_valid listPaths [1%positive] []).
Defined.

(** Witness: the modules of the test, with the toolchain go1.20.3. *)
Lemma extractModules_lists_the_modules_witness :
  (∀ pkg l, importsAsStored pkg l ≡ₚ l)
  ∧ (∀ l, modulesAsStored l ≡ₚ l)
  ∧ match GoTagToSemver "go1.20.3" with
    | Ok version =>
        ∃ modules,
          extractModules heapTest importsAsStored modulesAsStored
                         "go1.20.3" [1%positive] = Ok modules
          ∧ stdlib version ∈ modules
          ∧ (∀ m, m ∈ modules →
                  m = stdlib version ∨ moduleOf heapTest [1%positive] m)
          ∧ (∀ m, moduleOf heapTest [1%positive] m →
               ∃ m', m' ∈ modules ∧ moduleOf heapTest [1%positive] m'
                     ∧ extractKey m' = extractKey m)
    | Err e => extractModules heapTest importsAsStored modulesAsStored
                              "go1.20.3" [1%positive] = Err e
    | Panic msg => extractModules heapTest importsAsStored modulesAsStored
                                  "go1.20.3" [1%positive] = Panic msg
    end.
Proof.
  split; [apply importsAsStored_valid|]. split; [apply modulesAsStored_valid|].
  apply (extractModules_lists_the_modules heapTest importsAsStored
           importsAsStored_valid modulesAsStored modulesAsStored_valid
           "go1.20.3" [1%positive]).
Defined.

Lemma pkg2vulnsTest_vuln :
  ∃ vs, pkg2vulnsTest !! "b.com/m/vuln" = Some vs.
Proof. eexists. vm_compute. reflexivity. Qed.

(** Witness: the packages of the test and the database with GO02. *)
Lemma FetchOSVEntries_files_selected_entries_witness :
  ∃ vs,
    fetchTest dbGO02 heapTest = Ok pkg2vulnsTest
    ∧ pkg2vulnsTest !! "b.com/m/vuln" = Some vs
    ∧ vs ≠ []
    ∧ ∀ v, v ∈ vs → selectedEntry "linux" "amd64" v
                    ∧ listsPackage "b.com/m/vuln" v.
Proof.
  destruct pkg2vulnsTest_vuln as [vs Hvs]. exists vs.
  split; [apply fetchTest_value|]. split; [exact Hvs|].
  destruct (FetchOSVEntries_files_selected_entries heapTest importsAsStored
              importsAsStored_valid modulesAsStored
              ∅ "linux" "amd64" alwaysAffected checkFirstElement dbGO02
              "go1.20.3" [1%positive] pkg2vulnsTest "b.com/m/vuln" vs
              fetchTest_value Hvs) as (Hne & _ & Hall).
  split; [exact Hne|exact Hall].
Defined.

Lemma tag_of_the_test : GoTagToSemver "go1.20.3" = Ok "v1.20.3".
Proof. vm_compute. reflexivity. Qed.

Lemma dbGO02_answers : ∀ path, ∃ vulns, dbGO02 path = Ok vulns.
Proof. intros path. unfold dbGO02. destruct (String.eqb _ _); by eexists. Qed.

Lemma fetchTest_orphan :
  fetchTest dbGO02 heapOrphan
  = Panic "invalid memory address or nil pointer dereference".
Proof. vm_compute. reflexivity. Qed.

(** Witness: the packages of the test, with b.com/m/vuln without module. *)
Lemma FetchOSVEntries_panics_on_a_package_without_module_witness :
  GoTagToSemver "go1.20.3" = Ok "v1.20.3"
  ∧ (∀ path, ∃ vulns, dbGO02 path = Ok vulns)
  ∧ ∃ p node, reachable heapOrphan [1%positive] p
              ∧ heapOrphan !! p = Some node ∧ orphan node.
Proof.
  split; [apply tag_of_the_test|]. split; [apply dbGO02_answers|].
  destruct (FetchOSVEntries_panics_on_a_package_without_module heapOrphan
              importsAsStored importsAsStored_valid modulesAsStored
              modulesAsStored_valid ∅ "linux" "amd64" alwaysAffected
              checkFirstElement dbGO02 "go1.20.3" [1%positive] "v1.20.3"
              tag_of_the_test dbGO02_answers) as [_ Hpanic].
  destruct (Hpanic "invalid memory address or nil pointer dereference")
    as [Hto _].
  destruct (Hto fetchTest_orphan) as [_ Ho]. exact Ho.
Defined.

Lemma fetchTest_down : fetchTest dbDown heapTest = Err "no network".
Proof. vm_compute. reflexivity. Qed.

(** Witness: the packages of the test and a database that cannot be
    reached. *)
Lemma FetchOSVEntries_returns_the_error_of_a_lookup_witness :
  fetchTest dbDown heapTest = Err "no network"
  ∧ ∃ version m,
      GoTagToSemver "go1.20.3" = Ok version
      ∧ (m = stdlib version ∨ moduleOf heapTest [1%positive] m)
      ∧ checkFirstElement (Packages.Path (effectiveModule_fix m)) = true
      ∧ dbDown (Packages.Path (effectiveModule_fix m)) = Err "no network".
Proof.
  split; [apply fetchTest_down|].
  apply (FetchOSVEntries_returns_the_error_of_a_lookup heapTest importsAsStored
           importsAsStored_valid modulesAsStored modulesAsStored_valid
           ∅ "linux" "amd64" alwaysAffected checkFirstElement dbDown
           "go1.20.3" [1%positive] "no network" fetchTest_down).
Defined.

(** Witness: the map fetched for the test and the diagnostics of x. *)
Lemma Analyze_summarizes_the_fetched_entries_witness :
  fetchTest dbGO02 heapTest = Ok pkg2vulnsTest
  ∧ (∀ d, d ∈ concat [diagnosticsX] → hasColon (Category d))
  ∧ ∃ summary, Quickcheck.summarize pkg2vulnsTest [diagnosticsX] = Ok summary.
Proof.
  split; [apply fetchTest_value|]. split; [apply diagnosticsX_colon|].
  apply (Analyze_summarizes_the_fetched_entries heapTest importsAsStored
           importsAsStored_valid modulesAsStored
           ∅ "linux" "amd64" alwaysAffected checkFirstElement dbGO02
           "go1.20.3" [1%positive] pkg2vulnsTest [diagnosticsX]
           fetchTest_value diagnosticsX_colon).
Defined.

End MoreWitnesses.

Section WireWitnesses.
Import GoStrings Types Analysis Provenance Examples WireExamples.

Lemma passVuln_output :
  analyze passVuln catalogGO02 asStored
  = Ok (outputOf passVuln catalogGO02 asStored).
Proof. vm_compute. reflexivity. Qed.

Lemma passVuln_exports :
  (3%positive, factVuln) ∈ ObjectFactsOut (outputOf passVuln catalogGO02 asStored).
Proof. vm_compute. left. Qed.

Lemma passVuln_supplied : supplied catalogGO02 0 passVuln.
Proof. done. Qed.

Lemma passX_supplied : supplied catalogGO02 1 passX.
Proof.
  split.
  - intros o fact. cbn [ObjectFacts passX].
    intros [<- <-]%lookup_singleton_Some.
    exists passVuln, asStored, (outputOf passVuln catalogGO02 asStored), 3%positive.
    split; [apply passVuln_supplied|].
    split; [apply passVuln_output|apply passVuln_exports].
  - intros imported fact. cbn [PackageFacts passX]. by rewrite lookup_empty.
Qed.


Lemma passXAlone_supplied : supplied catalogColon 0 passXAlone.
Proof. done. Qed.


End WireWitnesses.

Section VersionWitness.
Import GoStrings Osvutil Fetch FetchModules Selection Examples MoreExamples.
Import WireExamples VersionExamples.

Lemma fetchMain_value : fetchTest dbGO02 heapMain = Ok pkg2vulnsMain.
Proof. vm_compute. reflexivity. Qed.

Lemma heapMain_nodes p node :
  heapMain !! p = Some node →
  Packages.PkgModule (Pkg node) = Some moduleWork
  ∨ Packages.PkgModule (Pkg node) = Some moduleA
  ∨ (Packages.PkgPath (Pkg node) = "b.com/m/vuln"
     ∧ Packages.PkgModule (Pkg node) = Some moduleBMain).
Proof.
  unfold heapMain, heapTest.
  rewrite !lookup_insert_Some, lookup_singleton_Some.
  intros [[_ <-]|[Hne [[_ <-]|[_ [[_ <-]|[_ [[_ <-]|[_ [He _]]]]]]]]].
  - right. right. done.
  - by left.
  - by left.
  - right. by left.
  - done.
Qed.

Lemma heapMain_keys mdl' :
  mdl' = stdlib "v1.20.3" ∨ moduleOf heapMain [1%positive] mdl' →
  modKey mdl' = modKey moduleBMain →
  modVersion (effectiveModule_fix mdl') = "".
Proof.
  intros [->|(p & node & _ & Hn & Hm)]; [done|].
  apply heapMain_nodes in Hn as [Hn|[Hn|[_ Hn]]]; rewrite Hn in Hm;
    injection Hm as <-; done.
Qed.

Lemma heapMain_vuln pkg node :
  reachable heapMain [1%positive] pkg → heapMain !! pkg = Some node →
  Packages.PkgPath (Pkg node) = "b.com/m/vuln" →
  moduleFor (stdlib "v1.20.3") (Pkg node) = Some moduleBMain.
Proof.
  intros _ Hn. unfold moduleFor. revert Hn. unfold heapMain, heapTest.
  rewrite !lookup_insert_Some, lookup_singleton_Some.
  intros [[_ <-]|[Hne [[_ <-]|[_ [[_ <-]|[_ [[_ <-]|[_ [He _]]]]]]]]]; done.
Qed.

Lemma passVuln_fetched :
  Analysis.analyze passVuln catalogTest asStored
  = Ok (outputOf passVuln catalogTest asStored).
Proof. vm_compute. reflexivity. Qed.

Lemma passVuln_fetched_exports :
  (3%positive, factVuln)
    ∈ Analysis.ObjectFactsOut (outputOf passVuln catalogTest asStored).
Proof. vm_compute. left. Qed.

Lemma passX_fetched_supplied : Provenance.supplied catalogTest 1 passX.
Proof.
  split.
  - intros o fact. cbn [Analysis.ObjectFacts passX].
    intros [<- <-]%lookup_singleton_Some.
    exists passVuln, asStored, (outputOf passVuln catalogTest asStored), 3%positive.
    split; [done|]. split; [apply passVuln_fetched|apply passVuln_fetched_exports].
  - intros imported fact. cbn [Analysis.PackageFacts passX].
    by rewrite lookup_empty.
Qed.

Lemma passX_fetched :
  Analysis.analyze passX catalogTest asStored
  = Ok (outputOf passX catalogTest asStored).
Proof. vm_compute. reflexivity. Qed.

Lemma passX_fetched_reports :
  Analysis.Diagnostics (outputOf passX catalogTest asStored) ≠ [].
Proof. vm_compute. discriminate. Qed.


End VersionWitness.
